(** * AGS load-test extension and image pre-cache tool: task lifecycle layer

    A shallow embedding of the concurrency and task-lifecycle code of the
    repository: the generic asynchronous task executor, the jitter
    calculator, the token cache, the start-with-deferred-stop and
    multi-round stress chains, and the retry loop of the image pre-cacher.

    Conventions.
    - Go [int] and [int64] are [Z]; arithmetic on them that can leave the
      64-bit range goes through [wrap64].
    - Go [float64] values are rationals; every float64 operation is the
      exact operation followed by [F64.round], rounding to binary64.
    - A [nil] slice and an empty slice are both the empty list.
    - Calls that leave the process (the cloud SDK, the HTTP client, the
      worker pool library, the clock, the random source) are answered by an
      environment record whose fields are indexed by a logical tick. *)

From stdpp Require Import base gmap strings list pretty.
From Stdlib Require Import ZArith QArith Qround Qpower Lia Lqa.

Local Open Scope Z_scope.

(** ** 64-bit integers *)

Definition wrap64 (z : Z) : Z := (z + 2 ^ 63) mod 2 ^ 64 - 2 ^ 63.

Definition int64_range (z : Z) : Prop := - 2 ^ 63 <= z < 2 ^ 63.

(** ** binary64 arithmetic *)

Module F64.

Definition prec : Z := 53.
Definition emin : Z := -1022.

Definition pow2 (e : Z) : Q := Qpower 2 e.

(** [ilog2 x] is the integer part of the base-2 logarithm of [x > 0]. *)
Definition ilog2 (x : Q) : Z :=
  let k := Z.log2 (Qnum x) - Z.log2 (Z.pos (Qden x)) in
  if Qle_bool (pow2 k) x then k else k - 1.

(** Nearest integer, ties to the even neighbour. *)
Definition rnd_half_even (x : Q) : Z :=
  let f := Qfloor x in
  match Qcompare (x - inject_Z f) (1 # 2) with
  | Lt => f
  | Gt => f + 1
  | Eq => if Z.even f then f else f + 1
  end.

(** The exponent of the unit in the last place of [x > 0]; below
    [2^emin] the spacing is that of the subnormal numbers. *)
Definition ulp_exp (x : Q) : Z := Z.max (ilog2 x) emin - (prec - 1).

Definition round_pos (x : Q) : Q :=
  (inject_Z (rnd_half_even (x / pow2 (ulp_exp x))) * pow2 (ulp_exp x))%Q.

(** Round to nearest binary64, ties to even.  No value of this program
    comes near the overflow threshold, which is left out. *)
Definition round (x : Q) : Q :=
  match Qnum x with
  | Z0 => 0%Q
  | Zpos _ => round_pos x
  | Zneg _ => (- round_pos (- x))%Q
  end.

Definition add (x y : Q) : Q := round (x + y).
Definition sub (x y : Q) : Q := round (x - y).
Definition mul (x y : Q) : Q := round (x * y).
Definition div (x y : Q) : Q := round (x / y).

(** [float64(n)] for an integer [n]. *)
Definition of_int (n : Z) : Q := round (inject_Z n).

(** [int(x)]: the fractional part is discarded (truncation toward zero). *)
Definition to_int (x : Q) : Z :=
  if Qle_bool 0 x then Qfloor x else Qceiling x.

(** A float64 literal. *)
Definition lit (x : Q) : Q := round x.

(** What [rand.Float64()] promises of its value: it lies in [[0, 1)]. *)
Definition unit_draw (u : Q) : Prop := (0 <= u)%Q /\ (u < 1)%Q.

End F64.

(** ** Generic asynchronous task executor *)

(** [AsyncTaskResult]: what a finished task leaves in the buffer. *)
Record AsyncTaskResult (T : Type) := mkAsyncTaskResult {
  atr_TaskID : string;
  atr_Result : T;
  atr_Error : string;
  atr_StartedAt : Z;
  atr_EndedAt : Z;
  atr_DurationMs : Z
}.
Arguments mkAsyncTaskResult {T}.
Arguments atr_TaskID {T}.
Arguments atr_Result {T}.
Arguments atr_Error {T}.
Arguments atr_StartedAt {T}.
Arguments atr_EndedAt {T}.
Arguments atr_DurationMs {T}.

(** [Submit] computes the delay before it touches the executor: the
    nominal seconds with a jitter of one fifth, never below zero.  [u] is
    the value of [rand.Float64()], drawn only when [delaySeconds > 0]. *)
Definition actualDelay (delaySeconds : Z) (u : Q) : Q :=
  if 0 <? delaySeconds then
    let jitter := F64.mul (F64.of_int delaySeconds) (F64.lit (1 # 5)) in
    let d := F64.add (F64.of_int delaySeconds)
                     (F64.mul (F64.sub (F64.mul u 2) 1) jitter) in
    if Qle_bool 0 d then d else 0%Q
  else 0%Q.

Section Executor.

(** [T] is the payload type; [F] is the type of the task functions given
    to [Submit].  They are closures in the source and data here. *)
Context {T F : Type}.

(** The closure that [Submit] hands to the pool: it captures the task
    identifier, the delay and the task function. *)
Record PoolTask := mkPoolTask {
  pt_taskID : string;
  pt_actualDelay : Q;
  pt_taskFunc : F
}.

(** [pool] is [None] until the first [getPool]; afterwards it holds the
    closures the pool has accepted and that have not buffered a result. *)
Record AsyncTaskExecutor := mkExecutor {
  name : string;
  pool : option (list PoolTask);
  poolSize : Z;
  results : list (AsyncTaskResult T);
  pendingCount : Z
}.

Definition NewAsyncTaskExecutor (nm : string) (size : Z) : AsyncTaskExecutor :=
  let size := if size <=? 0 then 100000 else size in
  {| name := nm; pool := None; poolSize := size;
     results := []; pendingCount := 0 |}.

(** [getPool]: the pool is made on first use, once. *)
Definition getPool (e : AsyncTaskExecutor) : AsyncTaskExecutor * list PoolTask :=
  match pool e with
  | Some p => (e, p)
  | None =>
      ({| name := name e; pool := Some []; poolSize := poolSize e;
          results := results e; pendingCount := pendingCount e |}, [])
  end.

Definition set_pool (e : AsyncTaskExecutor) (p : list PoolTask) : AsyncTaskExecutor :=
  {| name := name e; pool := Some p; poolSize := poolSize e;
     results := results e; pendingCount := pendingCount e |}.

Definition set_results (e : AsyncTaskExecutor) (rs : list (AsyncTaskResult T))
  : AsyncTaskExecutor :=
  {| name := name e; pool := pool e; poolSize := poolSize e;
     results := rs; pendingCount := pendingCount e |}.

(** [atomic.AddInt64(&e.pendingCount, d)]. *)
Definition addPending (d : Z) (e : AsyncTaskExecutor) : AsyncTaskExecutor :=
  {| name := name e; pool := pool e; poolSize := poolSize e;
     results := results e; pendingCount := wrap64 (pendingCount e + d) |}.

(** The second half of [Submit]: [e.getPool().Submit(closure)].  [ans] is
    the pool's answer, [None] when it takes the closure and [Some err]
    when it refuses. *)
Definition poolSubmit (t : PoolTask) (ans : option string)
           (e : AsyncTaskExecutor) : AsyncTaskExecutor * option string :=
  let '(e, p) := getPool e in
  match ans with
  | None => (set_pool e (p ++ [t]), None)
  | Some err => (e, Some err)
  end.

(** [Submit]: the delay, the counter, the pool, in this order. *)
Definition Submit (taskID : string) (delaySeconds : Z) (taskFunc : F)
           (u : Q) (ans : option string) (e : AsyncTaskExecutor)
  : AsyncTaskExecutor * option string :=
  let t := mkPoolTask taskID (actualDelay delaySeconds u) taskFunc in
  poolSubmit t ans (addPending 1 e).

Definition GetPendingCount (e : AsyncTaskExecutor) : Z := pendingCount e.

(** [GetResults]: under the lock, the buffer is handed out and replaced
    by the empty one. *)
Definition GetResults (e : AsyncTaskExecutor)
  : list (AsyncTaskResult T) * AsyncTaskExecutor :=
  match results e with
  | [] => ([], e)
  | rs => (rs, set_results e [])
  end.

(** The result record a pool closure builds once its task function has
    returned [(result, err)]. *)
Definition taskResult (taskID : string) (result : T) (err : option string)
           (startedAt endedAt : Z) : AsyncTaskResult T :=
  {| atr_TaskID := taskID; atr_Result := result;
     atr_Error := default "" err;
     atr_StartedAt := startedAt; atr_EndedAt := endedAt;
     atr_DurationMs := wrap64 (endedAt - startedAt) |}.

(** The locked append of a pool closure. *)
Definition bufferResult (r : AsyncTaskResult T) (e : AsyncTaskExecutor)
  : AsyncTaskExecutor := set_results e (results e ++ [r]).

(** *** Interleavings

    The executor is shared by many goroutines.  Its state changes only
    inside the critical section of [resultsLock] and at the atomic
    additions to [pendingCount], so an execution is a sequence of the
    atomic actions below.  Besides the executor, a state records where
    the goroutines stand: the [Submit] calls that have added to the
    counter and not yet reached the pool, and the number of pool
    closures that have buffered their result and not yet decremented. *)
Record System := mkSystem {
  sys_exec : AsyncTaskExecutor;
  sys_submitting : list PoolTask;
  sys_finishing : nat
}.

Inductive Event :=
| EvSubmitCount (taskID : string) (delaySeconds : Z) (taskFunc : F) (u : Q)
    (** a [Submit] call up to the addition to the counter *)
| EvSubmitPool (i : nat) (ans : option string)
    (** the [i]-th such call reaches the pool, which answers [ans] *)
| EvBuffer (i : nat) (result : T) (err : option string) (startedAt endedAt : Z)
    (** the [i]-th closure in the pool has slept, run its task function
        and appends the result *)
| EvDecrement
    (** a closure that has buffered its result subtracts one *)
| EvGetResults
| EvGetPendingCount.

Inductive Output :=
| OutNone
| OutBuffered (r : AsyncTaskResult T)
    (** the record a closure appended *)
| OutResults (rs : list (AsyncTaskResult T))
    (** what [GetResults] returned *)
| OutCount (n : Z).

Definition step (s : System) (ev : Event) : option (System * Output) :=
  match ev with
  | EvSubmitCount taskID delaySeconds taskFunc u =>
      let t := mkPoolTask taskID (actualDelay delaySeconds u) taskFunc in
      Some (mkSystem (addPending 1 (sys_exec s)) (sys_submitting s ++ [t])
                     (sys_finishing s), OutNone)
  | EvSubmitPool i ans =>
      t ← sys_submitting s !! i;
      Some (mkSystem (fst (poolSubmit t ans (sys_exec s)))
                     (delete i (sys_submitting s)) (sys_finishing s), OutNone)
  | EvBuffer i result err startedAt endedAt =>
      p ← pool (sys_exec s);
      t ← p !! i;
      let r := taskResult (pt_taskID t) result err startedAt endedAt in
      Some (mkSystem (bufferResult r (set_pool (sys_exec s) (delete i p)))
                     (sys_submitting s) (S (sys_finishing s)), OutBuffered r)
  | EvDecrement =>
      match sys_finishing s with
      | O => None
      | S k => Some (mkSystem (addPending (-1) (sys_exec s))
                              (sys_submitting s) k, OutNone)
      end
  | EvGetResults =>
      let '(rs, e) := GetResults (sys_exec s) in
      Some (mkSystem e (sys_submitting s) (sys_finishing s), OutResults rs)
  | EvGetPendingCount =>
      Some (s, OutCount (GetPendingCount (sys_exec s)))
  end.

(** A run: the events in order, with what each one returned. *)
Fixpoint run (s : System) (evs : list Event) : option (System * list Output) :=
  match evs with
  | [] => Some (s, [])
  | ev :: evs =>
      '(s1, o) ← step s ev;
      '(s2, os) ← run s1 evs;
      Some (s2, o :: os)
  end.

Definition initial (nm : string) (size : Z) : System :=
  mkSystem (NewAsyncTaskExecutor nm size) [] 0.

(** Bookkeeping over a run. *)
Definition is_submit (ev : Event) : bool :=
  match ev with EvSubmitCount _ _ _ _ => true | _ => false end.
Definition is_buffer (ev : Event) : bool :=
  match ev with EvBuffer _ _ _ _ _ => true | _ => false end.
Definition is_decrement (ev : Event) : bool :=
  match ev with EvDecrement => true | _ => false end.

Definition count_events (p : Event → bool) (evs : list Event) : Z :=
  Z.of_nat (length (filter (λ ev, p ev = true) evs)).

(** Everything the [GetResults] calls of a run handed out, in order. *)
Definition drained (os : list Output) : list (AsyncTaskResult T) :=
  concat (omap (λ o, match o with OutResults rs => Some rs | _ => None end) os).

(** Everything the closures of a run appended, in order. *)
Definition buffered (os : list Output) : list (AsyncTaskResult T) :=
  omap (λ o, match o with OutBuffered r => Some r | _ => None end) os.

(** What holds of a state after [n] counted submissions, [b] appends and
    [d] decrements. *)
Definition accounted (s : System) (n b d : Z) : Prop :=
  0 <= d ∧
  pendingCount (sys_exec s) = n - d ∧
  Z.of_nat (sys_finishing s) = b - d ∧
  b + Z.of_nat (length (default [] (pool (sys_exec s))))
    + Z.of_nat (length (sys_submitting s)) <= n.

End Executor.

Arguments PoolTask : clear implicits.
Arguments AsyncTaskExecutor : clear implicits.
Arguments System : clear implicits.
Arguments Event : clear implicits.
Arguments Output : clear implicits.

(** ** Data of the load-test extension *)

(** A decoded JSON value: what Go holds in an [any]. *)
#[warnings="-register-all"] Inductive any :=
| ANil
| ABool (b : bool)
| ANum (q : Q)
| AStr (s : string)
| AList (l : list any)
| AMap (m : gmap string any).

Record ControlPlaneResponse := mkControlPlaneResponse {
  cpr_Success : bool;
  cpr_Data : gmap string any;
  cpr_Error : string;
  cpr_RequestID : string;
  cpr_TimingMs : Z
}.

Record Shell2HttpResponse := mkShell2HttpResponse {
  s2h_Success : bool;
  s2h_ExitCode : Z;
  s2h_Output : string;
  s2h_Error : string;
  s2h_DurationMs : Z;
  s2h_Timeout : bool;
  s2h_TimingMs : Z
}.

Record StressConfig := mkStressConfig {
  sc_CPUWorkers : Z;
  sc_CPULoad : Z;
  sc_VMWorkers : Z;
  sc_VMBytes : string;
  sc_IOWorkers : Z;
  sc_Timeout : Z;
  sc_Jitter : Z
}.

Record tokenCache := mkTokenCache {
  tc_token : string;
  tc_expiresAt : Z
}.

(** What [AcquireSandboxInstanceToken] returns: an error, or a response
    whose body, token and expiry may each be absent. *)
Record AcquireBody := mkAcquireBody {
  ab_Token : option string;
  ab_ExpiresAt : option string
}.

Inductive AcquireResult :=
| AcquireErr (err : string)
| AcquireOk (body : option AcquireBody).

(** A Go pair [(value, error)]. *)
Inductive result (A : Type) :=
| Ok (a : A)
| Err (msg : string).
Arguments Ok {A}.
Arguments Err {A}.

(** The task functions given to the two process-wide executors. *)
Inductive StopFunc :=
| StopInstanceFunc (instanceId : string).
    (** [func() { return m.StopSandboxInstance({"InstanceId": id}), nil }] *)

Inductive StressFunc :=
| ChainFunc (instanceID port : string) (stressConfigs : list StressConfig)
    (** the body given to [Submit] by [RunAsyncStress] *)
| RoundResultFunc (resp : Shell2HttpResponse).
    (** [func() { return resp, nil }] *)

(** ** The environment

    Every call that leaves the process is recorded in [calls]; its answer
    is read from the environment at the position of the call in that
    record, so two calls with the same arguments may be answered
    differently. *)
Inductive Call :=
| CallRandFloat64
| CallTimeNow
| CallPoolSubmit (executor taskID : string)
| CallStartSandboxInstance (params : gmap string any)
| CallStopSandboxInstance (params : gmap string any)
| CallExecShell2Http (instanceID port command : string) (timeout : Z)
| CallAcquireToken (instanceID : string).

Record Env := mkEnv {
  rand_Float64 : nat → Q;
  time_Now : nat → Z;  (** nanoseconds *)
  pool_Submit : nat → option string;
  ags_StartSandboxInstance : nat → gmap string any → ControlPlaneResponse;
  ags_StopSandboxInstance : nat → gmap string any → ControlPlaneResponse;
  ags_ExecShell2Http : nat → string → string → string → Z → Shell2HttpResponse;
  client_AcquireSandboxInstanceToken : nat → string → AcquireResult;
  time_Parse : string → option Z;  (** [time.Parse(time.RFC3339Nano, s)] *)
  json_Marshal : gmap string any → result string;
  json_Unmarshal : string → StressConfig → result StressConfig
}.

(** The state of the process: the two executors (made on first use in the
    source, which no caller can tell from being made at start), the token
    cache of the module instance, and the record of outside calls. *)
Record World := mkWorld {
  asyncStopExecutor : AsyncTaskExecutor ControlPlaneResponse StopFunc;
  asyncStressExecutor : AsyncTaskExecutor (option Shell2HttpResponse) StressFunc;
  tm_cache : gmap string tokenCache;
  calls : list Call
}.

Definition initWorld : World :=
  {| asyncStopExecutor := NewAsyncTaskExecutor "async-stop" 100000;
     asyncStressExecutor := NewAsyncTaskExecutor "async-stress" 100000;
     tm_cache := ∅;
     calls := [] |}.

(** Computations over the world. *)
Definition M (A : Type) : Type := World → A * World.

Definition ret {A} (a : A) : M A := λ w, (a, w).

Definition bind {A B} (m : M A) (k : A → M B) : M B :=
  λ w, let '(a, w1) := m w in k a w1.

Notation "x <~ m ;; k" := (bind m (λ x, k))
  (at level 100, m at next level, right associativity).

(** The world after further outside calls. *)
Definition logged (cs : list Call) (w : World) : World :=
  {| asyncStopExecutor := asyncStopExecutor w;
     asyncStressExecutor := asyncStressExecutor w;
     tm_cache := tm_cache w;
     calls := calls w ++ cs |}.

(** An outside call: record it and read the answer at its position. *)
Definition call {A} (c : Call) (answer : nat → A) : M A :=
  λ w, (answer (length (calls w)), logged [c] w).

Definition set_stop (e : AsyncTaskExecutor ControlPlaneResponse StopFunc) (w : World) : World :=
  {| asyncStopExecutor := e; asyncStressExecutor := asyncStressExecutor w;
     tm_cache := tm_cache w; calls := calls w |}.

Definition set_stress (e : AsyncTaskExecutor (option Shell2HttpResponse) StressFunc)
           (w : World) : World :=
  {| asyncStopExecutor := asyncStopExecutor w; asyncStressExecutor := e;
     tm_cache := tm_cache w; calls := calls w |}.

Definition set_cache (c : gmap string tokenCache) (w : World) : World :=
  {| asyncStopExecutor := asyncStopExecutor w;
     asyncStressExecutor := asyncStressExecutor w;
     tm_cache := c; calls := calls w |}.

Section Program.

Variable env : Env.

Definition randFloat64 : M Q := call CallRandFloat64 (rand_Float64 env).
Definition timeNow : M Z := call CallTimeNow (time_Now env).

(** [Submit] on each of the two executors: the draw for the delay (only
    when there is one), then the counter and the pool. *)
Definition submitStop (taskID : string) (delaySeconds : Z) (f : StopFunc)
  : M (option string) :=
  u <~ (if 0 <? delaySeconds then randFloat64 else ret 0%Q) ;;
  ans <~ call (CallPoolSubmit "async-stop" taskID) (pool_Submit env) ;;
  λ w, let '(e, err) := Submit taskID delaySeconds f u ans (asyncStopExecutor w) in
       (err, set_stop e w).

Definition submitStress (taskID : string) (delaySeconds : Z) (f : StressFunc)
  : M (option string) :=
  u <~ (if 0 <? delaySeconds then randFloat64 else ret 0%Q) ;;
  ans <~ call (CallPoolSubmit "async-stress" taskID) (pool_Submit env) ;;
  λ w, let '(e, err) := Submit taskID delaySeconds f u ans (asyncStressExecutor w) in
       (err, set_stress e w).

(** *** Control plane

    [StartSandboxInstance] and [StopSandboxInstance] encode the
    parameters, call the SDK and decode the answer; the exchange is one
    outside call here, and any response may come back. *)
Definition StartSandboxInstance (params : gmap string any) : M ControlPlaneResponse :=
  call (CallStartSandboxInstance params) (λ t, ags_StartSandboxInstance env t params).

Definition StopSandboxInstance (params : gmap string any) : M ControlPlaneResponse :=
  call (CallStopSandboxInstance params) (λ t, ags_StopSandboxInstance env t params).

Definition stopParams (instanceId : string) : gmap string any :=
  {[ "InstanceId" := AStr instanceId ]}.

Definition StartSandboxInstanceWithAsyncStop
           (params : gmap string any) (delaySeconds : Z) : M ControlPlaneResponse :=
  if delaySeconds <=? 0 then
    ret {| cpr_Success := false; cpr_Data := ∅;
           cpr_Error := "delaySeconds must be greater than 0";
           cpr_RequestID := ""; cpr_TimingMs := 0 |}
  else
    resp <~ StartSandboxInstance params ;;
    if negb (cpr_Success resp) then ret resp
    else
      match cpr_Data resp !! "Instance" with
      | Some (AMap instance) =>
          match instance !! "InstanceId" with
          | Some (AStr instanceId) =>
              if String.eqb instanceId "" then ret resp
              else
                err <~ submitStop instanceId delaySeconds (StopInstanceFunc instanceId) ;;
                match err with
                | Some e =>
                    ret {| cpr_Success := false; cpr_Data := cpr_Data resp;
                           cpr_Error := "failed to submit stop task: " +:+ e;
                           cpr_RequestID := cpr_RequestID resp;
                           cpr_TimingMs := cpr_TimingMs resp |}
                | None => ret resp
                end
          | _ => ret resp
          end
      | _ => ret resp
      end.

(** *** Stress rounds *)

Definition DefaultStressConfig : StressConfig :=
  {| sc_CPUWorkers := 2; sc_CPULoad := 50; sc_VMWorkers := 1;
     sc_VMBytes := "128M"; sc_IOWorkers := 1; sc_Timeout := 30;
     sc_Jitter := 20 |}.

(** [applyJitter]: the literals [100.0], [2] and [1] are binary64
    numbers as they stand.  The random source is read only past the
    guard. *)
Definition applyJitter (value jitterPct : Z) : M Z :=
  if (jitterPct <=? 0) || (value <=? 0) then ret value
  else
    u <~ randFloat64 ;;
    let jitter := F64.div (F64.mul (F64.of_int value) (F64.of_int jitterPct)) 100 in
    let delta := F64.mul (F64.sub (F64.mul u 2) 1) jitter in
    let result := F64.to_int (F64.add (F64.of_int value) delta) in
    ret (if result <? 1 then 1 else result).

Definition clamp (v min max : Z) : Z :=
  if v <? min then min else if max <? v then max else v.

Definition applyConfigJitter (cfg : StressConfig) : M StressConfig :=
  let jitter := sc_Jitter cfg in
  cpuWorkers <~ applyJitter (sc_CPUWorkers cfg) jitter ;;
  cpuLoad <~ applyJitter (sc_CPULoad cfg) jitter ;;
  vmWorkers <~ applyJitter (sc_VMWorkers cfg) jitter ;;
  ioWorkers <~ applyJitter (sc_IOWorkers cfg) jitter ;;
  timeout <~ applyJitter (sc_Timeout cfg) jitter ;;
  ret {| sc_CPUWorkers := cpuWorkers; sc_CPULoad := clamp cpuLoad 1 100;
         sc_VMWorkers := vmWorkers; sc_VMBytes := sc_VMBytes cfg;
         sc_IOWorkers := ioWorkers; sc_Timeout := timeout; sc_Jitter := 0 |}.

Definition buildStressNGCommand (cfg : StressConfig) : string :=
  let args := ["stress-ng"] in
  let args :=
    if 0 <? sc_CPUWorkers cfg then
      let args := args ++ ["--cpu " +:+ pretty (sc_CPUWorkers cfg)] in
      if (0 <? sc_CPULoad cfg) && (sc_CPULoad cfg <=? 100)
      then args ++ ["--cpu-load " +:+ pretty (sc_CPULoad cfg)] else args
    else args in
  let args :=
    if 0 <? sc_VMWorkers cfg then
      let args := args ++ ["--vm " +:+ pretty (sc_VMWorkers cfg)] in
      if negb (String.eqb (sc_VMBytes cfg) "")
      then args ++ ["--vm-bytes " +:+ sc_VMBytes cfg] else args
    else args in
  let args :=
    if 0 <? sc_IOWorkers cfg
    then args ++ ["--io " +:+ pretty (sc_IOWorkers cfg)] else args in
  let args :=
    if 0 <? sc_Timeout cfg
    then args ++ ["--timeout " +:+ pretty (sc_Timeout cfg) +:+ "s"] else args in
  String.concat " " (args ++ ["--metrics-brief"]).

Definition set_Timeout (t : Z) (cfg : StressConfig) : StressConfig :=
  {| sc_CPUWorkers := sc_CPUWorkers cfg; sc_CPULoad := sc_CPULoad cfg;
     sc_VMWorkers := sc_VMWorkers cfg; sc_VMBytes := sc_VMBytes cfg;
     sc_IOWorkers := sc_IOWorkers cfg; sc_Timeout := t;
     sc_Jitter := sc_Jitter cfg |}.

(** [parseStressConfig]: a [nil] map is [None]. *)
Definition parseStressConfig (config : option (gmap string any)) : result StressConfig :=
  let decoded :=
    match config with
    | None => Ok DefaultStressConfig
    | Some config =>
        match json_Marshal env config with
        | Err e => Err ("failed to marshal config: " +:+ e)
        | Ok configBytes =>
            match json_Unmarshal env configBytes DefaultStressConfig with
            | Err e => Err ("failed to parse config: " +:+ e)
            | Ok cfg => Ok cfg
            end
        end
    end in
  match decoded with
  | Err e => Err e
  | Ok cfg => Ok (if sc_Timeout cfg <=? 0 then set_Timeout 30 cfg else cfg)
  end.

(** [ExecShell2Http] asks the command service inside the sandbox; the
    request and its answer are one outside call. *)
Definition ExecShell2Http (instanceID port command : string) (timeout : Z)
  : M Shell2HttpResponse :=
  call (CallExecShell2Http instanceID port command timeout)
       (λ t, ags_ExecShell2Http env t instanceID port command timeout).

(** The first loop of [RunAsyncStress]: parse and jitter each
    configuration, stopping at the first that does not parse. *)
Fixpoint parseConfigs (configs : list (option (gmap string any)))
         (stressConfigs : list StressConfig) : M (result (list StressConfig)) :=
  match configs with
  | [] => ret (Ok stressConfigs)
  | config :: configs =>
      match parseStressConfig config with
      | Err e => ret (Err e)
      | Ok cfg =>
          cfg <~ applyConfigJitter cfg ;;
          parseConfigs configs (stressConfigs ++ [cfg])
      end
  end.

(** The loop of the chain body, from round [i] on; [n] is
    [len(stressConfigs)]. *)
Fixpoint stressRounds (instanceID port : string) (n i : Z)
         (cfgs : list StressConfig) (lastResp : option Shell2HttpResponse)
  : M (option Shell2HttpResponse) :=
  match cfgs with
  | [] => ret lastResp
  | cfg :: cfgs =>
      let command := buildStressNGCommand cfg in
      let timeout := wrap64 (sc_Timeout cfg + 10) in
      resp <~ ExecShell2Http instanceID port command timeout ;;
      _ <~ (if i <? n - 1
            then submitStress instanceID 0 (RoundResultFunc resp)
            else ret None) ;;
      stressRounds instanceID port n (i + 1) cfgs (Some resp)
  end.

(** What a task function does when a pool worker calls it. *)
Definition runStopFunc (f : StopFunc) : M (ControlPlaneResponse * option string) :=
  match f with
  | StopInstanceFunc instanceId =>
      resp <~ StopSandboxInstance (stopParams instanceId) ;;
      ret (resp, None)
  end.

Definition runStressFunc (f : StressFunc)
  : M (option Shell2HttpResponse * option string) :=
  match f with
  | ChainFunc instanceID port stressConfigs =>
      lastResp <~ stressRounds instanceID port
                    (Z.of_nat (length stressConfigs)) 0 stressConfigs None ;;
      _ <~ submitStop instanceID 0 (StopInstanceFunc instanceID) ;;
      ret (lastResp, None)
  | RoundResultFunc resp => ret (Some resp, None)
  end.

Definition RunAsyncStress (instanceID port : string) (delaySeconds : Z)
           (configs : list (option (gmap string any))) : M (option string) :=
  parsed <~ (match configs with
             | [] => cfg <~ applyConfigJitter DefaultStressConfig ;; ret (Ok [cfg])
             | _ => parseConfigs configs []
             end) ;;
  match parsed with
  | Err e => ret (Some e)
  | Ok stressConfigs =>
      submitStress instanceID delaySeconds (ChainFunc instanceID port stressConfigs)
  end.

(** *** Pool workers

    A worker takes a closure out of its pool, sleeps, stamps the start,
    calls the task function, stamps the end, appends the result under the
    lock and subtracts one from the counter. *)
Definition unixMilli (ns : Z) : Z := ns / 1000000.

Definition stopWorker (i : nat) (w : World) : option World :=
  p ← pool (asyncStopExecutor w);
  t ← p !! i;
  let w := set_stop (set_pool (asyncStopExecutor w) (delete i p)) w in
  let '(startedAt, w) := timeNow w in
  let '((res, err), w) := runStopFunc (pt_taskFunc t) w in
  let '(endedAt, w) := timeNow w in
  let r := taskResult (pt_taskID t) res err (unixMilli startedAt) (unixMilli endedAt) in
  let w := set_stop (bufferResult r (asyncStopExecutor w)) w in
  Some (set_stop (addPending (-1) (asyncStopExecutor w)) w).

Definition stressWorker (i : nat) (w : World) : option World :=
  p ← pool (asyncStressExecutor w);
  t ← p !! i;
  let w := set_stress (set_pool (asyncStressExecutor w) (delete i p)) w in
  let '(startedAt, w) := timeNow w in
  let '((res, err), w) := runStressFunc (pt_taskFunc t) w in
  let '(endedAt, w) := timeNow w in
  let r := taskResult (pt_taskID t) res err (unixMilli startedAt) (unixMilli endedAt) in
  let w := set_stress (bufferResult r (asyncStressExecutor w)) w in
  Some (set_stress (addPending (-1) (asyncStressExecutor w)) w).

(** A schedule says which closure runs next. *)
Inductive Pick :=
| PickStop (i : nat)
| PickStress (i : nat).

Definition worker (pk : Pick) (w : World) : option World :=
  match pk with
  | PickStop i => stopWorker i w
  | PickStress i => stressWorker i w
  end.

Fixpoint runWorkers (sched : list Pick) (w : World) : option World :=
  match sched with
  | [] => Some w
  | pk :: sched => w1 ← worker pk w; runWorkers sched w1
  end.

(** No closure is left in either pool. *)
Definition quiescent (w : World) : Prop :=
  default [] (pool (asyncStopExecutor w)) = [] ∧
  default [] (pool (asyncStressExecutor w)) = [].

(** *** Results owed

    Counting, for each closure still in a pool, the results it will leave
    in the buffers. *)

(** The pool takes every closure. *)
Definition accepting : Prop := ∀ t, pool_Submit env t = None.

(** The buffered results a closure in the stress pool stands for: a chain
    leaves one result of its own and one per round before the last. *)
Definition stressWeight (f : StressFunc) : nat :=
  match f with
  | ChainFunc _ _ stressConfigs => Nat.max 1 (length stressConfigs)
  | RoundResultFunc _ => 1
  end.

(** A chain still has its stop task to submit. *)
Definition stopWeight (f : StressFunc) : nat :=
  match f with
  | ChainFunc _ _ _ => 1
  | RoundResultFunc _ => 0
  end.

Definition stressOwed (w : World) : nat :=
  length (results (asyncStressExecutor w)) +
  sum_list_with (stressWeight ∘ pt_taskFunc) (default [] (pool (asyncStressExecutor w))).

Definition stopOwed (w : World) : nat :=
  length (results (asyncStopExecutor w)) +
  length (default [] (pool (asyncStopExecutor w))) +
  sum_list_with (stopWeight ∘ pt_taskFunc) (default [] (pool (asyncStressExecutor w))).

(** The command request of one round. *)
Definition execCall (instanceID port : string) (cfg : StressConfig) : Call :=
  CallExecShell2Http instanceID port (buildStressNGCommand cfg) (wrap64 (sc_Timeout cfg + 10)).

(** The answer to the request of [cfg] made at position [t]. *)
Definition execAnswer (instanceID port : string) (t : nat) (cfg : StressConfig)
  : Shell2HttpResponse :=
  ags_ExecShell2Http env t instanceID port (buildStressNGCommand cfg)
                     (wrap64 (sc_Timeout cfg + 10)).

End Program.

(** ** Token cache *)

Definition second : Z := 1000000000.
Definition minute : Z := 60 * second.

Section TokenManager.

Variable env : Env.

(** The condition of both checks:
    [time.Now().Add(30*time.Second).Before(c.expiresAt)]. *)
Definition usable (now : Z) (c : tokenCache) : bool :=
  now + 30 * second <? tc_expiresAt c.

(** The cache test; the clock is read only when there is an entry. *)
Definition cachedToken (instanceID : string) : M (option string) :=
  λ w, match tm_cache w !! instanceID with
       | Some c =>
           (now <~ timeNow env ;;
            ret (if usable now c then Some (tc_token c) else None)) w
       | None => (None, w)
       end.

(** The expiry stored with a token: the one of the response when it is
    there and parses, five minutes from [now] otherwise. *)
Definition storedExpiry (body : AcquireBody) (now : Z) : Z :=
  match ab_ExpiresAt body with
  | Some s => default (now + 5 * minute) (time_Parse env s)
  | None => now + 5 * minute
  end.

(** The remote acquisition and the store, lines past the second check. *)
Definition acquireToken (instanceID : string) : M (result string) :=
  response <~ call (CallAcquireToken instanceID)
                (λ t, client_AcquireSandboxInstanceToken env t instanceID) ;;
  match response with
  | AcquireErr err => ret (Err ("failed to acquire token: " +:+ err))
  | AcquireOk None => ret (Err "empty token response")
  | AcquireOk (Some body) =>
      match ab_Token body with
      | None => ret (Err "empty token response")
      | Some token =>
          now <~ timeNow env ;;
          let expiresAt := storedExpiry body now in
          λ w, (Ok token,
                set_cache (<[instanceID := mkTokenCache token expiresAt]> (tm_cache w)) w)
      end
  end.

(** The part of [getToken] under the write lock: the second check, and
    past it the remote call and the store. *)
Definition refreshToken (instanceID : string) : M (result string) :=
  hit <~ cachedToken instanceID ;;
  match hit with
  | Some token => ret (Ok token)
  | None => acquireToken instanceID
  end.

(** [getToken]: the check under the read lock, then the locked part. *)
Definition getToken (instanceID : string) : M (result string) :=
  hit <~ cachedToken instanceID ;;
  match hit with
  | Some token => ret (Ok token)
  | None => refreshToken instanceID
  end.

(** *** Two callers

    The read-locked check writes nothing and the locked part excludes
    every other section, so a concurrent execution of two calls is an
    interleaving of their sections. *)
Inductive Caller :=
| Entering                     (** before the first check *)
| Missed                       (** past a failed first check *)
| Returned (r : result string).

Definition advance (instanceID : string) (c : Caller) (w : World)
  : option (Caller * World) :=
  match c with
  | Entering =>
      let '(hit, w) := cachedToken instanceID w in
      Some (match hit with Some token => Returned (Ok token) | None => Missed end, w)
  | Missed =>
      let '(r, w) := refreshToken instanceID w in
      Some (Returned r, w)
  | Returned _ => None
  end.

(** [false] moves the first caller, [true] the second. *)
Fixpoint runCallers (instanceID : string) (sched : list bool)
         (a b : Caller) (w : World) : option (Caller * Caller * World) :=
  match sched with
  | [] => Some (a, b, w)
  | false :: sched =>
      '(a, w) ← advance instanceID a w; runCallers instanceID sched a b w
  | true :: sched =>
      '(b, w) ← advance instanceID b w; runCallers instanceID sched a b w
  end.

Definition is_acquire (c : Call) : bool :=
  match c with CallAcquireToken _ => true | _ => false end.

(** The number of remote token acquisitions in a record of calls. *)
Definition acquisitions (cs : list Call) : nat :=
  length (filter (λ c, is_acquire c = true) cs).

(** The outside calls a caller can still make: a clock reading at the
    first check; a clock reading, the acquisition and a clock reading in
    the locked part. *)
Definition callsLeft (c : Caller) : nat :=
  match c with
  | Entering => 4
  | Missed => 3
  | Returned _ => 0
  end.

(** Between the positions [lo] and [hi] of the record of calls, every
    acquisition for [instanceID] succeeds and the expiry stored with it
    stays more than thirty seconds ahead of every clock reading. *)
Definition long_lived (instanceID : string) (lo hi : nat) : Prop :=
  ∀ t, (lo <= t < hi)%nat →
    ∃ body token,
      client_AcquireSandboxInstanceToken env t instanceID = AcquireOk (Some body) ∧
      ab_Token body = Some token ∧
      ∀ tn tc, (lo <= tn < hi)%nat → (lo <= tc < hi)%nat →
        usable (time_Now env tc)
               (mkTokenCache token (storedExpiry body (time_Now env tn))) = true.

(** The cache holds [token] for [instanceID] with an expiry that every
    clock reading between [lo] and [hi] finds more than thirty seconds
    ahead. *)
Definition settled (instanceID : string) (lo hi : nat) (token : string) (w : World) : Prop :=
  ∃ c, tm_cache w !! instanceID = Some c ∧ tc_token c = token ∧
       ∀ t, (lo <= t < hi)%nat → usable (time_Now env t) c = true.

(** A caller that has not returned anything but [token]. *)
Definition awaits (token : string) (c : Caller) : Prop :=
  c = Entering ∨ c = Missed ∨ c = Returned (Ok token).

(** The states two callers on a cold cache pass through: before the
    first acquisition nobody has returned; after it the cache is settled
    and whoever returned holds its token. *)
Definition single_fetch (instanceID : string) (lo hi n0 : nat)
           (a b : Caller) (w : World) : Prop :=
  (lo <= length (calls w))%nat ∧
  (length (calls w) + callsLeft a + callsLeft b <= hi)%nat ∧
  ((tm_cache w !! instanceID = None ∧ acquisitions (calls w) = n0 ∧
    (a = Entering ∨ a = Missed) ∧ (b = Entering ∨ b = Missed)) ∨
   (∃ token, settled instanceID lo hi token w ∧ acquisitions (calls w) = S n0 ∧
             awaits token a ∧ awaits token b)).

End TokenManager.

(** ** Image pre-cacher: the retry loop *)

Record failedTask := mkFailedTask {
  imageRef : string;
  retryCount : Z
}.

(** What a retry round does with one drained task. *)
Inductive RetryAction :=
| GaveUp (task : failedTask)            (** logged, not submitted *)
| Resubmitted (imageRef : string) (retryCount : Z).  (** [submitTask] *)

Record RetryRound := mkRetryRound {
  rr_round : Z;
  rr_tasks : list failedTask;          (** what the drain took *)
  rr_actions : list RetryAction
}.

Section Precacher.

(** [finished r submitted] lists the tasks of round [r] whose warming
    failed, in the order they finished: after [wg.Wait()] these are the
    retry queue, each with the retry count it was submitted with. *)
Variable finished : Z → list failedTask → list failedTask.

Definition effectiveMaxRetries (cfg_MaxRetries : Z) : Z :=
  if cfg_MaxRetries <=? 0 then 3 else cfg_MaxRetries.

(** [addFailedTask]. *)
Definition addFailedTask (ref : string) (count : Z) (failedQueue : list failedTask)
  : list failedTask := failedQueue ++ [mkFailedTask ref count].

(** Every task that failed puts itself back with [addFailedTask]. *)
Definition requeue (failed : list failedTask) (failedQueue : list failedTask)
  : list failedTask :=
  foldl (λ q task, addFailedTask (imageRef task) (retryCount task) q) failedQueue failed.

(** The [for _, task := range tasks] loop of one round.  The count
    cannot leave the integer range: it is below [maxRetries] where it
    is incremented. *)
Definition retryAction (maxRetries : Z) (task : failedTask) : RetryAction :=
  if maxRetries <=? retryCount task then GaveUp task
  else Resubmitted (imageRef task) (retryCount task + 1).

Definition submitted (actions : list RetryAction) : list failedTask :=
  omap (λ a, match a with
             | Resubmitted ref count => Some (mkFailedTask ref count)
             | GaveUp _ => None
             end) actions.

(** [processRetries], from round [round] on, with the retry queue as
    state.  [fuel] bounds the number of rounds; [None] means it ran out. *)
Fixpoint retryLoop (fuel : nat) (maxRetries round : Z) (failedQueue : list failedTask)
  : option (list RetryRound * list failedTask) :=
  match fuel with
  | O => None
  | S fuel =>
      match failedQueue with
      | [] => Some ([], [])
      | _ =>
          let tasks := failedQueue in
          let failedQueue := [] in
          let actions := retryAction maxRetries <$> tasks in
          let failedQueue := requeue (finished round (submitted actions)) failedQueue in
          '(rounds, final) ← retryLoop fuel maxRetries (round + 1) failedQueue;
          Some (mkRetryRound round tasks actions :: rounds, final)
      end
  end.

Definition processRetries (fuel : nat) (cfg_MaxRetries : Z) (failedQueue : list failedTask)
  : option (list RetryRound * list failedTask) :=
  retryLoop fuel (effectiveMaxRetries cfg_MaxRetries) 1 failedQueue.

(** Rounds still possible for a queue: the retries left to its tasks. *)
Definition retriesLeft (maxRetries : Z) (task : failedTask) : nat :=
  Z.to_nat (maxRetries - retryCount task).

Definition roundsLeft (maxRetries : Z) (failedQueue : list failedTask) : nat :=
  foldr (λ task n, Nat.max (S (retriesLeft maxRetries task)) n) 0%nat failedQueue.

Definition gaveUp (actions : list RetryAction) : list failedTask :=
  omap (λ a, match a with
             | GaveUp task => Some task
             | Resubmitted _ _ => None
             end) actions.

(** The tasks a round may still retry, and those it must give up. *)
Definition retryable (maxRetries : Z) (tasks : list failedTask) : list failedTask :=
  filter (λ task, retryCount task < maxRetries) tasks.

Definition exhausted (maxRetries : Z) (tasks : list failedTask) : list failedTask :=
  filter (λ task, maxRetries <= retryCount task) tasks.

Definition nextAttempt (task : failedTask) : failedTask :=
  mkFailedTask (imageRef task) (retryCount task + 1).

(** [rounds] is a course of the retry loop from round number [round] and
    the queue [failedQueue]: each round drains the whole queue, which is
    not empty; gives up the exhausted tasks; submits the others, in order,
    with one more retry; leaves as the next queue the tasks that then
    failed; and the course ends where the drained queue is empty. *)
Fixpoint retryCourse (maxRetries round : Z) (failedQueue : list failedTask)
         (rounds : list RetryRound) : Prop :=
  match rounds with
  | [] => failedQueue = []
  | rd :: rounds =>
      failedQueue ≠ [] ∧
      rr_round rd = round ∧
      rr_tasks rd = failedQueue ∧
      gaveUp (rr_actions rd) = exhausted maxRetries failedQueue ∧
      submitted (rr_actions rd) = nextAttempt <$> retryable maxRetries failedQueue ∧
      retryCourse maxRetries (round + 1) (finished round (submitted (rr_actions rd))) rounds
  end.

End Precacher.

(** ** Reading a start response *)

(** The instance identifier of a start response: the non-empty string at
    [Data.Instance.InstanceId], when there is one. *)
Definition instanceIdOf (resp : ControlPlaneResponse) : option string :=
  match cpr_Data resp !! "Instance" with
  | Some (AMap instance) =>
      match instance !! "InstanceId" with
      | Some (AStr instanceId) => if String.eqb instanceId "" then None else Some instanceId
      | _ => None
      end
  | _ => None
  end.

(** ** Sample environments

    Environments that answer every call the same way, to run the
    definitions on. *)
Definition startedResponse (instanceId : any) : ControlPlaneResponse :=
  {| cpr_Success := true;
     cpr_Data := {[ "Instance" := AMap {[ "InstanceId" := instanceId ]} ]};
     cpr_Error := ""; cpr_RequestID := "req-1"; cpr_TimingMs := 12 |}.

Definition failedResponse (err : string) : ControlPlaneResponse :=
  {| cpr_Success := false; cpr_Data := ∅; cpr_Error := err;
     cpr_RequestID := ""; cpr_TimingMs := 12 |}.

Definition stoppedResponse : ControlPlaneResponse :=
  {| cpr_Success := true; cpr_Data := ∅; cpr_Error := "";
     cpr_RequestID := "req-2"; cpr_TimingMs := 9 |}.

Definition commandEcho (command : string) : Shell2HttpResponse :=
  {| s2h_Success := true; s2h_ExitCode := 0; s2h_Output := command;
     s2h_Error := ""; s2h_DurationMs := 1; s2h_Timeout := false; s2h_TimingMs := 2 |}.

Definition sampleEnv (u : Q) (answer : option string)
           (started : ControlPlaneResponse) (acquired : AcquireResult) : Env :=
  {| rand_Float64 := λ _, u;
     time_Now := λ t, Z.of_nat t * second;
     pool_Submit := λ _, answer;
     ags_StartSandboxInstance := λ _ _, started;
     ags_StopSandboxInstance := λ _ _, stoppedResponse;
     ags_ExecShell2Http := λ _ _ _ command _, commandEcho command;
     client_AcquireSandboxInstanceToken := λ _ _, acquired;
     time_Parse := λ _, None;
     json_Marshal := λ _, Ok "{}";
     json_Unmarshal := λ _ cfg, Ok cfg |}.

(** ** The executor's ledger

    What becomes of each [Submit]: the pool takes its closure or refuses
    it, and a closure that was taken buffers its result and then
    subtracts one from the counter. *)

Section ExecutorLedger.

Context {T F : Type}.

(** The pool's answer to a [Submit] that has reached it. *)
Definition is_accept (ev : Event T F) : bool :=
  match ev with EvSubmitPool _ None => true | _ => false end.

Definition is_refusal (ev : Event T F) : bool :=
  match ev with EvSubmitPool _ (Some _) => true | _ => false end.

(** The work still under way: the [Submit] calls between the counter and
    the pool, the closures waiting or running in the pool, and those that
    have buffered a result and not yet subtracted. *)
Definition inFlight (s : System T F) : Z :=
  Z.of_nat (length (sys_submitting s))
  + Z.of_nat (length (default [] (pool (sys_exec s))))
  + Z.of_nat (sys_finishing s).

(** Nothing is under way. *)
Definition idle (s : System T F) : Prop :=
  sys_submitting s = [] ∧ default [] (pool (sys_exec s)) = [] ∧ sys_finishing s = 0%nat.

(** After [n] counted submissions of which the pool took [a] and refused
    [r], and [b] appends. *)
Definition ledger (s : System T F) (n a r b : Z) : Prop :=
  Z.of_nat (length (sys_submitting s)) = n - a - r ∧
  Z.of_nat (length (default [] (pool (sys_exec s)))) = a - b.

End ExecutorLedger.

(** ** The delay of a submitted task *)

(** Half the spacing of binary64 numbers next to one: the relative error
    of one rounding is at most this. *)
Definition unit_roundoff : Q := 1 # 9007199254740992.

(** ** Stress configurations: what the jitter reads *)

(** The integer fields [applyConfigJitter] passes through [applyJitter],
    in the order it does. *)
Definition jitteredFields (cfg : StressConfig) : list Z :=
  [sc_CPUWorkers cfg; sc_CPULoad cfg; sc_VMWorkers cfg; sc_IOWorkers cfg; sc_Timeout cfg].

(** The random numbers [applyConfigJitter] draws for [cfg]: one for each
    positive field, when the percentage is positive. *)
Definition jitterDraws (cfg : StressConfig) : nat :=
  if sc_Jitter cfg <=? 0 then 0%nat
  else length (filter (λ v, 0 < v) (jitteredFields cfg)).

(** The worker counts and the duration of a configuration. *)
Definition countFields : list (StressConfig → Z) :=
  [sc_CPUWorkers; sc_VMWorkers; sc_IOWorkers; sc_Timeout].

(** The arguments of the stress-ng command, group by group as
    [buildStressNGCommand] appends them. *)
Definition cpuArgs (cfg : StressConfig) : list string :=
  if 0 <? sc_CPUWorkers cfg then
    ["--cpu " +:+ pretty (sc_CPUWorkers cfg)]
    ++ (if (0 <? sc_CPULoad cfg) && (sc_CPULoad cfg <=? 100)
        then ["--cpu-load " +:+ pretty (sc_CPULoad cfg)] else [])
  else [].

Definition vmArgs (cfg : StressConfig) : list string :=
  if 0 <? sc_VMWorkers cfg then
    ["--vm " +:+ pretty (sc_VMWorkers cfg)]
    ++ (if negb (String.eqb (sc_VMBytes cfg) "") then ["--vm-bytes " +:+ sc_VMBytes cfg] else [])
  else [].

Definition ioArgs (cfg : StressConfig) : list string :=
  if 0 <? sc_IOWorkers cfg then ["--io " +:+ pretty (sc_IOWorkers cfg)] else [].

Definition timeoutArgs (cfg : StressConfig) : list string :=
  if 0 <? sc_Timeout cfg then ["--timeout " +:+ pretty (sc_Timeout cfg) +:+ "s"] else [].

Definition stressArgs (cfg : StressConfig) : list string :=
  ["stress-ng"] ++ cpuArgs cfg ++ vmArgs cfg ++ ioArgs cfg ++ timeoutArgs cfg
  ++ ["--metrics-brief"].

(** An environment whose decoder refuses every map but the empty one. *)
Definition pickyEnv : Env :=
  {| rand_Float64 := λ _, 0%Q;
     time_Now := λ t, Z.of_nat t * second;
     pool_Submit := λ _, None;
     ags_StartSandboxInstance := λ _ _, failedResponse "";
     ags_StopSandboxInstance := λ _ _, stoppedResponse;
     ags_ExecShell2Http := λ _ _ _ command _, commandEcho command;
     client_AcquireSandboxInstanceToken := λ _ _, AcquireErr "";
     time_Parse := λ _, None;
     json_Marshal := λ m, if decide (m = ∅) then Ok "{}" else Ok "bad";
     json_Unmarshal := λ s cfg, if String.eqb s "bad" then Err "unexpected type" else Ok cfg |}.

(** ** The token cache as callers see it *)

(** What any computation of the token manager leaves alone, and what it
    may do to the cache: put [token] under [rid], or nothing. *)
Definition cache_step (rid : string) (r : result string) (w w' : World) : Prop :=
  asyncStopExecutor w' = asyncStopExecutor w ∧
  asyncStressExecutor w' = asyncStressExecutor w ∧
  (acquisitions (calls w') <= S (acquisitions (calls w)))%nat ∧
  match r with
  | Ok token =>
      (tm_cache w' = tm_cache w ∧
       ∃ c, tm_cache w !! rid = Some c ∧ tc_token c = token) ∨
      (∃ expiresAt, tm_cache w' = <[rid := mkTokenCache token expiresAt]> (tm_cache w))
  | Err _ => tm_cache w' = tm_cache w
  end.

(** ** The module as its callers drive it *)

(** The readers the module exports for the two process-wide executors. *)
Definition GetAsyncStopPendingCount : M Z :=
  λ w, (GetPendingCount (asyncStopExecutor w), w).

Definition GetAsyncStopResults : M (list (AsyncTaskResult ControlPlaneResponse)) :=
  λ w, let '(rs, e) := GetResults (asyncStopExecutor w) in (rs, set_stop e w).

Definition GetAsyncStressPendingCount : M Z :=
  λ w, (GetPendingCount (asyncStressExecutor w), w).

Definition GetAsyncStressResults
  : M (list (AsyncTaskResult (option Shell2HttpResponse))) :=
  λ w, let '(rs, e) := GetResults (asyncStressExecutor w) in (rs, set_stress e w).

(** What can happen to the process: a call of an exported function, or a
    pool worker running a closure to its end. *)
Inductive Op :=
| OpStartSandboxInstance (params : gmap string any)
| OpStopSandboxInstance (params : gmap string any)
| OpStartSandboxInstanceWithAsyncStop (params : gmap string any) (delaySeconds : Z)
| OpGetAsyncStopPendingCount
| OpGetAsyncStopResults
| OpExecShell2Http (instanceID port command : string) (timeout : Z)
| OpRunAsyncStress (instanceID port : string) (delaySeconds : Z)
    (configs : list (option (gmap string any)))
| OpGetAsyncStressPendingCount
| OpGetAsyncStressResults
| OpWorker (pk : Pick).

Section Driver.

Variable env : Env.

(** The world after one operation; [None] when a worker is told to run a
    closure that is not there. *)
Definition perform (op : Op) (w : World) : option World :=
  match op with
  | OpStartSandboxInstance params => Some (StartSandboxInstance env params w).2
  | OpStopSandboxInstance params => Some (StopSandboxInstance env params w).2
  | OpStartSandboxInstanceWithAsyncStop params delaySeconds =>
      Some (StartSandboxInstanceWithAsyncStop env params delaySeconds w).2
  | OpGetAsyncStopPendingCount => Some (GetAsyncStopPendingCount w).2
  | OpGetAsyncStopResults => Some (GetAsyncStopResults w).2
  | OpExecShell2Http instanceID port command timeout =>
      Some (ExecShell2Http env instanceID port command timeout w).2
  | OpRunAsyncStress instanceID port delaySeconds configs =>
      Some (RunAsyncStress env instanceID port delaySeconds configs w).2
  | OpGetAsyncStressPendingCount => Some (GetAsyncStressPendingCount w).2
  | OpGetAsyncStressResults => Some (GetAsyncStressResults w).2
  | OpWorker pk => worker env pk w
  end.

Fixpoint performAll (ops : list Op) (w : World) : option World :=
  match ops with
  | [] => Some w
  | op :: ops => w1 ← perform op w; performAll ops w1
  end.

End Driver.

(** The counter of an executor against its pool: the closures in the pool
    and [k] more. *)
Definition tallies {T F} (k : Z) (e : AsyncTaskExecutor T F) : Prop :=
  pendingCount e = wrap64 (Z.of_nat (length (default [] (pool e))) + k).

Definition tallied (ks kr : Z) (w : World) : Prop :=
  tallies ks (asyncStopExecutor w) ∧ tallies kr (asyncStressExecutor w).

(** ** The control plane, statement by statement

    [StartSandboxInstance] and [StopSandboxInstance] were one outside
    call above.  Here their bodies are followed: the guard on the
    client, the encoding of the parameters, the SDK call between two
    clock readings, and the decoding of the answer. *)

(** [time.Since(start)]: the difference of two readings, kept within the
    range of a [Duration]; and [Duration.Milliseconds]. *)
Definition since (start now : Z) : Z :=
  Z.max (- 2 ^ 63) (Z.min (2 ^ 63 - 1) (now - start)).

Definition milliseconds (d : Z) : Z := Z.quot d 1000000.

(** What an SDK call returns: an error, with its text and the name of its
    dynamic type, or a response pointer, which may be [nil] and whose
    [Response] field may be [nil]. *)
Inductive SdkResult (Body : Type) :=
| SdkErr (text typeName : string)
| SdkOk (sdkResp : option (option Body)).
Arguments SdkErr {Body}.
Arguments SdkOk {Body}.

(** The client and the codec: [Request] is the SDK's request structure,
    [Body] the [Response] structure inside its answer. *)
Record Sdk (Request Body : Type) := mkSdk {
  sdk_client : bool;  (** [m.client != nil] *)
  sdk_Marshal : gmap string any → result string;  (** [json.Marshal(params)] *)
  sdk_UnmarshalRequest : string → result Request;  (** [json.Unmarshal(data, request)] *)
  sdk_StartSandboxInstance : nat → Request → SdkResult Body;
  sdk_StopSandboxInstance : nat → Request → SdkResult Body;
  sdk_RequestId : Body → option string;
  sdk_MarshalResponse : option Body → result string;
    (** [json.Marshal(sdkResp.Response)] *)
  sdk_UnmarshalMap : string → result (gmap string any)
    (** [json.Unmarshal(respData, &dataMap)] *)
}.
Arguments sdk_client {Request Body}.
Arguments sdk_Marshal {Request Body}.
Arguments sdk_UnmarshalRequest {Request Body}.
Arguments sdk_StartSandboxInstance {Request Body}.
Arguments sdk_StopSandboxInstance {Request Body}.
Arguments sdk_RequestId {Request Body}.
Arguments sdk_MarshalResponse {Request Body}.
Arguments sdk_UnmarshalMap {Request Body}.

Module ControlPlane.

Section Calls.

Context {Request Body : Type}.
Variable env : Env.
Variable sdk : Sdk Request Body.

(** The response under construction, with its error and timing set. *)
Definition failed (requestID err : string) (timingMs : Z) : ControlPlaneResponse :=
  {| cpr_Success := false; cpr_Data := ∅; cpr_Error := err;
     cpr_RequestID := requestID; cpr_TimingMs := timingMs |}.

(** The early returns: the error, and the time since the function began. *)
Definition giveUp (start : Z) (err : string) : M ControlPlaneResponse :=
  now <~ timeNow env ;;
  ret (failed "" err (milliseconds (since start now))).

(** The tail both functions share: encode the [Response] structure and
    decode it into a map. *)
Definition decodeResponse (response : option Body) (requestID : string) (timingMs : Z)
  : ControlPlaneResponse :=
  match sdk_MarshalResponse sdk response with
  | Err e => failed requestID ("failed to marshal response: " +:+ e) timingMs
  | Ok respData =>
      match sdk_UnmarshalMap sdk respData with
      | Err e => failed requestID ("failed to unmarshal response to map: " +:+ e) timingMs
      | Ok dataMap =>
          {| cpr_Success := true; cpr_Data := dataMap; cpr_Error := "";
             cpr_RequestID := requestID; cpr_TimingMs := timingMs |}
      end
  end.

Definition StartSandboxInstance (params : gmap string any) : M ControlPlaneResponse :=
  start <~ timeNow env ;;
  if negb (sdk_client sdk) then giveUp start "client not initialized"
  else
    match sdk_Marshal sdk params with
    | Err e => giveUp start ("failed to marshal params: " +:+ e)
    | Ok data =>
        match sdk_UnmarshalRequest sdk data with
        | Err e => giveUp start ("failed to unmarshal to request: " +:+ e)
        | Ok request =>
            start <~ timeNow env ;;
            sdkResp <~ call (CallStartSandboxInstance params)
                         (λ t, sdk_StartSandboxInstance sdk t request) ;;
            now <~ timeNow env ;;
            let timingMs := milliseconds (since start now) in
            match sdkResp with
            | SdkErr text typeName =>
                ret (failed "" (if String.eqb text "" then "unknown error: " +:+ typeName
                                else text) timingMs)
            | SdkOk None | SdkOk (Some None) =>
                ret (failed "" "empty response from API" timingMs)
            | SdkOk (Some (Some response)) =>
                ret (decodeResponse (Some response)
                       (default "" (sdk_RequestId sdk response)) timingMs)
            end
        end
    end.

(** [StopSandboxInstance] reads [sdkResp.Response] without asking whether
    [sdkResp] is [nil]: [None] is the panic of that dereference. *)
Definition StopSandboxInstance (params : gmap string any)
  : M (option ControlPlaneResponse) :=
  start <~ timeNow env ;;
  if negb (sdk_client sdk) then
    resp <~ giveUp start "client not initialized" ;; ret (Some resp)
  else
    match sdk_Marshal sdk params with
    | Err e => resp <~ giveUp start ("failed to marshal params: " +:+ e) ;; ret (Some resp)
    | Ok data =>
        match sdk_UnmarshalRequest sdk data with
        | Err e =>
            resp <~ giveUp start ("failed to unmarshal to request: " +:+ e) ;; ret (Some resp)
        | Ok request =>
            start <~ timeNow env ;;
            sdkResp <~ call (CallStopSandboxInstance params)
                         (λ t, sdk_StopSandboxInstance sdk t request) ;;
            now <~ timeNow env ;;
            let timingMs := milliseconds (since start now) in
            match sdkResp with
            | SdkErr text _ => ret (Some (failed "" text timingMs))
            | SdkOk None => ret None
            | SdkOk (Some response) =>
                let requestID :=
                  match response with
                  | Some body => default "" (sdk_RequestId sdk body)
                  | None => ""
                  end in
                ret (Some (decodeResponse response requestID timingMs))
            end
        end
    end.

(** The SDK is reached: there is a client and the parameters go through
    the codec. *)
Definition reachesSdk (params : gmap string any) : Prop :=
  sdk_client sdk = true ∧
  ∃ data request, sdk_Marshal sdk params = Ok data ∧
                  sdk_UnmarshalRequest sdk data = Ok request.

End Calls.

End ControlPlane.

(** A client whose start call fails without a text, to run the
    definitions on. *)
Definition silentSdk : Sdk string unit :=
  {| sdk_client := true;
     sdk_Marshal := λ _, Ok "{}";
     sdk_UnmarshalRequest := λ s, Ok s;
     sdk_StartSandboxInstance := λ _ _, SdkErr "" "*errors.errorString";
     sdk_StopSandboxInstance := λ _ _, SdkErr "" "*errors.errorString";
     sdk_RequestId := λ _, None;
     sdk_MarshalResponse := λ _, Ok "null";
     sdk_UnmarshalMap := λ _, Ok ∅ |}.

(** ** The data plane, statement by statement

    Requests to a sandbox: the address, the access token, the exchange
    with the HTTP client, and on top of them the command service. *)

(** [Response], as the module returns it. *)
Record Response := mkResponse {
  rsp_Status : Z;
  rsp_Body : string;
  rsp_Headers : gmap string string;
  rsp_Error : string;
  rsp_RemoteIP : string;
  rsp_TimingMs : Q
}.

(** A request as it is handed to [client.Do]: the body reader is [nil]
    for an empty body, and [hr_timeout] is the client's timeout. *)
Record HttpRequest := mkHttpRequest {
  hr_method : string;
  hr_url : string;
  hr_body : option string;
  hr_header : gmap string string;
  hr_timeout : Z
}.

(** What [client.Do] and the reading of the body give. *)
Inductive HttpResult :=
| HttpErr (text : string)
| HttpOk (status : Z) (header : gmap string (list string)) (body : result string).

(** The fields of the module instance that the data plane reads. *)
Record AGS := mkAGS {
  m_region : string;
  m_dataPlaneDomainSuffix : string
}.

(** The libraries underneath. *)
Record Http := mkHttp {
  url_Parse : string → option string;  (** the error of [url.Parse], if any *)
  http_NewRequest : string → string → option string;
    (** the error of [http.NewRequest(method, url, body)], if any *)
  http_CanonicalHeaderKey : string → string;  (** the key [Header.Set] stores under *)
  http_Do : nat → HttpRequest → HttpResult;
  json_UnmarshalShell2Http : string → Shell2HttpResponse → Shell2HttpResponse * option string
    (** [json.Unmarshal(body, resp)]: the structure as the decoder leaves
        it, and its error *)
}.

Module DataPlane.

Section Wire.

Variable env : Env.
Variable m : AGS.
Variable http : Http.

Definition normalPath (path : string) : string :=
  if String.prefix "/" path then path else "/" +:+ path.

Definition buildURL (instanceID port path : string) : result string :=
  let path := normalPath path in
  let rawURL := "https://" +:+ port +:+ "-" +:+ instanceID +:+ "." +:+ m_region m
                +:+ "." +:+ m_dataPlaneDomainSuffix m +:+ path in
  match url_Parse http rawURL with
  | Some err => Err ("invalid URL: " +:+ err)
  | None => Ok rawURL
  end.

(** [&Response{Headers: make(map[string]string)}] with its error set. *)
Definition refused (err : string) : Response :=
  {| rsp_Status := 0; rsp_Body := ""; rsp_Headers := ∅; rsp_Error := err;
     rsp_RemoteIP := ""; rsp_TimingMs := 0 |}.

(** The header of the request: the token first, then the caller's
    entries in the order the [range] over the map visits them. *)
Definition requestHeader (token : string) (headers : list (string * string))
  : gmap string string :=
  foldl (λ h kv, <[http_CanonicalHeaderKey http kv.1 := kv.2]> h)
        {[ http_CanonicalHeaderKey http "X-Access-Token" := token ]} headers.

(** [doRequestWithTimeout]: the response, and the request that went to
    the client when one did. *)
Definition doRequestWithTimeout (method instanceID port path body : string)
           (headers : list (string * string)) (timeout : Z)
  : M (Response * option HttpRequest) :=
  start <~ timeNow env ;;
  token <~ getToken env instanceID ;;
  match token with
  | Err e => ret (refused e, None)
  | Ok token =>
      match buildURL instanceID port path with
      | Err e => ret (refused e, None)
      | Ok fullURL =>
          let bodyReader := if String.eqb body "" then None else Some body in
          match http_NewRequest http method fullURL with
          | Some e => ret (refused e, None)
          | None =>
              let req := mkHttpRequest method fullURL bodyReader
                           (requestHeader token headers) timeout in
              httpResp <~ (λ w, (http_Do http (length (calls w)) req, w)) ;;
              match httpResp with
              | HttpErr e => ret (refused e, Some req)
              | HttpOk status header body =>
                  now <~ timeNow env ;;
                  let timingMs := F64.of_int (milliseconds (since start now)) in
                  match body with
                  | Err e =>
                      ret ({| rsp_Status := status; rsp_Body := "";
                              rsp_Headers := omap head header; rsp_Error := e;
                              rsp_RemoteIP := ""; rsp_TimingMs := timingMs |}, Some req)
                  | Ok bodyBytes =>
                      ret ({| rsp_Status := status; rsp_Body := bodyBytes;
                              rsp_Headers := omap head header; rsp_Error := "";
                              rsp_RemoteIP := ""; rsp_TimingMs := timingMs |}, Some req)
                  end
              end
          end
      end
  end.

Definition doRequest (method instanceID port path body : string)
           (headers : list (string * string)) : M (Response * option HttpRequest) :=
  doRequestWithTimeout method instanceID port path body headers (30 * second).

Definition Get (instanceID port path : string) (headers : list (string * string)) :=
  doRequest "GET" instanceID port path "" headers.

Definition Post (instanceID port path body : string) (headers : list (string * string)) :=
  doRequest "POST" instanceID port path body headers.

Definition Put (instanceID port path body : string) (headers : list (string * string)) :=
  doRequest "PUT" instanceID port path body headers.

Definition Delete (instanceID port path : string) (headers : list (string * string)) :=
  doRequest "DELETE" instanceID port path "" headers.

Definition Patch (instanceID port path body : string) (headers : list (string * string)) :=
  doRequest "PATCH" instanceID port path body headers.

(** *** The command service *)

(** [&Shell2HttpResponse{}] with its error and timing set. *)
Definition unanswered (err : string) (timingMs : Z) : Shell2HttpResponse :=
  {| s2h_Success := false; s2h_ExitCode := 0; s2h_Output := ""; s2h_Error := err;
     s2h_DurationMs := 0; s2h_Timeout := false; s2h_TimingMs := timingMs |}.

Definition set_Error (err : string) (resp : Shell2HttpResponse) : Shell2HttpResponse :=
  {| s2h_Success := s2h_Success resp; s2h_ExitCode := s2h_ExitCode resp;
     s2h_Output := s2h_Output resp; s2h_Error := err;
     s2h_DurationMs := s2h_DurationMs resp; s2h_Timeout := s2h_Timeout resp;
     s2h_TimingMs := s2h_TimingMs resp |}.

(** The body of the request: the command, the timeout when positive, and
    from the first options map the environment when it is there and not
    [nil], and the working directory when it is a non-empty string. *)
Definition execBody (command : string) (timeout : Z)
           (options : list (option (gmap string any))) : gmap string any :=
  let reqBody : gmap string any := {[ "command" := AStr command ]} in
  let reqBody :=
    if 0 <? timeout then <[ "timeout" := ANum (inject_Z timeout) ]> reqBody else reqBody in
  match options with
  | Some opts :: _ =>
      let reqBody :=
        match opts !! "env" with
        | Some ANil | None => reqBody
        | Some v => <[ "env" := v ]> reqBody
        end in
      match opts !! "workdir" with
      | Some (AStr workdir) =>
          if String.eqb workdir "" then reqBody else <[ "workdir" := AStr workdir ]> reqBody
      | _ => reqBody
      end
  | _ => reqBody
  end.

(** The deadline of the exchange: thirty seconds more than the command's
    timeout, computed in 64-bit nanoseconds, and at least a minute. *)
Definition httpTimeout (timeout : Z) : Z :=
  let t := wrap64 (wrap64 (timeout + 30) * second) in
  if t <? 60 * second then 60 * second else t.

Definition ExecShell2Http (instanceID port command : string) (timeout : Z)
           (options : list (option (gmap string any)))
  : M (Shell2HttpResponse * option HttpRequest) :=
  start <~ timeNow env ;;
  let port := if String.eqb port "" then "8080" else port in
  match json_Marshal env (execBody command timeout options) with
  | Err e =>
      now <~ timeNow env ;;
      ret (unanswered ("failed to marshal request: " +:+ e) (milliseconds (since start now)),
           None)
  | Ok bodyBytes =>
      answer <~ doRequestWithTimeout "POST" instanceID port "/exec" bodyBytes
                  [("Content-Type", "application/json")] (httpTimeout timeout) ;;
      let '(httpResp, sent) := answer in
      now <~ timeNow env ;;
      let timingMs := milliseconds (since start now) in
      if negb (String.eqb (rsp_Error httpResp) "") then
        ret (unanswered (rsp_Error httpResp) timingMs, sent)
      else if negb (rsp_Status httpResp =? 200) then
        ret (unanswered ("unexpected status code: " +:+ pretty (rsp_Status httpResp)
                         +:+ ", body: " +:+ rsp_Body httpResp) timingMs, sent)
      else
        let '(resp, err) :=
          json_UnmarshalShell2Http http (rsp_Body httpResp) (unanswered "" timingMs) in
        match err with
        | Some e =>
            ret (set_Error ("failed to parse response: " +:+ e +:+ ", body: "
                            +:+ rsp_Body httpResp) resp, sent)
        | None => ret (resp, sent)
        end
  end.

End Wire.

End DataPlane.

(** A network to run the definitions on: every address parses, header
    keys are stored as given, and the service answers 200 with a body the
    decoder reads as a success. *)
Definition sampleAGS : AGS :=
  {| m_region := "ap-guangzhou"; m_dataPlaneDomainSuffix := "tencentags.com" |}.

Definition sampleHttp : Http :=
  {| url_Parse := λ _, None;
     http_NewRequest := λ _ _, None;
     http_CanonicalHeaderKey := λ k, k;
     http_Do := λ _ _, HttpOk 200 ∅ (Ok "{}");
     json_UnmarshalShell2Http := λ _ resp,
       ({| s2h_Success := true; s2h_ExitCode := 0; s2h_Output := "ok"; s2h_Error := "";
           s2h_DurationMs := 5; s2h_Timeout := false; s2h_TimingMs := s2h_TimingMs resp |},
        None) |}.

(** ** The command service inside the sandbox

    The server that answers the [/exec] requests of [ExecShell2Http]. *)

Record ExecRequest := mkExecRequest {
  er_Command : string;
  er_Timeout : Z;
  er_Env : gmap string string;
  er_Workdir : string
}.

Record ExecResponse := mkExecResponse {
  ex_Success : bool;
  ex_ExitCode : Z;
  ex_Output : string;
  ex_Error : string;
  ex_Duration : Z;
  ex_Timeout : bool
}.

Record Server := mkServer {
  defaultTimeout : Z;
  maxTimeout : Z
}.

(** What the server writes back: a plain text with its status, as
    [http.Error] does, or a status and an encoded [ExecResponse]. *)
Inductive Reply :=
| ReplyText (status : Z) (text : string)
| ReplyJSON (status : Z) (resp : ExecResponse).

(** What running the process gave: its combined output, whether the
    deadline of its context had passed, and the error of
    [CombinedOutput] with, for an [ExitError], the exit code. *)
Record RunResult := mkRunResult {
  run_output : string;
  run_deadlineExceeded : bool;
  run_err : option (string * option Z)
}.

(** The working directory as [os.Stat] finds it. *)
Inductive StatResult :=
| StatErr
| StatFile
| StatDir.

(** The text of the 405 reply: an object with the key [error] and the
    value [method not allowed]. *)
Definition quoted (s : string) : string :=
  String (Ascii.ascii_of_nat 34) s +:+ String (Ascii.ascii_of_nat 34) "".

Definition methodNotAllowed : string :=
  "{" +:+ quoted "error" +:+ ":" +:+ quoted "method not allowed" +:+ "}".

Definition replyStatus (r : Reply) : Z :=
  match r with ReplyText status _ | ReplyJSON status _ => status end.

Section CommandService.

(** [os.Getenv] and [strconv.Atoi]. *)
Variable getenv : string → string.
Variable atoi : string → option Z.

(** One timeout of [NewServer]: the variable when it holds a positive
    number, the built-in value otherwise. *)
Definition timeoutFromEnv (variable : string) (builtin : Z) : Z :=
  let v := getenv variable in
  if String.eqb v "" then builtin
  else match atoi v with
       | Some t => if 0 <? t then t else builtin
       | None => builtin
       end.

Definition NewServer : Server :=
  {| defaultTimeout := timeoutFromEnv "DEFAULT_TIMEOUT" 60;
     maxTimeout := timeoutFromEnv "MAX_TIMEOUT" 3600 |}.

(** [shell.Fields], [os.Stat], the process itself and the clock. *)
Variable shell_Fields : string → (string → string) → result (list string).
Variable os_Stat : string → StatResult.
Variable run : list string → string → gmap string string → Z → RunResult.
Variable elapsed : Z.  (** [time.Since(start).Milliseconds()] where it is read *)

Definition failedExec (err : string) (duration : Z) : ExecResponse :=
  {| ex_Success := false; ex_ExitCode := -1; ex_Output := ""; ex_Error := err;
     ex_Duration := duration; ex_Timeout := false |}.

(** [executeCommand]: the response, and the process that was started
    when one was: its arguments, working directory and timeout. *)
Definition executeCommand (command : string) (env : gmap string string)
           (workdir : string) (timeoutSec : Z)
  : ExecResponse * option (list string * string * Z) :=
  let envFunc := λ name, match env !! name with Some v => v | None => getenv name end in
  match shell_Fields command envFunc with
  | Err e => (failedExec ("failed to parse command: " +:+ e) elapsed, None)
  | Ok [] => (failedExec "empty command" elapsed, None)
  | Ok args =>
      let stat := if String.eqb workdir "" then StatDir else os_Stat workdir in
      match stat with
      | StatErr => (failedExec ("workdir does not exist: " +:+ workdir) elapsed, None)
      | StatFile => (failedExec ("workdir is not a directory: " +:+ workdir) elapsed, None)
      | StatDir =>
          let r := run args workdir env timeoutSec in
          let duration := elapsed in
          let started := Some (args, workdir, timeoutSec) in
          if run_deadlineExceeded r then
            ({| ex_Success := false; ex_ExitCode := -1; ex_Output := run_output r;
                ex_Error := "command timed out after " +:+ pretty timeoutSec +:+ " seconds";
                ex_Duration := duration; ex_Timeout := true |}, started)
          else
            match run_err r with
            | Some (text, code) =>
                ({| ex_Success := false; ex_ExitCode := default (-1) code;
                    ex_Output := run_output r; ex_Error := text;
                    ex_Duration := duration; ex_Timeout := false |}, started)
            | None =>
                ({| ex_Success := true; ex_ExitCode := 0; ex_Output := run_output r;
                    ex_Error := ""; ex_Duration := duration; ex_Timeout := false |}, started)
            end
      end
  end.

(** The timeout a request runs under: its own when positive, the
    server's default otherwise, and never more than the maximum. *)
Definition effectiveTimeout (s : Server) (req : ExecRequest) : Z :=
  let timeout := if 0 <? er_Timeout req then er_Timeout req else defaultTimeout s in
  if maxTimeout s <? timeout then maxTimeout s else timeout.

(** [handleExec]: [decoded] is what the decoder made of the body. *)
Definition handleExec (s : Server) (method : string) (decoded : result ExecRequest)
  : Reply * option (list string * string * Z) :=
  if negb (String.eqb method "POST") then
    (ReplyText 405 methodNotAllowed, None)
  else
    match decoded with
    | Err e => (ReplyJSON 400 (mkExecResponse false 0 "" ("invalid json: " +:+ e) 0 false), None)
    | Ok req =>
        if String.eqb (er_Command req) "" then
          (ReplyJSON 400 (mkExecResponse false 0 "" "command is required" 0 false), None)
        else
          let '(resp, started) :=
            executeCommand (er_Command req) (er_Env req) (er_Workdir req)
                           (effectiveTimeout s req) in
          (ReplyJSON 200 resp, started)
    end.

End CommandService.

(** ** The walk through the registry

    The two iterators of the registry client and [processImages], the
    loop of the precacher that ranges over them.  What happens is kept
    as one trace: the calls that leave the process, and what the loop
    body does. *)

Module Tcr.

Record TcrRepositoryInfo := mkRepositoryInfo { Name : option string }.
Record TcrImageInfo := mkImageInfo { ImageVersion : option string }.
Record Registry := mkRegistry { RegistryName : option string }.

(** The [Response] of a list call: the page, whose entries are pointers,
    and [TotalCount], a pointer as well. *)
Record Page (Item : Type) := mkPage {
  pageList : list (option Item);
  TotalCount : option Z
}.
Arguments mkPage {Item}.
Arguments pageList {Item}.
Arguments TotalCount {Item}.

Record DescribeRepositoriesRequest := mkDescribeRepositoriesRequest {
  dr_RegistryId : string;
  dr_NamespaceName : string;
  dr_Offset : Z;
  dr_Limit : Z
}.

Record DescribeImagesRequest := mkDescribeImagesRequest {
  di_RegistryId : string;
  di_NamespaceName : string;
  di_RepositoryName : string;
  di_Offset : Z;
  di_Limit : Z
}.

Definition defaultPageSize : Z := 100.

(** What leaves the process during a walk. *)
Inductive TcrCall :=
| CtxDone                      (** the [select] on [ctx.Done()] *)
| LimiterWait                  (** [rateLimiter.Wait] *)
| DescribeRepositoriesWithContext (req : DescribeRepositoriesRequest)
| DescribeImagesWithContext (req : DescribeImagesRequest)
| DescribeInstancesWithContext (registryIds : list string).

(** One entry of the trace: a call, or something the loop body did. *)
Inductive Event (X : Type) :=
| Called (c : TcrCall)
| Did (x : X).
Arguments Called {X}.
Arguments Did {X}.

(** The answers from outside, by the length of the trace when the
    question is put.  [ctx_Err] is [Some] when the context is done; a
    list call answers with an error, or with a response whose
    [Response] may be [nil]. *)
Record Service := mkService {
  ctx_Err : nat → option string;
  rateLimiter_Wait : nat → option string;
  DescribeRepositories :
    nat → DescribeRepositoriesRequest → result (option (Page TcrRepositoryInfo));
  DescribeImages :
    nat → DescribeImagesRequest → result (option (Page TcrImageInfo));
  DescribeInstances : nat → list string → result (option (list (option Registry)))
}.

(** How a computation ends: with a value, in a panic (a [nil] pointer
    is followed), or not within the rounds it was given. *)
Inductive Outcome (A : Type) :=
| Ret (a : A)
| Panic
| OutOfFuel.
Arguments Ret {A}.
Arguments Panic {A}.
Arguments OutOfFuel {A}.

Definition T (X A : Type) : Type := list (Event X) → Outcome A * list (Event X).

Definition unit {X A} (a : A) : T X A := λ w, (Ret a, w).

Definition panic {X A} : T X A := λ w, (Panic, w).

Definition outOfFuel {X A} : T X A := λ w, (OutOfFuel, w).

Definition andThen {X A B} (m : T X A) (k : A → T X B) : T X B :=
  λ w, match m w with
       | (Ret a, w') => k a w'
       | (Panic, w') => (Panic, w')
       | (OutOfFuel, w') => (OutOfFuel, w')
       end.

Notation "x <~~ m ;; k" := (andThen m (λ x, k))
  (at level 100, m at next level, right associativity).

(** Put a question outside: the call goes on the trace. *)
Definition ask {X A} (c : TcrCall) (answer : nat → A) : T X A :=
  λ w, (Ret (answer (length w)), w ++ [Called c]).

Definition did {X} (x : X) : T X () := λ w, (Ret (), w ++ [Did x]).

Section Iterators.

Context {X : Type}.
Variable env : Service.

Section Pages.

(** What the two iterators differ in: the entries, the request for an
    offset, and the call that takes it. *)
Context {Item Req : Type}.
Variable request : Z → Req.
Variable called : Req → TcrCall.
Variable describe : nat → Req → result (option (Page Item)).

(** The loop body, as the iterator sees it: [false] when the body left
    the loop. *)
Variable yield : option Item → option string → T X bool.

(** The [for ... range] over one page; [false] as soon as [yield] is. *)
Fixpoint yieldEach (entries : list (option Item)) : T X bool :=
  match entries with
  | [] => unit true
  | entry :: rest =>
      go <~~ yield entry None ;;
      if go then yieldEach rest else unit false
  end.

(** The iterator from [offset] on, [fuel] pages at most.  Its value is
    whether the body was still in the loop at the end: [false] when a
    [yield] returned [false]. *)
Fixpoint pagesFrom (fuel : nat) (offset : Z) : T X bool :=
  match fuel with
  | O => outOfFuel
  | S fuel =>
      done <~~ ask CtxDone (ctx_Err env) ;;
      match done with
      | Some err => yield None (Some err)
      | None =>
          let req := request offset in
          waited <~~ ask LimiterWait (rateLimiter_Wait env) ;;
          match waited with
          | Some err => yield None (Some err)
          | None =>
              resp <~~ ask (called req) (λ t, describe t req) ;;
              match resp with
              | Err err => yield None (Some err)
              | Ok None => panic
              | Ok (Some response) =>
                  go <~~ yieldEach (pageList response) ;;
                  if negb go then unit false
                  else
                    match TotalCount response with
                    | None => unit true
                    | Some total =>
                        if total <=? wrap64 (offset * defaultPageSize) then unit true
                        else pagesFrom fuel (wrap64 (offset + 1))
                    end
              end
          end
      end
  end.

End Pages.

Definition Repositories (registryID namespace : string)
           (yield : option TcrRepositoryInfo → option string → T X bool) (fuel : nat)
  : T X bool :=
  pagesFrom (λ offset, mkDescribeRepositoriesRequest registryID namespace offset defaultPageSize)
            DescribeRepositoriesWithContext (DescribeRepositories env) yield fuel 1.

Definition RepositoryImages (registryID namespace repository : string)
           (yield : option TcrImageInfo → option string → T X bool) (fuel : nat)
  : T X bool :=
  pagesFrom (λ offset, mkDescribeImagesRequest registryID namespace repository offset
                         defaultPageSize)
            DescribeImagesWithContext (DescribeImages env) yield fuel 1.

(** [DescribeInstance]: the first registry of the answer, [nil] without
    an error when there is none. *)
Definition DescribeInstance (registryID : string) : T X (result (option Registry)) :=
  waited <~~ ask LimiterWait (rateLimiter_Wait env) ;;
  match waited with
  | Some err => unit (Err err)
  | None =>
      resp <~~ ask (DescribeInstancesWithContext [registryID])
                   (λ t, DescribeInstances env t [registryID]) ;;
      match resp with
      | Err err => unit (Err err)
      | Ok None => panic
      | Ok (Some []) => unit (Ok None)
      | Ok (Some (first :: _)) => unit (Ok first)
      end
  end.

End Iterators.

(** [strings.TrimPrefix]. *)
Definition TrimPrefix (s prefix : string) : string :=
  if String.prefix prefix s
  then String.substring (String.length prefix) (String.length s - String.length prefix) s
  else s.

(** What the body of [processImages] does. *)
Inductive Step :=
| SlogError (msg : string) (attrs : list (string * string))
| SlogInfo (msg : string) (attrs : list (string * string))
| SubmitTask (imageRef mode : string) (retryCount : Z).

(** How [Run] ends: with its own error, or with that of the display
    after the walk was started in the background for a registry name
    and a mode. *)
Inductive Ran :=
| Refused (err : string)
| Started (registryName mode : string) (display : option string).

Definition ModePrecache : string := "precache".

Section ProcessImages.

Variable env : Service.

(** The fields of the precacher the walk reads; the compiled expression
    is the set of names it matches. *)
Variable cfg_TCRRegistryID cfg_TCRNamespace : string.
Variable imageRegex : option (string → bool).
Variable cfg_Mode : string.
Variable cfg_Concurrency cfg_MaxRetries : Z.

(** [Run] up to the start of the walk; [spinner_Start] is what the
    display returns when it ends. *)
Definition Run (spinner_Start : option string) : T Step Ran :=
  let mode := if String.eqb cfg_Mode "" then ModePrecache else cfg_Mode in
  _ <~~ did (SlogInfo "开始预热任务"
               [("mode", mode); ("registry_id", cfg_TCRRegistryID);
                ("namespace", cfg_TCRNamespace); ("concurrency", pretty cfg_Concurrency);
                ("max_retries", pretty cfg_MaxRetries)]) ;;
  registryInfo <~~ DescribeInstance env cfg_TCRRegistryID ;;
  match registryInfo with
  | Err err => unit (Refused ("获取 TCR 实例信息失败: " +:+ err))
  | Ok info =>
      match info ≫= RegistryName with
      | None => panic
      | Some registryName => unit (Started registryName mode spinner_Start)
      end
  end.

Definition fullImageNameOf (registryName repoName version : string) : string :=
  registryName +:+ ".tencentcloudcr.com/" +:+ cfg_TCRNamespace +:+ "/" +:+ repoName
  +:+ ":" +:+ version.

(** The body of the inner loop. *)
Definition imageBody (registryName mode repoName : string)
           (image : option TcrImageInfo) (err : option string) : T Step bool :=
  match err with
  | Some e =>
      _ <~~ did (SlogError "遍历仓库镜像失败" [("repo", repoName); ("error", e)]) ;;
      unit false
  | None =>
      match image ≫= ImageVersion with
      | None => panic
      | Some version =>
          let fullImageName := fullImageNameOf registryName repoName version in
          match imageRegex with
          | Some matchString =>
              if negb (matchString fullImageName) then unit true
              else _ <~~ did (SubmitTask fullImageName mode 0) ;; unit true
          | None => _ <~~ did (SubmitTask fullImageName mode 0) ;; unit true
          end
      end
  end.

(** The body of the outer loop: a [return] in the inner loop leaves
    this one too. *)
Definition repoBody (fuel : nat) (registryName mode : string)
           (repo : option TcrRepositoryInfo) (err : option string) : T Step bool :=
  match err with
  | Some e =>
      _ <~~ did (SlogError "遍历镜像仓库失败" [("error", e)]) ;;
      unit false
  | None =>
      match repo ≫= Name with
      | None => panic
      | Some name =>
          let repoName := TrimPrefix name (cfg_TCRNamespace +:+ "/") in
          RepositoryImages env cfg_TCRRegistryID cfg_TCRNamespace repoName
                           (imageBody registryName mode repoName) fuel
      end
  end.

Definition processImages (fuel : nat) (registryName mode : string) : T Step bool :=
  Repositories env cfg_TCRRegistryID cfg_TCRNamespace (repoBody fuel registryName mode) fuel.

End ProcessImages.

(** The tasks submitted along a trace, in order. *)
Definition submissions (w : list (Event Step)) : list (string * string * Z) :=
  omap (λ e, match e with
             | Did (SubmitTask imageRef mode retryCount) => Some (imageRef, mode, retryCount)
             | _ => None
             end) w.

Definition errorLines (w : list (Event Step)) : list string :=
  omap (λ e, match e with Did (SlogError msg _) => Some msg | _ => None end) w.

(** The body of [slices.Collect]: every entry is kept and the loop goes
    on. *)
Definition collect {Item} (entry : option Item) (err : option string)
  : T (option Item * option string) bool :=
  _ <~~ did (entry, err) ;; unit true.

(** The number of pages a listing of [total] entries takes. *)
Definition pagesOf (total : Z) : Z := Z.max 1 ((total + 99) / 100).

(** The trace of a listing that goes through [offsets] undisturbed:
    for each page the three calls, then what the body does with each
    entry. *)
Definition listed {X Item Req} (request : Z → Req) (called : Req → TcrCall)
           (pg : Z → list (option Item))
           (f : option Item → list (Event X) → list (Event X))
           (offsets : list Z) (w : list (Event X)) : list (Event X) :=
  foldl (λ w offset,
           foldl (λ w entry, f entry w)
                 (w ++ [Called CtxDone; Called LimiterWait; Called (called (request offset))])
                 (pg offset))
        w offsets.

Definition matches (imageRegex : option (string → bool)) (name : string) : bool :=
  match imageRegex with
  | Some matchString => matchString name
  | None => true
  end.

(** What [processImages] submits in a registry whose repositories and
    versions are given page by page: the nested loops, without the
    calls. *)
Definition walkSubmissions (namespace registryName mode : string)
           (imageRegex : option (string → bool))
           (repoNames : Z → list string) (totalRepos : Z)
           (versions : string → Z → list string) (totalImages : string → Z)
  : list (string * string * Z) :=
  offset ← seqZ 1 (pagesOf totalRepos);
  name ← repoNames offset;
  let repoName := TrimPrefix name (namespace +:+ "/") in
  imageOffset ← seqZ 1 (pagesOf (totalImages repoName));
  version ← versions repoName imageOffset;
  let fullImageName := fullImageNameOf namespace registryName repoName version in
  if matches imageRegex fullImageName then [(fullImageName, mode, 0)] else [].

(** The trace of an undisturbed listing of the images of one
    repository, with the submissions of the loop body. *)
Definition imagesTrace (registryID namespace registryName mode : string)
           (imageRegex : option (string → bool))
           (versions : string → Z → list string) (totalImages : string → Z)
           (repoName : string) : list (Event Step) :=
  offset ← seqZ 1 (pagesOf (totalImages repoName));
  [Called CtxDone; Called LimiterWait;
   Called (DescribeImagesWithContext
             (mkDescribeImagesRequest registryID namespace repoName offset defaultPageSize))]
  ++ (version ← versions repoName offset;
      let fullImageName := fullImageNameOf namespace registryName repoName version in
      if matches imageRegex fullImageName
      then [Did (SubmitTask fullImageName mode 0)] else []).

(** A submission as [processImages] makes them. *)
Definition firstAttempt (namespace registryName mode : string)
           (imageRegex : option (string → bool)) (s : string * string * Z) : Prop :=
  ∃ repoName version,
    let name := fullImageNameOf namespace registryName repoName version in
    s = (name, mode, 0) ∧ matches imageRegex name = true.

(** A trace while the walk is under way, and when it has left the
    loop. *)
Definition walking (P : string * string * Z → Prop) (w : list (Event Step)) : Prop :=
  errorLines w = [] ∧ Forall P (submissions w).

Definition stopped (P : string * string * Z → Prop) (r : Outcome bool) (w : list (Event Step))
  : Prop :=
  Forall P (submissions w) ∧
  (errorLines w = [] ∨
   (r = Ret false ∧
    ∃ msg attrs, last w = Some (Did (SlogError msg attrs)) ∧ errorLines w = [msg])).

Definition post {X} (I : list (Event X) → Prop) (Q : Outcome bool → list (Event X) → Prop)
           (r : Outcome bool) (w : list (Event X)) : Prop :=
  match r with
  | Ret true => I w
  | _ => Q r w
  end.

(** A registry with [total] repositories, one name on every page, and
    no images. *)
Definition sampleRegistry (total : Z) : Service :=
  {| ctx_Err := λ _, None;
     rateLimiter_Wait := λ _, None;
     DescribeRepositories := λ _ req,
       Ok (Some (mkPage [Some (mkRepositoryInfo (Some ("ns/repo" +:+ pretty (dr_Offset req))))]
                        (Some total)));
     DescribeImages := λ _ req,
       Ok (Some (mkPage [Some (mkImageInfo (Some "v1")); Some (mkImageInfo (Some "v2"))]
                        (Some 2)));
     DescribeInstances := λ _ _, Ok (Some []) |}.

End Tcr.

(** ** One precache task

    The two ways the precacher warms an image, and the polling loops
    they wait in.  A loop is run against the turns its [select] takes:
    the context is done, or the ticker fires and the status is asked
    for. *)

Module Warm.

(** One turn of a [select]: [<-ctx.Done()], with [ctx.Err()], or
    [<-ticker.C], with what the call made then returns. *)
Inductive Select (A : Type) :=
| CtxDone (err : string)
| TickerC (answer : A).
Arguments CtxDone {A}.
Arguments TickerC {A}.

(** How a function ends: it returns its error, or [nil]; it panics; or
    it is still in its [select] when the turns are over. *)
Inductive Outcome :=
| Returns (err : option string)
| Panics
| Blocks.

Record CreatePreCacheImageTaskRequest := mkCreatePreCacheImageTaskRequest {
  cq_Image : string;
  cq_ImageRegistryType : string
}.

Record CreatePreCacheImageTaskResponse := mkCreatePreCacheImageTaskResponse {
  cr_Image : string;
  cr_ImageDigest : string;
  cr_ImageRegistryType : string
}.

Record DescribePreCacheImageTaskRequest := mkDescribePreCacheImageTaskRequest {
  dq_Image : string;
  dq_ImageDigest : option string;
  dq_ImageRegistryType : string
}.

Record DescribePreCacheImageTaskResponse := mkDescribePreCacheImageTaskResponse {
  Status : string;
  Message : string
}.

Record HttpGetAction := mkHttpGetAction {
  Path : string;
  Port : Z;
  Scheme : string
}.

Record ProbeConfiguration := mkProbeConfiguration {
  HttpGet : HttpGetAction;
  ReadyTimeoutMs : Z;
  ProbeTimeoutMs : Z;
  ProbePeriodMs : Z;
  SuccessThreshold : Z;
  FailureThreshold : Z
}.

Record CustomConfiguration := mkCustomConfiguration {
  Image : string;
  ImageRegistryType : string;
  Command : list string;
  CPU : string;
  Memory : string;
  Probe : ProbeConfiguration
}.

Record CreateSandboxToolRequest := mkCreateSandboxToolRequest {
  ToolName : string;
  ToolType : string;
  RoleArn : string;
  NetworkMode : string;
  Custom : CustomConfiguration
}.

(** An entry of [SandboxToolSet]: its [Status] is a pointer. *)
Record SandboxTool := mkSandboxTool { ToolStatus : option string }.

(** What [DescribeSandboxToolList] returns: an error, or a response
    whose [Response] may be [nil] and whose set holds pointers. *)
Definition ToolList : Type := result (option (list (option SandboxTool))).

Record WaitToolActiveOptions := mkWaitToolActiveOptions { PollInterval : Z }.

(** What a task does that can be seen from outside, in order. *)
Inductive Action :=
| WithTimeout (d : Z)
| NewTicker (d : Z)
| CreatePreCacheImageTask (req : CreatePreCacheImageTaskRequest)
| DescribePreCacheImageTask (req : DescribePreCacheImageTaskRequest)
| CreateSandboxTool (req : CreateSandboxToolRequest)
| DescribeSandboxToolList (toolIds : list string) (limit : Z)
| DeleteSandboxTool (toolId : string)
| SlogWarn (msg : string) (attrs : list (string * string))
| SlogInfo (msg : string) (attrs : list (string * string)).

Definition SandboxToolStatusCreating : string := "CREATING".
Definition SandboxToolStatusActive : string := "ACTIVE".
Definition SandboxToolStatusFailed : string := "FAILED".

(** [GetToolStatus]; [None] is the panic of a [nil] pointer. *)
Definition GetToolStatus (toolID : string) (answer : ToolList) : option (result string) :=
  match answer with
  | Err e => Some (Err e)
  | Ok None => None
  | Ok (Some []) => Some (Err ("Tool 不存在: " +:+ toolID))
  | Ok (Some (None :: _)) => None
  | Ok (Some (Some tool :: _)) =>
      match ToolStatus tool with
      | None => None
      | Some status => Some (Ok status)
      end
  end.

(** The loop of [WaitToolActive]. *)
Fixpoint pollTool (toolID : string) (turns : list (Select ToolList)) : Outcome * list Action :=
  match turns with
  | [] => (Blocks, [])
  | CtxDone err :: _ => (Returns (Some ("等待 Tool 就绪被取消: " +:+ err)), [])
  | TickerC answer :: rest =>
      let asked := DescribeSandboxToolList [toolID] 1 in
      match GetToolStatus toolID answer with
      | None => (Panics, [asked])
      | Some (Err e) => (Returns (Some ("查询 Tool 状态失败: " +:+ e)), [asked])
      | Some (Ok status) =>
          if String.eqb status SandboxToolStatusActive then (Returns None, [asked])
          else if String.eqb status SandboxToolStatusCreating then
            let '(o, tr) := pollTool toolID rest in (o, asked :: tr)
          else if String.eqb status SandboxToolStatusFailed then
            (Returns (Some "Tool 创建失败"), [asked])
          else (Returns (Some ("Tool 状态异常: " +:+ status)), [asked])
      end
  end.

Definition WaitToolActive (toolID : string) (opts : option WaitToolActiveOptions)
           (turns : list (Select ToolList)) : Outcome * list Action :=
  let pollInterval :=
    match opts with
    | Some o => if 0 <? PollInterval o then PollInterval o else 2 * second
    | None => 2 * second
    end in
  let '(o, tr) := pollTool toolID turns in
  (o, NewTicker pollInterval :: tr).

(** [strings.ReplaceAll] of the dash, character 45, by nothing. *)
Definition dash : Ascii.ascii := Ascii.ascii_of_nat 45.

Fixpoint withoutDashes (s : string) : string :=
  match s with
  | EmptyString => EmptyString
  | String c rest =>
      if Ascii.eqb c dash then withoutDashes rest else String c (withoutDashes rest)
  end.

Section Precacher.

(** The fields of the precacher a task reads. *)
Variable cfg_ImageRegistryType cfg_RoleArn : string.
Variable pollInterval taskTimeout : Z.

(** The loop of [waitPreCacheComplete]. *)
Fixpoint pollPreCache (req : DescribePreCacheImageTaskRequest)
         (turns : list (Select (result DescribePreCacheImageTaskResponse)))
  : Outcome * list Action :=
  match turns with
  | [] => (Blocks, [])
  | CtxDone err :: _ => (Returns (Some ("等待超时: " +:+ err)), [])
  | TickerC answer :: rest =>
      let asked := DescribePreCacheImageTask req in
      match answer with
      | Err _ => let '(o, tr) := pollPreCache req rest in (o, asked :: tr)
      | Ok resp =>
          if String.eqb (Status resp) "Success" then (Returns None, [asked])
          else if String.eqb (Status resp) "Failed" then
            (Returns (Some ("预热失败: " +:+ Message resp)), [asked])
          else let '(o, tr) := pollPreCache req rest in (o, asked :: tr)
      end
  end.

(** [time.NewTicker] panics on an interval that is not positive. *)
Definition waitPreCacheComplete (imageRef imageDigest registryType : string)
           (turns : list (Select (result DescribePreCacheImageTaskResponse)))
  : Outcome * list Action :=
  if pollInterval <=? 0 then (Panics, [WithTimeout taskTimeout])
  else
    let '(o, tr) :=
      pollPreCache (mkDescribePreCacheImageTaskRequest imageRef (Some imageDigest) registryType)
                   turns in
    (o, WithTimeout taskTimeout :: NewTicker pollInterval :: tr).

Definition precacheViaAPI (imageRef : string)
           (created : result CreatePreCacheImageTaskResponse)
           (turns : list (Select (result DescribePreCacheImageTaskResponse)))
  : Outcome * list Action :=
  let create := CreatePreCacheImageTask (mkCreatePreCacheImageTaskRequest imageRef "enterprise") in
  match created with
  | Err e => (Returns (Some ("创建预热任务失败: " +:+ e)), [create])
  | Ok createResp =>
      let '(o, tr) := waitPreCacheComplete (cr_Image createResp) (cr_ImageDigest createResp)
                        (cr_ImageRegistryType createResp) turns in
      (o, create :: tr)
  end.

(** [cleanupTool]: [deleted] is the error of [DeleteSandboxTool]. *)
Definition cleanupTool (toolID : string) (deleted : option string) : list Action :=
  [DeleteSandboxTool toolID;
   match deleted with
   | Some e => SlogWarn "删除 SandboxTool 失败" [("tool_id", toolID); ("error", e)]
   | None => SlogInfo "删除 SandboxTool 成功" [("tool_id", toolID)]
   end].

Definition sandboxToolRequest (uuid imageRef : string) : CreateSandboxToolRequest :=
  let toolName := "precache-" +:+ withoutDashes uuid in
  let registryType :=
    if String.eqb cfg_ImageRegistryType "" then "enterprise" else cfg_ImageRegistryType in
  {| ToolName := toolName;
     ToolType := "custom";
     RoleArn := cfg_RoleArn;
     NetworkMode := "PUBLIC";
     Custom :=
       {| Image := imageRef;
          ImageRegistryType := registryType;
          Command := ["sleep"];
          CPU := "100m";
          Memory := "256Mi";
          Probe :=
            {| HttpGet := {| Path := "/"; Port := 80; Scheme := "HTTP" |};
               ReadyTimeoutMs := 30000;
               ProbeTimeoutMs := 3000;
               ProbePeriodMs := 10000;
               SuccessThreshold := 1;
               FailureThreshold := 3 |} |} |}.

(** [precacheViaSandboxTool]: [uuid] is what [uuid.NewString] gives,
    [created] the answer to [CreateSandboxTool] with the [ToolId] of its
    [Response], both pointers.  The deferred [cleanupTool] runs when
    the wait returns and when it panics. *)
Definition precacheViaSandboxTool (uuid imageRef : string)
           (created : result (option (option string)))
           (turns : list (Select ToolList)) (deleted : option string)
  : Outcome * list Action :=
  let create := CreateSandboxTool (sandboxToolRequest uuid imageRef) in
  match created with
  | Err e => (Returns (Some ("创建 SandboxTool 失败: " +:+ e)), [create])
  | Ok None | Ok (Some None) => (Panics, [create])
  | Ok (Some (Some toolID)) =>
      let '(o, tr) :=
        WaitToolActive toolID (Some (mkWaitToolActiveOptions pollInterval)) turns in
      match o with
      | Blocks => (Blocks, create :: WithTimeout taskTimeout :: tr)
      | _ => (o, create :: WithTimeout taskTimeout :: tr ++ cleanupTool toolID deleted)
      end
  end.

End Precacher.

(** The turns that leave a loop waiting. *)
Definition undecided (turn : Select (result DescribePreCacheImageTaskResponse)) : bool :=
  match turn with
  | CtxDone _ => false
  | TickerC (Err _) => true
  | TickerC (Ok resp) =>
      negb (String.eqb (Status resp) "Success") && negb (String.eqb (Status resp) "Failed")
  end.

Definition creating (toolID : string) (turn : Select ToolList) : bool :=
  match turn with
  | CtxDone _ => false
  | TickerC answer =>
      match GetToolStatus toolID answer with
      | Some (Ok status) => String.eqb status "CREATING"
      | _ => false
      end
  end.

Definition isDelete (a : Action) : bool :=
  match a with
  | DeleteSandboxTool _ => true
  | _ => false
  end.

End Warm.

(** ** The progress display

    The model behind the precacher's screen: the messages it takes and
    the figures it shows. *)

Module Spinner.

Inductive TaskStatus :=
| TaskStatusPending
| TaskStatusRunning
| TaskStatusSuccess
| TaskStatusFailed.

Definition TaskStatus_eqb (a b : TaskStatus) : bool :=
  match a, b with
  | TaskStatusPending, TaskStatusPending
  | TaskStatusRunning, TaskStatusRunning
  | TaskStatusSuccess, TaskStatusSuccess
  | TaskStatusFailed, TaskStatusFailed => true
  | _, _ => false
  end.

Record Task := mkTask {
  ID : string;
  Name : string;
  Status : TaskStatus;
  Message : string
}.

Record sharedState := mkSharedState {
  tasks : gmap string Task;
  taskOrder : list string;
  completed : Z;
  failed : Z;
  totalAdded : Z
}.

(** What the program sends to [Update]; a key comes as its [String()]. *)
Inductive Msg (TickMsg : Type) :=
| KeyMsg (key : string)
| AddTaskMsg (id name : string)
| UpdateTaskMsg (id : string) (status : TaskStatus) (message : string)
| QuitMsg
| SpinnerTickMsg (tick : TickMsg)
| OtherMsg.
Arguments KeyMsg {TickMsg}.
Arguments AddTaskMsg {TickMsg}.
Arguments UpdateTaskMsg {TickMsg}.
Arguments QuitMsg {TickMsg}.
Arguments SpinnerTickMsg {TickMsg}.
Arguments OtherMsg {TickMsg}.

Inductive Cmd (SpinnerCmd : Type) :=
| CmdNil
| CmdQuit
| CmdSpinner (cmd : SpinnerCmd).
Arguments CmdNil {SpinnerCmd}.
Arguments CmdQuit {SpinnerCmd}.
Arguments CmdSpinner {SpinnerCmd}.

(** One line of the task list, and the screen [View] draws. *)
Inductive Line :=
| LineRunning (name : string)
| LineSuccess (name : string)
| LineFailed (name msg : string)
| LinePending (name : string).

Record Screen := mkScreen {
  shownCompleted : Z;
  shownTotal : Z;
  shownRunning : Z;
  shownFailed : Z;
  shownLines : list Line;
  shownMore : option Z
}.

Inductive Shown :=
| FinalView (completed failed total : Z)
| ProgressView (screen : Screen).

Section Model.

(** The spinner of the bubbles library: its model, its messages and
    commands, and its own [Update]. *)
Context {SpinnerModel TickMsg SpinnerCmd : Type}.
Variable spinner_Update : SpinnerModel → TickMsg → SpinnerModel * SpinnerCmd.

Record Model := mkModel {
  state : sharedState;
  spinner : SpinnerModel;
  quitting : bool
}.

Definition New (s : SpinnerModel) : Model :=
  {| state := {| tasks := ∅; taskOrder := []; completed := 0; failed := 0; totalAdded := 0 |};
     spinner := s;
     quitting := false |}.

Definition Update (m : Model) (msg : Msg TickMsg) : Model * Cmd SpinnerCmd :=
  match msg with
  | KeyMsg key =>
      if String.eqb key "q" || String.eqb key "ctrl+c"
      then ({| state := state m; spinner := spinner m; quitting := true |}, CmdQuit)
      else (m, CmdNil)
  | AddTaskMsg id name =>
      let st := state m in
      match tasks st !! id with
      | Some _ => (m, CmdNil)
      | None =>
          let task := {| ID := id; Name := name; Status := TaskStatusRunning; Message := "" |} in
          ({| state := {| tasks := <[id := task]> (tasks st);
                          taskOrder := taskOrder st ++ [id];
                          completed := completed st;
                          failed := failed st;
                          totalAdded := wrap64 (totalAdded st + 1) |};
              spinner := spinner m;
              quitting := quitting m |}, CmdNil)
      end
  | UpdateTaskMsg id status message =>
      let st := state m in
      match tasks st !! id with
      | Some task =>
          let oldStatus := Status task in
          let task := {| ID := ID task; Name := Name task; Status := status;
                         Message := message |} in
          ({| state := {| tasks := <[id := task]> (tasks st);
                          taskOrder := taskOrder st;
                          completed :=
                            if negb (TaskStatus_eqb oldStatus TaskStatusSuccess)
                               && TaskStatus_eqb status TaskStatusSuccess
                            then wrap64 (completed st + 1) else completed st;
                          failed :=
                            if negb (TaskStatus_eqb oldStatus TaskStatusFailed)
                               && TaskStatus_eqb status TaskStatusFailed
                            then wrap64 (failed st + 1) else failed st;
                          totalAdded := totalAdded st |};
              spinner := spinner m;
              quitting := quitting m |}, CmdNil)
      | None => (m, CmdNil)
      end
  | QuitMsg => ({| state := state m; spinner := spinner m; quitting := true |}, CmdQuit)
  | SpinnerTickMsg tick =>
      let '(s, cmd) := spinner_Update (spinner m) tick in
      ({| state := state m; spinner := s; quitting := quitting m |}, CmdSpinner cmd)
  | OtherMsg => (m, CmdNil)
  end.

(** The line of one task; a failure shows the first 50 bytes of a
    longer message. *)
Definition lineOf (task : Task) : Line :=
  match Status task with
  | TaskStatusRunning => LineRunning (Name task)
  | TaskStatusSuccess => LineSuccess (Name task)
  | TaskStatusFailed =>
      let msg := Message task in
      let msg := if (50 <? String.length msg)%nat
                 then String.substring 0 50 msg +:+ "..." else msg in
      LineFailed (Name task) msg
  | TaskStatusPending => LinePending (Name task)
  end.

Definition View (m : Model) : Shown :=
  let st := state m in
  if quitting m then FinalView (completed st) (failed st) (totalAdded st)
  else
    let total := totalAdded st in
    let running := wrap64 (wrap64 (total - completed st) - failed st) in
    let displayCount := 15%nat in
    let startIdx := if (displayCount <? length (taskOrder st))%nat
                    then (length (taskOrder st) - displayCount)%nat else 0%nat in
    ProgressView
      {| shownCompleted := completed st;
         shownTotal := total;
         shownRunning := running;
         shownFailed := failed st;
         shownLines := omap (λ id, lineOf <$> tasks st !! id) (drop startIdx (taskOrder st));
         shownMore := if (0 <? startIdx)%nat then Some (Z.of_nat startIdx) else None |}.

(** The model after a run of messages. *)
Definition updates (m : Model) (msgs : list (Msg TickMsg)) : Model :=
  foldl (λ m msg, (Update m msg).1) m msgs.

(** The messages of the manager. *)
Definition AddTask (id name : string) : Msg TickMsg := AddTaskMsg id name.
Definition UpdateTask (id : string) (status : TaskStatus) (message : string) : Msg TickMsg :=
  UpdateTaskMsg id status message.
Definition FinishTask (id : string) : Msg TickMsg := UpdateTask id TaskStatusSuccess "".
Definition FailTask (id message : string) : Msg TickMsg := UpdateTask id TaskStatusFailed message.

(** The tasks of a state whose status is as [P] says. *)
Definition tasksWith (P : TaskStatus → bool) (st : sharedState) : list string :=
  List.filter (λ id, match tasks st !! id with
                     | Some task => P (Status task)
                     | None => false
                     end) (taskOrder st).

Definition isAdd (id : string) (msg : Msg TickMsg) : bool :=
  match msg with
  | AddTaskMsg id' _ => String.eqb id' id
  | _ => false
  end.

End Model.

Arguments Model : clear implicits.

Definition unfinished (s : TaskStatus) : bool :=
  negb (TaskStatus_eqb s TaskStatusSuccess) && negb (TaskStatus_eqb s TaskStatusFailed).

Definition succeeded (s : TaskStatus) : bool := TaskStatus_eqb s TaskStatusSuccess.

Definition hasFailed (s : TaskStatus) : bool := TaskStatus_eqb s TaskStatusFailed.

(** The books of a state after at most [n] messages. *)
Definition kept (n : Z) (st : sharedState) : Prop :=
  NoDup (taskOrder st) ∧
  (∀ id, id ∈ taskOrder st ↔ is_Some (tasks st !! id)) ∧
  totalAdded st = Z.of_nat (length (taskOrder st)) ∧
  Z.of_nat (length (tasksWith succeeded st)) <= completed st ∧
  Z.of_nat (length (tasksWith hasFailed st)) <= failed st ∧
  completed st + failed st + totalAdded st <= n.

(** Where the task of [id] has its name from: the first message that
    added it. *)
Definition named {TickMsg} (msgs : list (Msg TickMsg)) (st : sharedState) (id : string)
  : Prop :=
  match tasks st !! id with
  | Some task =>
      ID task = id ∧
      ∃ before name after,
        msgs = before ++ AddTaskMsg id name :: after ∧
        Forall (λ msg, isAdd id msg = false) before ∧
        Name task = name
  | None => Forall (λ msg, isAdd id msg = false) msgs
  end.

(** A model to run the definitions on: the spinner is left out. *)
Definition plainUpdate (s : ()) (tick : ()) : () * () := (s, tick).

End Spinner.

(** * Properties *)

(** ** binary64 rounding

    Two facts carry every bound below: rounding is monotone, and it
    leaves alone the numbers [k * 2^t] whose [k] fits in 53 bits. *)

Module F64Facts.
Import F64.
Local Open Scope Q_scope.

Lemma pow2_pos e : 0 < pow2 e.
Proof. apply Qpower_0_lt. reflexivity. Qed.

Lemma pow2_add a b : pow2 (a + b) == pow2 a * pow2 b.
Proof. apply Qpower_plus. discriminate. Qed.

Lemma pow2_le a b : (a <= b)%Z -> pow2 a <= pow2 b.
Proof. intros H. apply Qpower_le_compat_l; [exact H | discriminate]. Qed.

Lemma pow2_lt a b : (a < b)%Z -> pow2 a < pow2 b.
Proof. intros H. apply Qpower_lt_compat_l; [exact H | reflexivity]. Qed.

Lemma pow2_Z n : (0 <= n)%Z -> pow2 n == inject_Z (2 ^ n).
Proof. intros H. unfold pow2. rewrite Zpower_Qpower by exact H. reflexivity. Qed.

Lemma pow2_sub a b : pow2 (a - b) == pow2 a / pow2 b.
Proof.
  unfold Z.sub. rewrite pow2_add. unfold pow2 at 2. rewrite Qpower_opp. reflexivity.
Qed.

Lemma div_pow2 x a b : x * pow2 a / pow2 b == x * pow2 (a - b).
Proof. rewrite pow2_sub. unfold Qdiv. ring. Qed.


Lemma Qmake_le_mul (A n B : Z) (d : positive) :
  (A * Z.pos d <= n * B)%Z -> inject_Z A <= (n # d) * inject_Z B.
Proof. intros H. unfold Qle, Qmult, inject_Z. cbn. lia. Qed.

Lemma Qmake_lt_mul (A n B : Z) (d : positive) :
  (n * B < A * Z.pos d)%Z -> (n # d) * inject_Z B < inject_Z A.
Proof. intros H. unfold Qlt, Qmult, inject_Z. cbn. lia. Qed.

(** ilog2 brackets its argument *)
Lemma ilog2_spec x : 0 < x -> pow2 (ilog2 x) <= x /\ x < pow2 (ilog2 x + 1).
Proof.
  intros Hx. destruct x as [n d]. 
  assert (Hn : (0 < n)%Z) by (unfold Qlt in Hx; simpl in Hx; lia).
  unfold ilog2. cbn [Qnum Qden].
  set (k := (Z.log2 n - Z.log2 (Z.pos d))%Z).
  destruct (Z.log2_spec n Hn) as [Hn1 Hn2].
  destruct (Z.log2_spec (Z.pos d) ltac:(lia)) as [Hd1 Hd2].
  pose proof (Z.log2_nonneg n) as Ha. pose proof (Z.log2_nonneg (Z.pos d)) as Hb.
  assert (Hlo : pow2 (k - 1) <= n # d).
  { unfold k. replace (Z.log2 n - Z.log2 (Z.pos d) - 1)%Z
      with (Z.log2 n - Z.succ (Z.log2 (Z.pos d)))%Z by lia.
    rewrite pow2_sub, !pow2_Z by lia.
    apply Qle_shift_div_r.
    - rewrite <- (Zlt_Qlt 0). lia.
    - apply Qmake_le_mul. nia. }
  assert (Hhi : n # d < pow2 (k + 1)).
  { unfold k. replace (Z.log2 n - Z.log2 (Z.pos d) + 1)%Z
      with (Z.succ (Z.log2 n) - Z.log2 (Z.pos d))%Z by lia.
    rewrite pow2_sub, !pow2_Z by lia.
    apply Qlt_shift_div_l.
    - rewrite <- (Zlt_Qlt 0). lia.
    - apply Qmake_lt_mul. nia. }
  destruct (Qle_bool (pow2 k) (n # d)) eqn:E.
  - apply Qle_bool_iff in E. split; [exact E | exact Hhi].
  - split; [exact Hlo |]. replace (k - 1 + 1)%Z with k by lia.
    apply Qnot_le_lt. intros H. apply Qle_bool_iff in H. congruence.
Qed.

Lemma ilog2_unique x e : pow2 e <= x -> x < pow2 (e + 1) -> ilog2 x = e.
Proof.
  intros H1 H2.
  assert (Hx : 0 < x) by (eapply Qlt_le_trans; [apply pow2_pos | exact H1]).
  destruct (ilog2_spec x Hx) as [H3 H4].
  destruct (Z.lt_trichotomy (ilog2 x) e) as [Hlt | [Heq | Hgt]]; [| exact Heq |].
  - exfalso. apply (Qlt_irrefl x). eapply Qlt_le_trans; [exact H4 |].
    eapply Qle_trans; [| exact H1]. apply pow2_le. lia.
  - exfalso. apply (Qlt_irrefl x). eapply Qlt_le_trans; [exact H2 |].
    eapply Qle_trans; [| exact H3]. apply pow2_le. lia.
Qed.

Lemma ilog2_mono x y : 0 < x -> x <= y -> (ilog2 x <= ilog2 y)%Z.
Proof.
  intros Hx Hxy.
  assert (Hy : 0 < y) by (eapply Qlt_le_trans; eauto).
  destruct (ilog2_spec x Hx) as [H1 _]. destruct (ilog2_spec y Hy) as [_ H2].
  destruct (Z_le_gt_dec (ilog2 x) (ilog2 y)) as [H | H]; [exact H | exfalso].
  apply (Qlt_irrefl y). eapply Qlt_le_trans; [exact H2 |].
  eapply Qle_trans; [| exact Hxy]. eapply Qle_trans; [| exact H1].
  apply pow2_le. lia.
Qed.

Lemma ilog2_lt x e : 0 < x -> x < pow2 e -> (ilog2 x < e)%Z.
Proof.
  intros Hx H. destruct (ilog2_spec x Hx) as [H1 _].
  destruct (Z_lt_le_dec (ilog2 x) e) as [Hl | Hl]; [exact Hl | exfalso].
  apply (Qlt_irrefl x). eapply Qlt_le_trans; [exact H |].
  eapply Qle_trans; [| exact H1]. apply pow2_le. exact Hl.
Qed.

(** nearest-even rounding to an integer *)
Lemma rnd_half_even_Z z : rnd_half_even (inject_Z z) = z.
Proof.
  unfold rnd_half_even. rewrite Qfloor_Z.
  destruct (Qcompare_spec (inject_Z z - inject_Z z) (1 # 2)) as [H | H | H];
    [exfalso; lra | reflexivity | exfalso; lra].
Qed.

Lemma rnd_half_even_bounds x :
  (Qfloor x <= rnd_half_even x <= Qfloor x + 1)%Z.
Proof.
  unfold rnd_half_even. destruct (Qcompare _ _); [destruct (Z.even _) | |]; lia.
Qed.

Lemma rnd_half_even_mono x y : x <= y -> (rnd_half_even x <= rnd_half_even y)%Z.
Proof.
  intros Hxy. pose proof (Qfloor_resp_le x y Hxy) as Hf.
  destruct (Z.eq_dec (Qfloor x) (Qfloor y)) as [E | NE].
  - unfold rnd_half_even. rewrite <- E.
    destruct (Qcompare_spec (x - inject_Z (Qfloor x)) (1 # 2)) as [Hx | Hx | Hx];
    destruct (Qcompare_spec (y - inject_Z (Qfloor x)) (1 # 2)) as [Hy | Hy | Hy];
      try (destruct (Z.even (Qfloor x))); try lia; exfalso; lra.
  - pose proof (rnd_half_even_bounds x). pose proof (rnd_half_even_bounds y). lia.
Qed.

Lemma rnd_half_even_le_Z x z : x <= inject_Z z -> (rnd_half_even x <= z)%Z.
Proof. intros H. rewrite <- (rnd_half_even_Z z). apply rnd_half_even_mono, H. Qed.

Lemma rnd_half_even_ge_Z x z : inject_Z z <= x -> (z <= rnd_half_even x)%Z.
Proof. intros H. rewrite <- (rnd_half_even_Z z). apply rnd_half_even_mono, H. Qed.

Lemma rnd_half_even_comp x y : x == y -> rnd_half_even x = rnd_half_even y.
Proof.
  intros H. apply Z.le_antisymm; apply rnd_half_even_mono; rewrite H; apply Qle_refl.
Qed.


(** rounding of positive numbers *)
Lemma div_pow2_nonneg x s : 0 <= x -> 0 <= x / pow2 s.
Proof.
  intros H. apply Qle_shift_div_l; [apply pow2_pos | lra].
Qed.

Lemma round_pos_nonneg x : 0 < x -> 0 <= round_pos x.
Proof.
  intros Hx. unfold round_pos. apply Qmult_le_0_compat.
  - rewrite <- (Zle_Qle 0). apply rnd_half_even_ge_Z.
    apply div_pow2_nonneg. lra.
  - apply Qlt_le_weak, pow2_pos.
Qed.

Lemma round_pos_upper x :
  0 < x -> round_pos x <= pow2 (Z.max (ilog2 x) emin + 1).
Proof.
  intros Hx. unfold round_pos, ulp_exp.
  set (c := Z.max (ilog2 x) emin). set (s := (c - (prec - 1))%Z).
  replace (c + 1)%Z with (prec + s)%Z by (unfold s; lia).
  rewrite pow2_add. apply Qmult_le_compat_r; [| apply Qlt_le_weak, pow2_pos].
  rewrite (pow2_Z prec) by (unfold prec; lia). rewrite <- Zle_Qle.
  apply rnd_half_even_le_Z. rewrite <- (pow2_Z prec) by (unfold prec; lia).
  apply Qle_shift_div_r; [apply pow2_pos |]. rewrite <- pow2_add.
  destruct (ilog2_spec x Hx) as [_ H]. apply Qlt_le_weak.
  eapply Qlt_le_trans; [exact H |]. apply pow2_le. unfold s, c. lia.
Qed.

Lemma round_pos_lower x :
  0 < x -> (emin <= ilog2 x)%Z -> pow2 (ilog2 x) <= round_pos x.
Proof.
  intros Hx He. unfold round_pos, ulp_exp.
  rewrite Z.max_l by exact He. set (s := (ilog2 x - (prec - 1))%Z).
  replace (ilog2 x) with (prec - 1 + s)%Z at 1 by (unfold s; lia).
  rewrite pow2_add. apply Qmult_le_compat_r; [| apply Qlt_le_weak, pow2_pos].
  rewrite (pow2_Z (prec - 1)) by (unfold prec; lia). rewrite <- Zle_Qle.
  apply rnd_half_even_ge_Z. rewrite <- (pow2_Z (prec - 1)) by (unfold prec; lia).
  apply Qle_shift_div_l; [apply pow2_pos |]. rewrite <- pow2_add.
  destruct (ilog2_spec x Hx) as [H _].
  eapply Qle_trans; [| exact H]. apply pow2_le. unfold s. lia.
Qed.

Lemma round_pos_mono x y : 0 < x -> x <= y -> round_pos x <= round_pos y.
Proof.
  intros Hx Hxy.
  assert (Hy : 0 < y) by (eapply Qlt_le_trans; eauto).
  pose proof (ilog2_mono x y Hx Hxy) as Hl.
  destruct (Z.eq_dec (Z.max (ilog2 x) emin) (Z.max (ilog2 y) emin)) as [E | NE].
  - unfold round_pos, ulp_exp. rewrite <- E.
    apply Qmult_le_compat_r; [| apply Qlt_le_weak, pow2_pos].
    rewrite <- Zle_Qle. apply rnd_half_even_mono.
    apply Qmult_le_compat_r; [exact Hxy |].
    apply Qlt_le_weak, Qinv_lt_0_compat, pow2_pos.
  - eapply Qle_trans; [apply round_pos_upper, Hx |].
    eapply Qle_trans; [| apply round_pos_lower; [exact Hy | lia]].
    apply pow2_le. lia.
Qed.

Lemma round_pos_comp x y : x == y -> 0 < x -> round_pos x == round_pos y.
Proof.
  intros H Hx. apply Qle_antisym; apply round_pos_mono;
    rewrite <- ?H; first [exact Hx | apply Qle_refl].
Qed.

(** rounding is monotone *)
Lemma round_mono x y : x <= y -> round x <= round y.
Proof.
  intros Hxy. unfold round.
  destruct x as [[| n | n] d], y as [[| m | m] e]; cbn [Qnum];
    try apply Qle_refl; try (exfalso; unfold Qle in Hxy; cbn in Hxy; lia).
  - apply round_pos_nonneg. reflexivity.
  - apply round_pos_mono; [reflexivity | exact Hxy].
  - apply (Qopp_le_compat 0). apply round_pos_nonneg. reflexivity.
  - eapply Qle_trans; [apply (Qopp_le_compat 0), round_pos_nonneg; reflexivity |].
    apply round_pos_nonneg. reflexivity.
  - apply Qopp_le_compat. apply round_pos_mono; [reflexivity |].
    apply Qopp_le_compat in Hxy. exact Hxy.
Qed.

Lemma round_comp x y : x == y -> round x == round y.
Proof.
  intros H. apply Qle_antisym; apply round_mono; rewrite H; apply Qle_refl.
Qed.

#[export] Instance round_proper : Proper (Qeq ==> Qeq) round.
Proof. intros x y H. apply round_comp, H. Qed.

(** numbers [k * 2^t] with fewer than 54 bits in [k] are fixed by rounding *)
Lemma round_pos_exact k t :
  (0 < k < 2 ^ prec)%Z -> (emin - (prec - 1) <= t)%Z ->
  round_pos (inject_Z k * pow2 t) == inject_Z k * pow2 t.
Proof.
  intros Hk Ht. set (x := inject_Z k * pow2 t).
  assert (Hx : 0 < x).
  { unfold x. apply Qmult_lt_0_compat; [| apply pow2_pos].
    rewrite <- (Zlt_Qlt 0). lia. }
  assert (Hs : (ulp_exp x <= t)%Z).
  { unfold ulp_exp. 
    assert (ilog2 x < prec + t)%Z; [| lia].
    apply ilog2_lt; [exact Hx |]. unfold x. rewrite pow2_add.
    apply Qmult_lt_compat_r; [apply pow2_pos |].
    rewrite pow2_Z by (unfold prec; lia). rewrite <- Zlt_Qlt. lia. }
  unfold round_pos. set (s := ulp_exp x) in *.
  assert (E : x / pow2 s == inject_Z (k * 2 ^ (t - s))).
  { unfold x. rewrite div_pow2, inject_Z_mult, pow2_Z by lia. reflexivity. }
  rewrite (rnd_half_even_comp _ _ E), rnd_half_even_Z.
  rewrite inject_Z_mult, <- pow2_Z by lia. rewrite <- Qmult_assoc, <- pow2_add.
  replace (t - s + s)%Z with t by lia. reflexivity.
Qed.

Lemma round_exact k t :
  (Z.abs k < 2 ^ prec)%Z -> (emin - (prec - 1) <= t)%Z ->
  round (inject_Z k * pow2 t) == inject_Z k * pow2 t.
Proof.
  intros Hk Ht.
  assert (Hsign : forall j, Qnum (inject_Z j * pow2 t) = (j * Qnum (pow2 t))%Z)
    by reflexivity.
  pose proof (pow2_pos t) as Hp.
  assert (Hq : (0 < Qnum (pow2 t))%Z) by (unfold Qlt in Hp; cbn in Hp; lia).
  unfold round. rewrite Hsign.
  destruct k as [| k | k].
  - rewrite Z.mul_0_l. change (inject_Z 0) with 0. ring.
  - destruct (Z.pos k * Qnum (pow2 t))%Z eqn:E; try lia.
    apply round_pos_exact; [lia | exact Ht].
  - destruct (Z.neg k * Qnum (pow2 t))%Z eqn:E; try lia.
    assert (E2 : - (inject_Z (Z.neg k) * pow2 t) == inject_Z (Z.pos k) * pow2 t).
    { change (Z.neg k) with (- Z.pos k)%Z. rewrite inject_Z_opp. ring. }
    rewrite (round_pos_comp _ _ E2)
      by (rewrite E2; apply Qmult_lt_0_compat; [reflexivity | exact Hp]).
    rewrite round_pos_exact by (first [lia | exact Ht]).
    change (Z.neg k) with (- Z.pos k)%Z. rewrite inject_Z_opp. ring.
Qed.

Lemma round_int n : (Z.abs n < 2 ^ 53)%Z -> round (inject_Z n) == inject_Z n.
Proof.
  intros H. assert (E : inject_Z n == inject_Z n * pow2 0) by (unfold pow2; cbn; ring).
  rewrite E at 1. rewrite round_exact; [symmetry; exact E | exact H | unfold emin, prec; lia].
Qed.

(** multiples of 1/128 *)
Lemma round_128 k : (Z.abs k < 2 ^ 53)%Z -> round (inject_Z k / 128) == inject_Z k / 128.
Proof.
  intros H. assert (E : inject_Z k / 128 == inject_Z k * pow2 (-7)) by (unfold pow2; cbn; field).
  rewrite E at 1. rewrite round_exact; [symmetry; exact E | exact H | unfold emin, prec; lia].
Qed.

Lemma round_between lo hi x :
  round lo == lo -> round hi == hi -> lo <= x -> x <= hi -> lo <= round x /\ round x <= hi.
Proof.
  intros Hlo Hhi H1 H2. split.
  - rewrite <- Hlo. apply round_mono, H1.
  - rewrite <- Hhi. apply round_mono, H2.
Qed.

(** the factor [rand.Float64()*2 - 1] lies in [-1, 1] *)
Lemma sign_factor u : unit_draw u -> -1 <= sub (mul u 2) 1 /\ sub (mul u 2) 1 <= 1.
Proof.
  intros [H0 H1]. unfold sub, mul.
  destruct (round_between 0 2 (u * 2)) as [Ha Hb]; try reflexivity; try lra.
  apply (round_between (-1) 1); try reflexivity; lra.
Qed.

(** a product [s * jitter] with [|s| <= 1] stays within any bound of [jitter] *)
Lemma scaled_within s jitter B :
  -1 <= s -> s <= 1 -> 0 <= jitter -> jitter <= B ->
  - B <= s * jitter /\ s * jitter <= B.
Proof. intros. split; nra. Qed.

Lemma to_int_nonneg x : 0 <= x -> to_int x = Qfloor x.
Proof.
  intros H. unfold to_int. apply Qle_bool_iff in H. rewrite H. reflexivity.
Qed.

Lemma jitter_bounds (v j : Z) (u : Q) :
  (0 < v <= 2 ^ 44)%Z -> (0 < j <= 100)%Z -> unit_draw u ->
  let jitter := div (mul (of_int v) (of_int j)) 100 in
  let delta := mul (sub (mul u 2) 1) jitter in
  let result := to_int (add (of_int v) delta) in
  (v * (100 - j) / 100 <= result /\ 100 * result <= v * (100 + j))%Z.
Proof.
  intros Hv Hj Hu. cbv zeta.
  destruct (sign_factor u Hu) as [Hs1 Hs2].
  set (s := sub (mul u 2) 1) in *.
  assert (Ev : of_int v == inject_Z v) by (apply round_int; lia).
  assert (Ej : of_int j == inject_Z j) by (apply round_int; lia).
  assert (Ep : mul (of_int v) (of_int j) == inject_Z (v * j)).
  { unfold mul. rewrite Ev, Ej, <- inject_Z_mult. apply round_int. nia. }
  cbv zeta.
  assert (HP : (0 < v * j <= 100 * v)%Z) by nia.
  assert (HP2 : (v * (100 - j) = 100 * v - v * j)%Z) by ring.
  assert (HP3 : (v * (100 + j) = 100 * v + v * j)%Z) by ring.
  rewrite HP2, HP3.
  set (P := (v * j)%Z) in *.
  pose proof (Z.mul_div_le P 100 ltac:(lia)) as HM1.
  pose proof (Z.mul_succ_div_gt P 100 ltac:(lia)) as HM2.
  pose proof (Z.mul_div_le (P + 99) 100 ltac:(lia)) as Hc1.
  pose proof (Z.mul_succ_div_gt (P + 99) 100 ltac:(lia)) as Hc2.
  pose proof (Z.mul_div_le (100 * v - P) 100 ltac:(lia)) as Hl1.
  pose proof (Z.mul_succ_div_gt (100 * v - P) 100 ltac:(lia)) as Hl2.
  set (M := (P / 100 + 1)%Z). set (c := ((P + 99) / 100)%Z).
  assert (HM : (1 <= M <= v + 1)%Z) by (unfold M; lia).
  assert (Hc : (0 <= c <= v)%Z) by (unfold c; lia).
  (* the jitter amplitude *)
  assert (Hjit : 0 <= div (mul (of_int v) (of_int j)) 100 /\
                 div (mul (of_int v) (of_int j)) 100 <= inject_Z c /\
                 div (mul (of_int v) (of_int j)) 100 <= inject_Z (128 * M - 1) / 128).
  { unfold div. rewrite Ep.
    assert (H0 : 0 <= inject_Z P / 100).
    { apply Qle_shift_div_l; [reflexivity |]. rewrite Qmult_0_l, <- (Zle_Qle 0). lia. }
    assert (H1 : inject_Z P / 100 <= inject_Z c).
    { apply Qle_shift_div_r; [reflexivity |].
      change 100 with (inject_Z 100). rewrite <- inject_Z_mult, <- Zle_Qle. unfold c. lia. }
    assert (H2 : inject_Z P / 100 <= inject_Z (128 * M - 1) / 128).
    { unfold Qle, Qdiv, Qmult, Qinv, inject_Z. cbn. unfold M. lia. }
    split; [| split].
    - change 0 with (round 0). apply round_mono, H0.
    - rewrite <- (round_int c) by lia. apply round_mono, H1.
    - rewrite <- (round_128 (128 * M - 1)) by lia. apply round_mono, H2. }
  set (jitter := div (mul (of_int v) (of_int j)) 100) in *.
  destruct Hjit as (Hj0 & Hj1 & Hj2).
  (* the perturbation *)
  assert (Hd1 : - inject_Z c <= mul s jitter).
  { unfold mul. destruct (scaled_within s jitter (inject_Z c)) as [H _]; auto.
    rewrite <- inject_Z_opp. rewrite <- (round_int (- c)) by lia.
    apply round_mono. rewrite inject_Z_opp. exact H. }
  assert (Hd2 : mul s jitter <= inject_Z (128 * M - 1) / 128).
  { unfold mul. destruct (scaled_within s jitter (inject_Z (128 * M - 1) / 128)) as [_ H]; auto.
    rewrite <- (round_128 (128 * M - 1)) by lia. apply round_mono, H. }
  set (delta := mul s jitter) in *.
  (* the sum *)
  assert (Hx1 : inject_Z (v - c) <= add (of_int v) delta).
  { unfold add. rewrite <- (round_int (v - c)) by lia. apply round_mono.
    rewrite Ev. unfold Z.sub. rewrite inject_Z_plus, inject_Z_opp. lra. }
  assert (Hx2 : add (of_int v) delta <= inject_Z (128 * (v + M) - 1) / 128).
  { unfold add. rewrite <- (round_128 (128 * (v + M) - 1)) by lia. apply round_mono.
    rewrite Ev. 
    assert (E : inject_Z (128 * (v + M) - 1) / 128 == inject_Z v + inject_Z (128 * M - 1) / 128).
    { unfold Z.sub. rewrite !inject_Z_plus, !inject_Z_mult, inject_Z_plus. field. }
    rewrite E. lra. }
  set (x := add (of_int v) delta) in *.
  assert (Hx0 : 0 <= x).
  { eapply Qle_trans; [| exact Hx1]. rewrite <- (Zle_Qle 0). lia. }
  rewrite (to_int_nonneg x Hx0).
  assert (Hf1 : (v - c <= Qfloor x)%Z).
  { rewrite <- (Qfloor_Z (v - c)). apply Qfloor_resp_le, Hx1. }
  assert (Hf2 : (Qfloor x <= v + M - 1)%Z).
  { apply Qfloor_resp_le in Hx2. 
    assert (E : Qfloor (inject_Z (128 * (v + M) - 1) / 128) = (v + M - 1)%Z).
    { change 128 with (inject_Z 128). rewrite <- Zdiv_Qdiv.
      symmetry. apply (Z.div_unique _ _ _ 127); lia. }
    lia. }
  unfold M, c in *. split; lia.
Qed.

End F64Facts.

(** ** Jitter calculator *)

(** C2, as amended.  Past the guard, for a nominal value up to [2^44], a
    percentage up to 100 and a draw in [[0, 1)], the result is an integer
    at least 1 between the integer part of [v(1 - j/100)] and
    [v(1 + j/100)]; with [j = 0] it is [v]; and for [j <= 0] or [v <= 0]
    the value comes back unchanged and the random source is not read. *)
Theorem applyJitter_bounds (env : Env) (w : World) (v j : Z) :
  F64.unit_draw (rand_Float64 env (length (calls w))) →
  (j <= 0 ∨ v <= 0 → applyJitter env v j w = (v, w)) ∧
  (0 < v <= 2 ^ 44 → 0 <= j <= 100 →
   let r := (applyJitter env v j w).1 in
   v * (100 - j) / 100 <= r ∧ 100 * r <= v * (100 + j) ∧ 1 <= r ∧ (j = 0 → r = v)).
Proof.
  intros Hu. split.
  - intros Hg. unfold applyJitter.
    replace ((j <=? 0) || (v <=? 0)) with true; [reflexivity |].
    symmetry. apply orb_true_iff. destruct Hg; [left | right]; lia.
  - intros Hv Hj r. subst r. unfold applyJitter.
    destruct (Z.leb_spec j 0) as [Hj0 | Hj0]; cbn [orb].
    + assert (j = 0) as -> by lia. cbn [ret fst].
      replace (v * (100 - 0)) with (v * 100) by ring.
      rewrite Z.div_mul by lia. repeat split; lia.
    + destruct (Z.leb_spec v 0) as [Hv0 | Hv0]; [lia |].
      unfold bind, randFloat64, call, ret. cbn [fst].
      pose proof (F64Facts.jitter_bounds v j _ Hv (conj Hj0 (proj2 Hj)) Hu) as H.
      cbv zeta in H. destruct H as [H1 H2].
      match goal with |- context [if ?r <? 1 then _ else _] => set (res := r) in * end.
      assert (Hlo : v * (100 - j) / 100 <= v).
      { apply Z.div_le_upper_bound; nia. }
      destruct (Z.ltb_spec res 1); repeat split; try lia; nia.
Qed.

(** The bounds at work: 30 seconds with a fifth of jitter and the draw 0. *)
Lemma applyJitter_bounds_witness :
  let env := sampleEnv 0 None (failedResponse "") (AcquireErr "") in
  24 <= (applyJitter env 30 20 initWorld).1 ∧
  100 * (applyJitter env 30 20 initWorld).1 <= 3600 ∧
  applyJitter env 0 20 initWorld = (0, initWorld).
Proof.
  intros env.
  assert (Hu : F64.unit_draw (rand_Float64 env (length (calls initWorld))))
    by (split; [discriminate | reflexivity]).
  destruct (applyJitter_bounds env initWorld 30 20 Hu) as [_ H].
  destruct (H ltac:(lia) ltac:(lia)) as (H1 & H2 & _).
  destruct (applyJitter_bounds env initWorld 0 20 Hu) as [H0 _].
  split; [exact H1 | split; [exact H2 | apply H0; right; lia]].
Defined.

(** C2 as stated fails.  With the value 2, 20 percent and the draw 0 the
    sum is 1.6 and its integer part 1, below the interval [[1.6, 2.4]].
    Beyond [2^46] rounding alone breaks the upper end. *)
Lemma applyJitter_interval_counterexample :
  let env := sampleEnv 0 None (failedResponse "") (AcquireErr "") in
  let big := sampleEnv (9007199254740991 # 9007199254740992) None
               (failedResponse "") (AcquireErr "") in
  F64.unit_draw (rand_Float64 env 0) ∧
  (applyJitter env 2 20 initWorld).1 = 1 ∧
  ¬ (2 * (100 - 20) <= 100 * (applyJitter env 2 20 initWorld).1) ∧
  F64.unit_draw (rand_Float64 big 0) ∧
  ¬ (100 * (applyJitter big 103817854618593 43 initWorld).1
     <= 103817854618593 * (100 + 43)).
Proof.
  intros env big.
  split; [split; [discriminate | reflexivity] |].
  split; [vm_compute; reflexivity |].
  split; [vm_compute; intros H; apply H; reflexivity |].
  split; [split; [discriminate | reflexivity] |].
  vm_compute. intros H; apply H; reflexivity.
Qed.

(** ** Executor *)

Section ExecutorFacts.
Context {T F : Type}.
Implicit Types (e : AsyncTaskExecutor T F) (s : System T F) (evs : list (Event T F))
  (os : list (Output T)).

Lemma wrap64_id z : int64_range z → wrap64 z = z.
Proof.
  unfold int64_range, wrap64. intros H.
  rewrite Z.mod_small by lia. lia.
Qed.

Lemma count_events_nil (p : Event T F → bool) : count_events p [] = 0.
Proof. reflexivity. Qed.

Lemma count_events_cons (p : Event T F → bool) ev evs :
  count_events p (ev :: evs) = (if p ev then 1 else 0) + count_events p evs.
Proof.
  unfold count_events. rewrite filter_cons.
  destruct (p ev); destruct (decide _); try congruence; cbn [length]; lia.
Qed.

Lemma count_events_nonneg (p : Event T F → bool) evs : 0 <= count_events p evs.
Proof. unfold count_events. lia. Qed.

Lemma run_cons s ev evs s' os :
  run s (ev :: evs) = Some (s', os) →
  ∃ s1 o os1, step s ev = Some (s1, o) ∧ run s1 evs = Some (s', os1) ∧ os = o :: os1.
Proof.
  cbn [run]. intros H.
  destruct (step s ev) as [[s1 o] |] eqn:E1; cbn in H; [| discriminate].
  destruct (run s1 evs) as [[s2 os1] |] eqn:E2; cbn in H; [| discriminate].
  injection H as <- <-. eauto 10.
Qed.

Lemma drained_cons o os :
  @drained T (o :: os) = match o with OutResults rs => rs | _ => [] end ++ drained os.
Proof. destruct o; reflexivity. Qed.

Lemma buffered_cons o os :
  @buffered T (o :: os) = match o with OutBuffered r => [r] | _ => [] end ++ buffered os.
Proof. destruct o; reflexivity. Qed.

Lemma GetResults_fst e : (GetResults e).1 = results e.
Proof. unfold GetResults. destruct (results e); reflexivity. Qed.

Lemma GetResults_snd e : results (GetResults e).2 = [].
Proof. unfold GetResults. destruct (results e) eqn:E; [exact E | reflexivity]. Qed.

Lemma poolSubmit_results (t : PoolTask F) ans e :
  results (poolSubmit t ans e).1 = results e.
Proof. destruct e as [nm [p |] sz rs pc], ans; reflexivity. Qed.

Lemma poolSubmit_pendingCount (t : PoolTask F) ans e :
  pendingCount (poolSubmit t ans e).1 = pendingCount e.
Proof. destruct e as [nm [p |] sz rs pc], ans; reflexivity. Qed.

Lemma poolSubmit_pool (t : PoolTask F) ans e :
  default [] (pool (poolSubmit t ans e).1) =
  default [] (pool e) ++ match ans with None => [t] | Some _ => [] end.
Proof.
  destruct e as [nm [p |] sz rs pc], ans; cbn; rewrite ?app_nil_r; reflexivity.
Qed.

(** one step neither loses nor repeats a buffered record *)
Lemma step_conserves s ev s1 o :
  step s ev = Some (s1, o) →
  results (sys_exec s) ++ buffered [o] = drained [o] ++ results (sys_exec s1).
Proof.
  destruct ev; cbn [step]; intros H.
  - injection H as <- <-. cbn. by rewrite app_nil_r.
  - destruct (sys_submitting s !! i) as [t |]; cbn in H; [| discriminate].
    injection H as <- <-. cbn. by rewrite poolSubmit_results, app_nil_r.
  - destruct (pool (sys_exec s)) as [p |]; cbn in H; [| discriminate].
    destruct (p !! i) as [t |]; cbn in H; [| discriminate].
    injection H as <- <-. reflexivity.
  - destruct (sys_finishing s); [discriminate |].
    injection H as <- <-. cbn. by rewrite app_nil_r.
  - pose proof (GetResults_fst (sys_exec s)) as H1.
    pose proof (GetResults_snd (sys_exec s)) as H2.
    destruct (GetResults (sys_exec s)) as [rs e]. injection H as <- <-.
    cbn in *. rewrite H2, !app_nil_r. congruence.
  - injection H as <- <-. cbn. by rewrite app_nil_r.
Qed.

Lemma run_conserves evs : ∀ s s' os,
  run s evs = Some (s', os) →
  results (sys_exec s) ++ buffered os = drained os ++ results (sys_exec s').
Proof.
  induction evs as [| ev evs IH]; intros s s' os H.
  - cbn in H. simplify_eq. cbn. by rewrite app_nil_r.
  - apply run_cons in H as (s1 & o & os1 & Hs & Hr & ->).
    apply IH in Hr. apply step_conserves in Hs.
    rewrite buffered_cons, drained_cons.
    rewrite buffered_cons, drained_cons in Hs.
    cbn in Hs. rewrite !app_nil_r in Hs.
    rewrite app_assoc, Hs, <- !app_assoc. f_equal. exact Hr.
Qed.


Lemma run_app evs1 : ∀ evs2 s s' os,
  run s (evs1 ++ evs2) = Some (s', os) →
  ∃ s1 os1 os2, run s evs1 = Some (s1, os1) ∧ run s1 evs2 = Some (s', os2) ∧ os = os1 ++ os2.
Proof.
  induction evs1 as [| ev evs1 IH]; intros evs2 s s' os H.
  - exists s, [], os. auto.
  - rewrite <- app_comm_cons in H.
    apply run_cons in H as (s1 & o & os1 & Hs & Hr & ->).
    apply IH in Hr as (s2 & os2 & os3 & H1 & H2 & ->).
    exists s2, (o :: os2), os3. cbn [run]. rewrite Hs. cbn. rewrite H1. auto.
Qed.

(** without an append, an empty buffer stays empty *)
Lemma step_keeps_empty s ev s1 o :
  is_buffer ev = false → results (sys_exec s) = [] →
  step s ev = Some (s1, o) → results (sys_exec s1) = [].
Proof.
  intros Hb He H. destruct ev; cbn [step] in H; try discriminate Hb.
  - injection H as <- <-. exact He.
  - destruct (sys_submitting s !! i) as [t |]; cbn in H; [| discriminate].
    injection H as <- <-. cbn. by rewrite poolSubmit_results.
  - destruct (sys_finishing s); [discriminate |]. injection H as <- <-. exact He.
  - pose proof (GetResults_snd (sys_exec s)) as H2.
    destruct (GetResults (sys_exec s)) as [rs e]. injection H as <- <-. exact H2.
  - injection H as <- <-. exact He.
Qed.

Lemma run_keeps_empty evs : ∀ s s' os,
  Forall (λ ev, is_buffer ev = false) evs → results (sys_exec s) = [] →
  run s evs = Some (s', os) → results (sys_exec s') = [].
Proof.
  induction evs as [| ev evs IH]; intros s s' os Hall He H.
  - cbn in H. injection H as <- <-. exact He.
  - apply run_cons in H as (s1 & o & os1 & Hs & Hr & ->).
    inversion Hall as [| ? ? Hev Hall']; subst.
    eapply (IH s1); [exact Hall' | | exact Hr].
    eapply step_keeps_empty; eauto.
Qed.

Lemma run_GetResults s s' os :
  run s [EvGetResults] = Some (s', os) →
  os = [OutResults (results (sys_exec s))] ∧ results (sys_exec s') = [].
Proof.
  cbn. pose proof (GetResults_fst (sys_exec s)) as H1.
  pose proof (GetResults_snd (sys_exec s)) as H2.
  destruct (GetResults (sys_exec s)) as [rs e]. cbn. intros [= <- <-].
  cbn in *. by subst.
Qed.

(** [Submit] is its two atomic halves, one after the other *)
Lemma Submit_as_events s taskID delaySeconds (taskFunc : F) u ans :
  run s [EvSubmitCount taskID delaySeconds taskFunc u;
         EvSubmitPool (length (sys_submitting s)) ans] =
  Some (mkSystem (Submit taskID delaySeconds taskFunc u ans (sys_exec s)).1
                 (sys_submitting s) (sys_finishing s), [OutNone; OutNone]).
Proof.
  cbn [run step mbind option_bind sys_exec sys_submitting sys_finishing].
  rewrite lookup_app_r, Nat.sub_diag by lia. cbn [lookup list_lookup mbind option_bind].
  rewrite delete_take_drop, take_app_length.
  rewrite drop_app_ge by lia.
  replace (S (length (sys_submitting s)) - length (sys_submitting s))%nat with 1%nat by lia.
  cbn [drop]. rewrite app_nil_r. reflexivity.
Qed.

(** *** The pending counter *)
Lemma step_accounted s ev s1 o n b d :
  accounted s n b d → n + (if is_submit ev then 1 else 0) < 2 ^ 63 →
  step s ev = Some (s1, o) →
  accounted s1 (n + if is_submit ev then 1 else 0)
               (b + if is_buffer ev then 1 else 0)
               (d + if is_decrement ev then 1 else 0).
Proof.
  intros (Hd & Hp & Hf & Hn) Hlt H.
  destruct ev; cbn [step is_submit is_buffer is_decrement] in *.
  - injection H as <- <-. unfold accounted. cbn.
    rewrite length_app, wrap64_id by (unfold int64_range; lia). cbn. lia.
  - destruct (sys_submitting s !! i) as [t |] eqn:Ei; cbn in H; [| discriminate].
    injection H as <- <-. unfold accounted. cbn.
    rewrite poolSubmit_pendingCount, poolSubmit_pool, length_app, length_delete by eauto.
    apply lookup_lt_Some in Ei. destruct ans; cbn; lia.
  - destruct (pool (sys_exec s)) as [p |] eqn:Ep; cbn in H; [| discriminate].
    destruct (p !! i) as [t |] eqn:Ei; cbn in H; [| discriminate].
    injection H as <- <-. unfold accounted. cbn in *.
    rewrite length_delete by eauto. apply lookup_lt_Some in Ei. lia.
  - destruct (sys_finishing s) as [| k] eqn:Ek; [discriminate |].
    injection H as <- <-. unfold accounted. cbn.
    rewrite wrap64_id by (unfold int64_range; lia). lia.
  - pose proof (GetResults_fst (sys_exec s)) as H1.
    destruct (GetResults (sys_exec s)) as [rs e] eqn:E. injection H as <- <-.
    unfold accounted. cbn.
    assert (pendingCount e = pendingCount (sys_exec s) ∧ pool e = pool (sys_exec s)) as [-> ->].
    { unfold GetResults in E. destruct (results (sys_exec s)); by simplify_eq. }
    lia.
  - injection H as <- <-. unfold accounted. lia.
Qed.

Lemma run_accounted evs : ∀ s s' os n b d,
  accounted s n b d → n + count_events is_submit evs < 2 ^ 63 →
  run s evs = Some (s', os) →
  accounted s' (n + count_events is_submit evs) (b + count_events is_buffer evs)
               (d + count_events is_decrement evs).
Proof.
  induction evs as [| ev evs IH]; intros s s' os n b d Ha Hlt H.
  - cbn in H. simplify_eq. rewrite !count_events_nil, !Z.add_0_r. exact Ha.
  - apply run_cons in H as (s1 & o & os1 & Hs & Hr & ->).
    rewrite !count_events_cons in *. rewrite !Z.add_assoc.
    pose proof (count_events_nonneg is_submit evs).
    eapply IH; [| | exact Hr].
    + eapply step_accounted; [exact Ha | lia | exact Hs].
    + lia.
Qed.

Lemma initial_accounted nm size : accounted (@initial T F nm size) 0 0 0.
Proof. unfold accounted. cbn. lia. Qed.

(** the closures that have buffered can all decrement *)
Lemma run_decrements k : ∀ s,
  sys_finishing s = k → int64_range (pendingCount (sys_exec s) - Z.of_nat k) →
  int64_range (pendingCount (sys_exec s)) →
  ∃ s1 os1, run s (replicate k EvDecrement) = Some (s1, os1) ∧
    pendingCount (sys_exec s1) = pendingCount (sys_exec s) - Z.of_nat k ∧
    sys_finishing s1 = 0%nat.
Proof.
  induction k as [| k IH]; intros s Hk Hr1 Hr2.
  - exists s, []. cbn. split; [done | split; [lia | done]].
  - cbn [replicate run step]. rewrite Hk.
    set (s1 := mkSystem (addPending (-1) (sys_exec s)) (sys_submitting s) k).
    assert (Hw : pendingCount (sys_exec s1) = pendingCount (sys_exec s) - 1).
    { cbn. apply wrap64_id. unfold int64_range in *. lia. }
    destruct (IH s1) as (s2 & os2 & H1 & H2 & H3); [done | | |].
    + rewrite Hw. unfold int64_range in *. lia.
    + rewrite Hw. unfold int64_range in *. lia.
    + exists s2, (OutNone :: os2). cbn. rewrite H1. cbn. split; [done |]. split; [lia | done].
Qed.

(** C1.  Along any run, what the closures appended is, in order, what
    the [GetResults] calls handed out followed by what is still in the
    buffer: no record is handed out twice and none is lost.  At any state
    [GetResults] returns the whole buffer and leaves it empty, and a
    second call, with no append since the first, returns nothing. *)
Theorem GetResults_exactly_once s s' evs os :
  run s evs = Some (s', os) →
  results (sys_exec s) ++ buffered os = drained os ++ results (sys_exec s') ∧
  (GetResults (sys_exec s')).1 = results (sys_exec s') ∧
  results (GetResults (sys_exec s')).2 = [] ∧
  ∀ mid s2 os2,
    Forall (λ ev, is_buffer ev = false) mid →
    run s' (EvGetResults :: mid ++ [EvGetResults]) = Some (s2, os2) →
    ∃ osm, os2 = OutResults (results (sys_exec s')) :: osm ++ [OutResults []].
Proof.
  intros H. split; [exact (run_conserves _ _ _ _ H) |].
  split; [apply GetResults_fst |]. split; [apply GetResults_snd |].
  intros mid s2 os2 Hmid H2.
  change (EvGetResults :: mid ++ [EvGetResults])
    with ([EvGetResults] ++ mid ++ [@EvGetResults T F]) in H2.
  apply run_app in H2 as (s3 & os3 & os4 & Ha & Hb & ->).
  apply run_GetResults in Ha as [-> Hempty].
  apply run_app in Hb as (s4 & os5 & os6 & Hb & Hc & ->).
  pose proof (run_keeps_empty _ _ _ _ Hmid Hempty Hb) as Hempty'.
  apply run_GetResults in Hc as [-> _]. rewrite Hempty'.
  exists os5. reflexivity.
Qed.


End ExecutorFacts.

(** A run to try the two statements on: one task submitted, taken by the
    pool, finished, and the buffer read twice. *)
Lemma GetResults_exactly_once_witness :
  let evs : list (Event Z unit) :=
    [EvSubmitCount "t" 0 () 0%Q; EvSubmitPool 0 None; EvBuffer 0 7 None 10 12;
     EvDecrement; EvGetResults; EvGetResults] in
  ∃ s os, run (initial "x" 0) evs = Some (s, os) ∧
          buffered os = drained os ++ results (sys_exec s).
Proof.
  intros evs.
  destruct (run (initial "x" 0) evs) as [[s os] |] eqn:E; [| discriminate E].
  exists s, os. split; [reflexivity |].
  destruct (GetResults_exactly_once _ _ _ _ E) as (H & _).
  exact H.
Defined.


(** ** Start with deferred stop *)

Section ControlPlaneFacts.
Variable env : Env.

(** the start response as the wrapper sees it *)
Lemma asyncStop_cases (params : gmap string any) (delaySeconds : Z) (w : World) :
  0 < delaySeconds →
  let started := ags_StartSandboxInstance env (length (calls w)) params in
  let w1 := (StartSandboxInstance env params w).2 in
  StartSandboxInstanceWithAsyncStop env params delaySeconds w =
    if negb (cpr_Success started) then (started, w1)
    else match instanceIdOf started with
         | None => (started, w1)
         | Some instanceId =>
             let '(err, w2) := submitStop env instanceId delaySeconds
                                 (StopInstanceFunc instanceId) w1 in
             match err with
             | Some e =>
                 ({| cpr_Success := false; cpr_Data := cpr_Data started;
                     cpr_Error := "failed to submit stop task: " +:+ e;
                     cpr_RequestID := cpr_RequestID started;
                     cpr_TimingMs := cpr_TimingMs started |}, w2)
             | None => (started, w2)
             end
         end.
Proof.
  intros Hd started w1. unfold StartSandboxInstanceWithAsyncStop.
  destruct (Z.leb_spec delaySeconds 0); [lia |].
  unfold bind at 1. unfold StartSandboxInstance at 1, call at 1.
  fold started. change (StartSandboxInstance env params w).2 with w1.
  cbn [fst snd]. 
  destruct (cpr_Success started); cbn [negb]; [| reflexivity].
  unfold instanceIdOf.
  destruct (cpr_Data started !! "Instance") as [[| | | | | instance] |]; try reflexivity.
  destruct (instance !! "InstanceId") as [[| | | instanceId | |] |]; try reflexivity.
  destruct (String.eqb instanceId ""); [reflexivity |].
  unfold bind at 1.
  destruct (submitStop env instanceId delaySeconds (StopInstanceFunc instanceId) _)
    as [[e |] w2]; reflexivity.
Qed.

Lemma logged_logged (cs1 cs2 : list Call) (w : World) :
  logged cs2 (logged cs1 w) = logged (cs1 ++ cs2) w.
Proof. unfold logged. cbn. by rewrite app_assoc. Qed.

Lemma Submit_err {T F} taskID delaySeconds (f : F) u ans (e : AsyncTaskExecutor T F) :
  (Submit taskID delaySeconds f u ans e).2 = ans.
Proof. unfold Submit, poolSubmit. destruct (getPool _), ans; reflexivity. Qed.

Lemma Submit_pendingCount {T F} taskID delaySeconds (f : F) u ans
      (e : AsyncTaskExecutor T F) :
  pendingCount (Submit taskID delaySeconds f u ans e).1 = wrap64 (pendingCount e + 1).
Proof. unfold Submit. by rewrite poolSubmit_pendingCount. Qed.

Lemma submitStop_spec (taskID : string) (delaySeconds : Z) (f : StopFunc) (w : World) :
  0 < delaySeconds →
  let u := rand_Float64 env (length (calls w)) in
  let ans := pool_Submit env (length (calls w) + 1) in
  submitStop env taskID delaySeconds f w =
    (ans, set_stop (Submit taskID delaySeconds f u ans (asyncStopExecutor w)).1
                   (logged [CallRandFloat64; CallPoolSubmit "async-stop" taskID] w)).
Proof.
  intros Hd u ans. unfold submitStop.
  destruct (Z.ltb_spec 0 delaySeconds); [| lia].
  unfold bind, randFloat64, call. rewrite logged_logged.
  cbn [logged calls asyncStopExecutor app].
  rewrite length_app. cbn [length]. fold u ans.
  pose proof (Submit_err taskID delaySeconds f u ans (asyncStopExecutor w)) as He.
  destruct (Submit taskID delaySeconds f u ans (asyncStopExecutor w)) as [e err].
  cbn in He. by subst.
Qed.

(** C9.  With [delaySeconds <= 0] the call answers at once with the fixed
    error; the world is as before, so nothing was started and nothing
    submitted. *)
Theorem asyncStop_rejects_nonpositive_delay
        (params : gmap string any) (delaySeconds : Z) (w : World) :
  delaySeconds <= 0 →
  let resp := (StartSandboxInstanceWithAsyncStop env params delaySeconds w).1 in
  let w' := (StartSandboxInstanceWithAsyncStop env params delaySeconds w).2 in
  cpr_Success resp = false ∧
  cpr_Error resp = "delaySeconds must be greater than 0" ∧
  w' = w ∧
  calls w' = calls w ∧
  asyncStopExecutor w' = asyncStopExecutor w ∧
  asyncStressExecutor w' = asyncStressExecutor w.
Proof.
  intros Hd. unfold StartSandboxInstanceWithAsyncStop.
  destruct (Z.leb_spec delaySeconds 0); [| lia].
  cbn. repeat split.
Qed.

(** C6.  With a positive delay: when the start fails, or its response
    carries no instance identifier, the stop executor is untouched and the
    only outside call is the start; when the start succeeds with an
    identifier and the pool refuses the stop task with [e], the response
    has [Success = false] and an error that reports the refusal. *)
Theorem asyncStop_submission (params : gmap string any) (delaySeconds : Z) (w : World) :
  0 < delaySeconds →
  let started := ags_StartSandboxInstance env (length (calls w)) params in
  let resp := (StartSandboxInstanceWithAsyncStop env params delaySeconds w).1 in
  let w' := (StartSandboxInstanceWithAsyncStop env params delaySeconds w).2 in
  (cpr_Success started = false ∨ instanceIdOf started = None →
   asyncStopExecutor w' = asyncStopExecutor w ∧
   calls w' = calls w ++ [CallStartSandboxInstance params]) ∧
  (∀ instanceId e,
     cpr_Success started = true → instanceIdOf started = Some instanceId →
     pool_Submit env (length (calls w) + 2) = Some e →
     cpr_Success resp = false ∧
     cpr_Error resp = "failed to submit stop task: " +:+ e).
Proof.
  intros Hd started resp w'. subst resp w'.
  rewrite (asyncStop_cases params delaySeconds w Hd). cbv zeta. fold started.
  split.
  - intros [Hf | Hn].
    + rewrite Hf. cbn. auto.
    + destruct (cpr_Success started); cbn [negb]; [rewrite Hn |]; cbn; auto.
  - intros instanceId e Hs Hi He. rewrite Hs, Hi. cbn [negb].
    rewrite submitStop_spec by exact Hd. cbv zeta.
    cbn [StartSandboxInstance call snd calls logged]. rewrite length_app. cbn [length].
    replace (length (calls w) + 1 + 1)%nat with (length (calls w) + 2)%nat by lia.
    rewrite He. cbn. auto.
Qed.


End ControlPlaneFacts.

Lemma asyncStop_rejects_nonpositive_delay_witness :
  let env := sampleEnv 0 None (startedResponse (AStr "i-1")) (AcquireErr "") in
  (StartSandboxInstanceWithAsyncStop env ∅ 0 initWorld).2 = initWorld.
Proof.
  intros env.
  assert (Hd : 0 <= 0) by lia.
  destruct (asyncStop_rejects_nonpositive_delay env ∅ 0 initWorld Hd) as (_ & _ & H & _).
  exact H.
Defined.

(** A start that succeeds with the identifier [i-1] while the pool is
    closed. *)
Lemma asyncStop_submission_witness :
  let env := sampleEnv 0 (Some "pool closed") (startedResponse (AStr "i-1")) (AcquireErr "") in
  cpr_Error (StartSandboxInstanceWithAsyncStop env ∅ 5 initWorld).1
  = "failed to submit stop task: pool closed".
Proof.
  intros env.
  assert (Hd : 0 < 5) by lia.
  destruct (asyncStop_submission env ∅ 5 initWorld Hd) as [_ H].
  destruct (H "i-1" "pool closed" eq_refl eq_refl eq_refl) as [_ He].
  exact He.
Defined.


(** ** Token cache *)

Section TokenFacts.
Variable env : Env.
Implicit Types (w : World) (c : tokenCache) (rid : string).

Lemma acquisitions_app (cs1 cs2 : list Call) :
  acquisitions (cs1 ++ cs2) = (acquisitions cs1 + acquisitions cs2)%nat.
Proof. unfold acquisitions. by rewrite filter_app, length_app. Qed.

Lemma cachedToken_miss rid w :
  tm_cache w !! rid = None → cachedToken env rid w = (None, w).
Proof. intros H. unfold cachedToken. by rewrite H. Qed.

Lemma cachedToken_entry rid w c :
  tm_cache w !! rid = Some c →
  cachedToken env rid w =
    ((if usable (time_Now env (length (calls w))) c then Some (tc_token c) else None),
     logged [CallTimeNow] w).
Proof. intros H. unfold cachedToken. rewrite H. reflexivity. Qed.

Lemma acquireToken_err rid w err :
  client_AcquireSandboxInstanceToken env (length (calls w)) rid = AcquireErr err →
  acquireToken env rid w =
    (Err ("failed to acquire token: " +:+ err), logged [CallAcquireToken rid] w).
Proof. intros H. unfold acquireToken, bind, call. by rewrite H. Qed.

Lemma acquireToken_empty rid w :
  (client_AcquireSandboxInstanceToken env (length (calls w)) rid = AcquireOk None ∨
   ∃ body, client_AcquireSandboxInstanceToken env (length (calls w)) rid
           = AcquireOk (Some body) ∧ ab_Token body = None) →
  acquireToken env rid w = (Err "empty token response", logged [CallAcquireToken rid] w).
Proof.
  intros [H | (body & H & Hb)]; unfold acquireToken, bind, call; rewrite H;
    [| rewrite Hb]; reflexivity.
Qed.

Lemma acquireToken_ok rid w body token :
  client_AcquireSandboxInstanceToken env (length (calls w)) rid = AcquireOk (Some body) →
  ab_Token body = Some token →
  acquireToken env rid w =
    (Ok token,
     set_cache (<[rid := mkTokenCache token
                           (storedExpiry env body (time_Now env (S (length (calls w)))))]>
                  (tm_cache w))
               (logged [CallAcquireToken rid; CallTimeNow] w)).
Proof.
  intros H Hb. unfold acquireToken, bind, call. rewrite H, Hb.
  unfold timeNow, call. rewrite logged_logged. cbn [logged calls tm_cache app].
  rewrite length_app. cbn [length].
  replace (length (calls w) + 1)%nat with (S (length (calls w))) by lia.
  reflexivity.
Qed.

Lemma refreshToken_hit rid w token w1 :
  cachedToken env rid w = (Some token, w1) → refreshToken env rid w = (Ok token, w1).
Proof. intros H. unfold refreshToken. unfold bind at 1. by rewrite H. Qed.

Lemma usable_mono now1 now2 c : now1 <= now2 → usable now1 c = false → usable now2 c = false.
Proof. unfold usable. intros H H1. apply Z.ltb_ge in H1. apply Z.ltb_ge. lia. Qed.

(** [getToken] on a hit, and on the two kinds of miss *)
Lemma getToken_hit rid w c :
  tm_cache w !! rid = Some c → usable (time_Now env (length (calls w))) c = true →
  getToken env rid w = (Ok (tc_token c), logged [CallTimeNow] w).
Proof.
  intros H Hu. unfold getToken, bind. rewrite (cachedToken_entry _ _ _ H), Hu. reflexivity.
Qed.

Lemma getToken_cold rid w :
  tm_cache w !! rid = None → getToken env rid w = acquireToken env rid w.
Proof.
  intros H. unfold getToken, bind. rewrite (cachedToken_miss _ _ H).
  unfold refreshToken, bind. rewrite (cachedToken_miss _ _ H). reflexivity.
Qed.

Lemma getToken_stale rid w c :
  tm_cache w !! rid = Some c →
  time_Now env (length (calls w)) <= time_Now env (S (length (calls w))) →
  usable (time_Now env (length (calls w))) c = false →
  getToken env rid w = acquireToken env rid (logged [CallTimeNow; CallTimeNow] w).
Proof.
  intros H Hm Hu. unfold getToken, bind. rewrite (cachedToken_entry _ _ _ H), Hu.
  unfold refreshToken, bind.
  assert (H1 : tm_cache (logged [CallTimeNow] w) !! rid = Some c) by exact H.
  rewrite (cachedToken_entry _ _ _ H1). cbn [logged calls]. rewrite length_app. cbn [length].
  replace (length (calls w) + 1)%nat with (S (length (calls w))) by lia.
  rewrite (usable_mono _ _ _ Hm Hu). rewrite logged_logged. reflexivity.
Qed.


Lemma storedExpiry_cases (body : AcquireBody) (now : Z) :
  (ab_ExpiresAt body = None → storedExpiry env body now = now + 5 * minute) ∧
  (∀ s, ab_ExpiresAt body = Some s → time_Parse env s = None →
        storedExpiry env body now = now + 5 * minute) ∧
  (∀ s e, ab_ExpiresAt body = Some s → time_Parse env s = Some e →
          storedExpiry env body now = e).
Proof.
  unfold storedExpiry. repeat split.
  - by intros ->.
  - by intros s -> ->.
  - by intros s e -> ->.
Qed.

Lemma acquisitions_one rid (cs : list Call) :
  Forall (λ k, is_acquire k = false) cs →
  acquisitions (CallAcquireToken rid :: cs) = 1%nat.
Proof.
  intros H. unfold acquisitions. rewrite filter_cons_True by reflexivity. cbn [length].
  f_equal. induction H as [| k cs Hc _ IH]; [reflexivity |].
  rewrite filter_cons_False by congruence. exact IH.
Qed.

Lemma acquisitions_none (cs : list Call) :
  Forall (λ k, is_acquire k = false) cs → acquisitions cs = 0%nat.
Proof.
  intros H. unfold acquisitions. induction H as [| k cs Hc _ IH]; [reflexivity |].
  rewrite filter_cons_False by congruence. exact IH.
Qed.

(** what the acquisition returns and stores, by the remote answer *)
Lemma acquireToken_spec rid w :
  let t := length (calls w) in
  let r := (acquireToken env rid w).1 in
  let w' := (acquireToken env rid w).2 in
  acquisitions (calls w') = S (acquisitions (calls w)) ∧
  match client_AcquireSandboxInstanceToken env t rid with
  | AcquireErr err =>
      r = Err ("failed to acquire token: " +:+ err) ∧ tm_cache w' = tm_cache w
  | AcquireOk None => r = Err "empty token response" ∧ tm_cache w' = tm_cache w
  | AcquireOk (Some body) =>
      match ab_Token body with
      | None => r = Err "empty token response" ∧ tm_cache w' = tm_cache w
      | Some token =>
          r = Ok token ∧
          tm_cache w' =
            <[rid := mkTokenCache token (storedExpiry env body (time_Now env (S t)))]>
              (tm_cache w)
      end
  end.
Proof.
  intros t r w'. subst r w'.
  destruct (client_AcquireSandboxInstanceToken env t rid) as [err | [body |]] eqn:E.
  - rewrite (acquireToken_err _ _ _ E). cbn [fst snd logged calls tm_cache].
    rewrite acquisitions_app, acquisitions_one by repeat constructor.
    split; [lia | done].
  - destruct (ab_Token body) as [token |] eqn:Eb.
    + rewrite (acquireToken_ok _ _ _ _ E Eb). cbn [fst snd logged calls tm_cache set_cache].
      rewrite acquisitions_app, acquisitions_one by repeat constructor.
      split; [lia | done].
    + rewrite acquireToken_empty by (right; eauto). cbn [fst snd logged calls tm_cache].
      rewrite acquisitions_app, acquisitions_one by repeat constructor.
      split; [lia | done].
  - rewrite acquireToken_empty by (left; exact E). cbn [fst snd logged calls tm_cache].
    rewrite acquisitions_app, acquisitions_one by repeat constructor.
    split; [lia | done].
Qed.

(** C5.  With a clock that does not run backwards between the two checks:
    [getToken] makes no remote acquisition exactly when the cache holds an
    entry for the resource whose expiry is more than thirty seconds past
    the clock, and then returns the cached token.  Otherwise it makes one
    acquisition: an error or a missing token come back as an error and
    leave the cache as it was; a token is returned and stored with the
    expiry of the response, or with the clock plus five minutes when the
    response has no expiry or one that does not parse. *)
Theorem getToken_spec (instanceID : string) (w : World) :
  let t0 := length (calls w) in
  time_Now env t0 <= time_Now env (S t0) →
  let r := (getToken env instanceID w).1 in
  let w' := (getToken env instanceID w).2 in
  let hit := λ c, tm_cache w !! instanceID = Some c ∧ usable (time_Now env t0) c = true in
  ((∃ c, hit c) ↔ acquisitions (calls w') = acquisitions (calls w)) ∧
  (∀ c, hit c → r = Ok (tc_token c) ∧ tm_cache w' = tm_cache w) ∧
  ((¬ ∃ c, hit c) →
   let t := (t0 + match tm_cache w !! instanceID with Some _ => 2 | None => 0 end)%nat in
   acquisitions (calls w') = S (acquisitions (calls w)) ∧
   match client_AcquireSandboxInstanceToken env t instanceID with
   | AcquireErr err =>
       r = Err ("failed to acquire token: " +:+ err) ∧ tm_cache w' = tm_cache w
   | AcquireOk None => r = Err "empty token response" ∧ tm_cache w' = tm_cache w
   | AcquireOk (Some body) =>
       match ab_Token body with
       | None => r = Err "empty token response" ∧ tm_cache w' = tm_cache w
       | Some token =>
           let now := time_Now env (S t) in
           r = Ok token ∧
           tm_cache w' =
             <[instanceID := mkTokenCache token (storedExpiry env body now)]> (tm_cache w) ∧
           (ab_ExpiresAt body = None → storedExpiry env body now = now + 5 * minute) ∧
           (∀ s, ab_ExpiresAt body = Some s → time_Parse env s = None →
                 storedExpiry env body now = now + 5 * minute) ∧
           (∀ s e, ab_ExpiresAt body = Some s → time_Parse env s = Some e →
                   storedExpiry env body now = e)
       end
   end).
Proof.
  intros t0 Hclock r w' hit. subst r w' hit. cbv beta.
  assert (Hmiss : ∀ w2, tm_cache w2 = tm_cache w →
            acquisitions (calls w2) = acquisitions (calls w) →
            getToken env instanceID w = acquireToken env instanceID w2 →
            (acquisitions (calls (getToken env instanceID w).2) = S (acquisitions (calls w))) ∧
            match client_AcquireSandboxInstanceToken env (length (calls w2)) instanceID with
            | AcquireErr err =>
                (getToken env instanceID w).1 = Err ("failed to acquire token: " +:+ err) ∧
                tm_cache (getToken env instanceID w).2 = tm_cache w
            | AcquireOk None =>
                (getToken env instanceID w).1 = Err "empty token response" ∧
                tm_cache (getToken env instanceID w).2 = tm_cache w
            | AcquireOk (Some body) =>
                match ab_Token body with
                | None => (getToken env instanceID w).1 = Err "empty token response" ∧
                          tm_cache (getToken env instanceID w).2 = tm_cache w
                | Some token =>
                    let now := time_Now env (S (length (calls w2))) in
                    (getToken env instanceID w).1 = Ok token ∧
                    tm_cache (getToken env instanceID w).2 =
                      <[instanceID := mkTokenCache token (storedExpiry env body now)]>
                        (tm_cache w) ∧
                    (ab_ExpiresAt body = None → storedExpiry env body now = now + 5 * minute) ∧
                    (∀ s, ab_ExpiresAt body = Some s → time_Parse env s = None →
                          storedExpiry env body now = now + 5 * minute) ∧
                    (∀ s e, ab_ExpiresAt body = Some s → time_Parse env s = Some e →
                            storedExpiry env body now = e)
                end
            end).
  { intros w2 Hc Ha ->. pose proof (acquireToken_spec instanceID w2) as [H1 H2].
    cbv zeta in H1, H2. rewrite Ha in H1. split; [exact H1 |].
    destruct (client_AcquireSandboxInstanceToken env (length (calls w2)) instanceID)
      as [err | [body |]]; rewrite ?Hc in H2; try exact H2.
    destruct (ab_Token body); [| exact H2].
    destruct H2 as [H2 H3]. split; [exact H2 |]. split; [exact H3 |].
    apply storedExpiry_cases. }
  destruct (tm_cache w !! instanceID) as [c |] eqn:Ec.
  - destruct (usable (time_Now env t0) c) eqn:Eu.
    + rewrite (getToken_hit _ _ _ Ec Eu). cbn [fst snd logged calls tm_cache].
      rewrite acquisitions_app, (acquisitions_none [CallTimeNow]) by repeat constructor.
      split; [| split].
      * split; [intros _; lia | intros _; eauto].
      * intros c' [[= <-] _]. done.
      * intros Hn. exfalso. apply Hn. eauto.
    + pose proof (getToken_stale _ _ _ Ec Hclock Eu) as Hg.
      destruct (Hmiss (logged [CallTimeNow; CallTimeNow] w) eq_refl) as [H1 H2];
        [cbn [logged calls];
         rewrite acquisitions_app, (acquisitions_none [_; _]) by repeat constructor; lia
        | exact Hg |].
      cbn [logged calls] in H2. rewrite length_app in H2. cbn [length] in H2.
      split; [| split].
      * split; [intros (c' & [= <-] & Hu); congruence | intros He; lia].
      * intros c' [[= <-] Hu]. congruence.
      * intros _. fold t0 in H2. split; [exact H1 | exact H2].
  - pose proof (getToken_cold _ _ Ec) as Hg.
    destruct (Hmiss w eq_refl eq_refl Hg) as [H1 H2].
    split; [| split].
    + split; [intros (c' & [=] & _) | intros He; lia].
    + intros c' [[=] _].
    + intros _. fold t0 in H2. rewrite Nat.add_0_r. split; [exact H1 | exact H2].
Qed.

End TokenFacts.

(** A cold cache and a remote that answers with a token and no expiry. *)
Lemma getToken_spec_witness :
  let env := sampleEnv 0 None (failedResponse "")
               (AcquireOk (Some (mkAcquireBody (Some "tok") None))) in
  (getToken env "x" initWorld).1 = Ok "tok" ∧
  tm_cache (getToken env "x" initWorld).2 !! "x"
  = Some (mkTokenCache "tok" (1 * second + 5 * minute)).
Proof.
  intros env.
  assert (Hclock : time_Now env (length (calls initWorld))
                   <= time_Now env (S (length (calls initWorld))))
    by (vm_compute; discriminate).
  destruct (getToken_spec env "x" initWorld Hclock) as (_ & _ & H).
  destruct H as [_ H].
  - intros (c & Hc & _). discriminate Hc.
  - cbn in H. destruct H as (Hr & Hcache & _). split; [exact Hr |].
    rewrite Hcache. apply lookup_insert_eq.
Defined.

(** *** Two callers *)

Section TwoCallers.
Variable env : Env.
Variable rid : string.
Variables lo hi n0 : nat.
Hypothesis Hlive : long_lived env rid lo hi.

(** one move of a caller keeps the invariant; [other] is the caller that
    does not move *)
Lemma advance_single_fetch (c other c' : Caller) (w w' : World) :
  (lo <= length (calls w))%nat →
  (length (calls w) + callsLeft c + callsLeft other <= hi)%nat →
  ((tm_cache w !! rid = None ∧ acquisitions (calls w) = n0 ∧
    (c = Entering ∨ c = Missed) ∧ (other = Entering ∨ other = Missed)) ∨
   (∃ token, settled env rid lo hi token w ∧ acquisitions (calls w) = S n0 ∧
             awaits token c ∧ awaits token other)) →
  advance env rid c w = Some (c', w') →
  (lo <= length (calls w'))%nat ∧
  (length (calls w') + callsLeft c' + callsLeft other <= hi)%nat ∧
  ((tm_cache w' !! rid = None ∧ acquisitions (calls w') = n0 ∧
    (c' = Entering ∨ c' = Missed) ∧ (other = Entering ∨ other = Missed)) ∨
   (∃ token, settled env rid lo hi token w' ∧ acquisitions (calls w') = S n0 ∧
             awaits token c' ∧ awaits token other)).
Proof.
  intros Hlo Hhi Hphase Hadv.
  destruct Hphase as [(Hcold & Hn & Hc & Ho) | (token & Hset & Hn & Hc & Ho)].
  - (* cold cache *)
    destruct Hc as [-> | ->]; cbn [advance callsLeft] in *.
    + rewrite (cachedToken_miss env _ _ Hcold) in Hadv. injection Hadv as <- <-.
      cbn [callsLeft]. split; [lia |]. split; [lia |]. left. auto.
    + unfold refreshToken, bind in Hadv. rewrite (cachedToken_miss env _ _ Hcold) in Hadv.
      destruct (Hlive (length (calls w))) as (body & token & Hr & Ht & Hu); [lia |].
      rewrite (acquireToken_ok env _ _ _ _ Hr Ht) in Hadv. injection Hadv as <- <-.
      cbn [callsLeft set_cache logged calls tm_cache]. rewrite length_app. cbn [length].
      split; [lia |]. split; [lia |]. right. exists token. split; [| split; [| split]].
      * eexists. split; [apply lookup_insert_eq |]. split; [reflexivity |].
        intros t Ht'. apply Hu; lia.
      * rewrite acquisitions_app, acquisitions_one by repeat constructor. lia.
      * right. right. reflexivity.
      * destruct Ho as [-> | ->]; [left | right; left]; reflexivity.
  - (* settled cache *)
    destruct Hset as (ce & Hce & Htok & Huse).
    assert (Hu : usable (time_Now env (length (calls w))) ce = true).
    { destruct Hc as [-> | [-> | ->]]; cbn [callsLeft advance] in *;
        [apply Huse; lia | apply Huse; lia | discriminate]. }
    assert (Hck : cachedToken env rid w = (Some token, logged [CallTimeNow] w)).
    { rewrite (cachedToken_entry env _ _ _ Hce), Hu, Htok. reflexivity. }
    assert (Hres : c' = Returned (Ok token) ∧ w' = logged [CallTimeNow] w).
    { destruct Hc as [-> | [-> | ->]]; cbn [advance] in Hadv.
      - rewrite Hck in Hadv. by injection Hadv as <- <-.
      - rewrite (refreshToken_hit env _ _ _ _ Hck) in Hadv. by injection Hadv as <- <-.
      - discriminate. }
    destruct Hres as [-> ->]. cbn [callsLeft logged calls]. rewrite length_app. cbn [length].
    split; [lia |]. split.
    { destruct Hc as [-> | [-> | ->]]; cbn [callsLeft] in *; [lia | lia | discriminate]. }
    right. exists token. split; [| split; [| split]].
    + exists ce. auto.
    + rewrite acquisitions_app, (acquisitions_none [_]) by repeat constructor. lia.
    + right. right. reflexivity.
    + exact Ho.
Qed.

Lemma callers_single_fetch sched : ∀ a b w a' b' w',
  single_fetch env rid lo hi n0 a b w →
  runCallers env rid sched a b w = Some (a', b', w') →
  single_fetch env rid lo hi n0 a' b' w'.
Proof.
  induction sched as [| [|] sched IH]; intros a b w a' b' w' Hinv H.
  - cbn in H. by injection H as <- <- <-.
  - cbn [runCallers] in H. destruct (advance env rid b w) as [[b1 w1] |] eqn:E;
      cbn in H; [| discriminate].
    apply (IH a b1 w1); [| exact H].
    destruct Hinv as (H1 & H2 & H3).
    destruct (advance_single_fetch b a b1 w w1 H1) as (G1 & G2 & G3); [lia | | exact E |].
    + destruct H3 as [(? & ? & ? & ?) | (tok & ? & ? & ? & ?)]; [left | right; exists tok]; auto.
    + split; [exact G1 |]. split; [lia |].
      destruct G3 as [(? & ? & ? & ?) | (tok & ? & ? & ? & ?)]; [left | right; exists tok]; auto.
  - cbn [runCallers] in H. destruct (advance env rid a w) as [[a1 w1] |] eqn:E;
      cbn in H; [| discriminate].
    apply (IH a1 b w1); [| exact H].
    destruct Hinv as (H1 & H2 & H3).
    destruct (advance_single_fetch a b a1 w w1 H1 H2 H3 E) as (G1 & G2 & G3).
    split; [exact G1 |]. split; [exact G2 | exact G3].
Qed.

End TwoCallers.

(** C8, as amended.  Two callers on a cache with no entry for the
    resource, under any interleaving of their sections that lets both
    return: if every acquisition in reach succeeds with an expiry that
    stays more than thirty seconds ahead of the clock, exactly one remote
    acquisition is made and both callers return its token. *)
Theorem getToken_single_fetch (env : Env) (instanceID : string) (w w' : World)
        (sched : list bool) (ra rb : result string) :
  tm_cache w !! instanceID = None →
  long_lived env instanceID (length (calls w)) (length (calls w) + 8) →
  runCallers env instanceID sched Entering Entering w = Some (Returned ra, Returned rb, w') →
  acquisitions (calls w') = S (acquisitions (calls w)) ∧
  ∃ token, ra = Ok token ∧ rb = Ok token.
Proof.
  intros Hcold Hlive Hrun.
  assert (Hinit : single_fetch env instanceID (length (calls w)) (length (calls w) + 8)
                    (acquisitions (calls w)) Entering Entering w).
  { split; [lia |]. split; [cbn; lia |]. left. auto. }
  pose proof (callers_single_fetch env instanceID _ _ _ Hlive sched _ _ _ _ _ _ Hinit Hrun)
    as (_ & _ & [(_ & _ & [Ha | Ha] & _) | (token & _ & Hn & Ha & Hb)]);
    try discriminate Ha.
  split; [exact Hn |]. exists token.
  destruct Ha as [Ha | [Ha | Ha]]; try discriminate Ha.
  destruct Hb as [Hb | [Hb | Hb]]; try discriminate Hb.
  injection Ha as ->. injection Hb as ->. auto.
Qed.

(** Both callers miss the first check, then take the lock in turn. *)
Lemma getToken_single_fetch_witness :
  let env := sampleEnv 0 None (failedResponse "")
               (AcquireOk (Some (mkAcquireBody (Some "tok") None))) in
  ∃ w', runCallers env "x" [false; true; false; true] Entering Entering initWorld
        = Some (Returned (Ok "tok"), Returned (Ok "tok"), w') ∧
        acquisitions (calls w') = 1%nat.
Proof.
  intros env.
  destruct (runCallers env "x" [false; true; false; true] Entering Entering initWorld)
    as [[[a b] w'] |] eqn:E; [| discriminate E].
  assert (Hshape : a = Returned (Ok "tok") ∧ b = Returned (Ok "tok"))
    by (injection E as <- <- <-; split; reflexivity).
  destruct Hshape as [-> ->]. exists w'. split; [reflexivity |].
  assert (Hlive : long_lived env "x" (length (calls initWorld)) (length (calls initWorld) + 8)).
  { intros t Ht. exists (mkAcquireBody (Some "tok") None), "tok".
    split; [reflexivity |]. split; [reflexivity |].
    intros tn tc Hn Hc. unfold usable, storedExpiry. cbn.
    apply Z.ltb_lt. unfold minute, second. lia. }
  destruct (getToken_single_fetch env "x" initWorld w' _ _ _ eq_refl Hlive E) as [H _].
  exact H.
Defined.

(** C8 as stated fails: when the acquisition of the caller that holds the
    lock first comes back with an error, nothing is cached, and the second
    caller acquires again. *)
Lemma getToken_single_fetch_counterexample :
  let env := sampleEnv 0 None (failedResponse "") (AcquireErr "unavailable") in
  tm_cache initWorld !! "x" = None ∧
  ∃ ra rb w',
    runCallers env "x" [false; true; false; true] Entering Entering initWorld
    = Some (Returned ra, Returned rb, w') ∧
    acquisitions (calls w') = 2%nat.
Proof.
  intros env. split; [reflexivity |].
  destruct (runCallers env "x" [false; true; false; true] Entering Entering initWorld)
    as [[[a b] w'] |] eqn:E; [| discriminate E].
  vm_compute in E. injection E as <- <- <-.
  eexists _, _, _. split; reflexivity.
Qed.

(** ** Retry loop of the pre-cacher *)

Section PrecacherFacts.
Variable finished : Z → list failedTask → list failedTask.
Hypothesis finished_sub : ∀ r l, finished r l ⊆ l.
Implicit Types (q tasks : list failedTask) (task : failedTask).

Lemma requeue_app (failed q : list failedTask) : requeue failed q = q ++ failed.
Proof.
  revert q. induction failed as [| [ref n] failed IH]; intros q; cbn.
  - by rewrite app_nil_r.
  - unfold requeue in IH. rewrite IH. unfold addFailedTask. by rewrite <- app_assoc.
Qed.

Lemma submitted_retryAction maxRetries tasks :
  submitted (retryAction maxRetries <$> tasks) = nextAttempt <$> retryable maxRetries tasks.
Proof.
  unfold retryable. induction tasks as [| task tasks IH]; [reflexivity |].
  cbn [fmap list_fmap submitted omap list_omap]. unfold retryAction at 1.
  rewrite filter_cons. destruct (Z.leb_spec maxRetries (retryCount task));
    destruct (decide _); try lia; cbn; [exact IH | f_equal; exact IH].
Qed.

Lemma gaveUp_retryAction maxRetries tasks :
  gaveUp (retryAction maxRetries <$> tasks) = exhausted maxRetries tasks.
Proof.
  unfold exhausted. induction tasks as [| task tasks IH]; [reflexivity |].
  cbn [fmap list_fmap gaveUp omap list_omap]. unfold retryAction at 1.
  rewrite filter_cons. destruct (Z.leb_spec maxRetries (retryCount task));
    destruct (decide _); try lia; cbn; [f_equal; exact IH | exact IH].
Qed.

Lemma roundsLeft_elem maxRetries q task :
  task ∈ q → (S (retriesLeft maxRetries task) <= roundsLeft maxRetries q)%nat.
Proof.
  induction 1 as [task q | task t' q _ IH]; cbn [roundsLeft foldr]; [lia |].
  unfold roundsLeft in IH. lia.
Qed.

Lemma roundsLeft_bound maxRetries q (n : nat) :
  (∀ task, task ∈ q → (S (retriesLeft maxRetries task) <= n)%nat) →
  (roundsLeft maxRetries q <= n)%nat.
Proof.
  induction q as [| t q IH]; intros H; cbn [roundsLeft foldr]; [lia |].
  apply Nat.max_lub; [apply H; left | apply IH; intros; apply H; by right].
Qed.

(** a round leaves a queue with fewer rounds to go *)
Lemma roundsLeft_decreases maxRetries round q :
  q ≠ [] →
  (roundsLeft maxRetries (finished round (nextAttempt <$> retryable maxRetries q))
   < roundsLeft maxRetries q)%nat.
Proof.
  intros Hq.
  assert (Hpos : (0 < roundsLeft maxRetries q)%nat).
  { destruct q as [| t q]; [done |]. cbn [roundsLeft foldr]. lia. }
  apply Nat.lt_le_trans with (S (roundsLeft maxRetries q - 1)); [| lia].
  apply Nat.lt_succ_r, roundsLeft_bound. intros task Ht.
  apply finished_sub in Ht. apply list_elem_of_fmap in Ht as (t0 & -> & Ht0).
  apply list_elem_of_filter in Ht0 as [Hlt Hin].
  pose proof (roundsLeft_elem maxRetries q t0 Hin) as Hb.
  unfold retriesLeft, nextAttempt in *. cbn [retryCount]. lia.
Qed.

Lemma retryLoop_terminates maxRetries fuel : ∀ round q,
  (roundsLeft maxRetries q < fuel)%nat →
  ∃ rounds, retryLoop finished fuel maxRetries round q = Some (rounds, []) ∧
            (length rounds <= roundsLeft maxRetries q)%nat ∧
            retryCourse finished maxRetries round q rounds.
Proof.
  induction fuel as [| fuel IH]; intros round q Hfuel; [lia |].
  destruct q as [| t q].
  - exists []. cbn. auto.
  - set (tasks := t :: q) in *.
    assert (Hne : tasks ≠ []) by done.
    pose proof (roundsLeft_decreases maxRetries round tasks Hne) as Hdec.
    destruct (IH (round + 1) (finished round (nextAttempt <$> retryable maxRetries tasks)))
      as (rounds & Hrun & Hlen & Hcourse); [lia |].
    exists (mkRetryRound round tasks (retryAction maxRetries <$> tasks) :: rounds).
    split; [| split].
    + change (retryLoop finished (S fuel) maxRetries round tasks) with
        (let actions := retryAction maxRetries <$> tasks in
         retryLoop finished fuel maxRetries (round + 1)
                   (requeue (finished round (submitted actions)) [])
         ≫= λ '(rounds, final), Some (mkRetryRound round tasks actions :: rounds, final)).
      cbv zeta. rewrite requeue_app, app_nil_l, submitted_retryAction, Hrun. reflexivity.
    + cbn [length]. lia.
    + cbn [retryCourse rr_round rr_tasks rr_actions].
      rewrite gaveUp_retryAction, submitted_retryAction. auto 10.
Qed.

Lemma retryLoop_more_fuel maxRetries fuel : ∀ fuel' round q x,
  retryLoop finished fuel maxRetries round q = Some x → (fuel <= fuel')%nat →
  retryLoop finished fuel' maxRetries round q = Some x.
Proof.
  induction fuel as [| fuel IH]; intros fuel' round q x H Hle; [discriminate |].
  destruct fuel' as [| fuel']; [lia |].
  destruct q as [| t q]; [exact H |].
  cbn [retryLoop] in *.
  destruct (retryLoop finished fuel _ _ _) as [[rounds final] |] eqn:E; [| discriminate].
  rewrite (IH fuel' _ _ _ E) by lia. exact H.
Qed.

(** C4.  The maximum is the configured one, or 3 when that is not
    positive.  With enough fuel [processRetries] returns, with an empty
    queue, after a course of rounds in which every round drains the whole
    queue, gives up exactly the drained tasks whose retry count has
    reached the maximum, submits exactly the others with the count
    incremented by one, and continues with the tasks that failed; the
    course ends exactly where a drain finds the queue empty, after no
    more rounds than the retries left to the tasks allow. *)
Theorem processRetries_spec (cfg_MaxRetries : Z) (failedQueue : list failedTask) :
  let maxRetries := effectiveMaxRetries cfg_MaxRetries in
  (cfg_MaxRetries <= 0 → maxRetries = 3) ∧
  (0 < cfg_MaxRetries → maxRetries = cfg_MaxRetries) ∧
  ∃ rounds,
    (∀ fuel, (roundsLeft maxRetries failedQueue < fuel)%nat →
             processRetries finished fuel cfg_MaxRetries failedQueue = Some (rounds, [])) ∧
    (length rounds <= roundsLeft maxRetries failedQueue)%nat ∧
    retryCourse finished maxRetries 1 failedQueue rounds.
Proof.
  intros maxRetries. split; [| split].
  - intros H. unfold maxRetries, effectiveMaxRetries.
    destruct (Z.leb_spec cfg_MaxRetries 0); [reflexivity | lia].
  - intros H. unfold maxRetries, effectiveMaxRetries.
    destruct (Z.leb_spec cfg_MaxRetries 0); [lia | reflexivity].
  - destruct (retryLoop_terminates maxRetries (S (roundsLeft maxRetries failedQueue))
                1 failedQueue) as (rounds & Hrun & Hlen & Hcourse); [lia |].
    exists rounds. split; [| split; [exact Hlen | exact Hcourse]].
    intros fuel Hfuel. unfold processRetries. fold maxRetries.
    apply (retryLoop_more_fuel maxRetries _ fuel _ _ _ Hrun). lia.
Qed.

End PrecacherFacts.

(** An image whose warming keeps failing, seen by the loop with two
    retries behind it and the default maximum of 3: one more attempt,
    then it is given up. *)
Lemma processRetries_spec_witness :
  ∃ rounds,
    processRetries (λ _ submitted, submitted) 5 0 [mkFailedTask "img" 2] = Some (rounds, []) ∧
    rr_actions <$> rounds = [[Resubmitted "img" 3]; [GaveUp (mkFailedTask "img" 3)]].
Proof.
  assert (Hsub : ∀ (r : Z) (l : list failedTask), (λ _ submitted, submitted) r l ⊆ l)
    by (intros r l; reflexivity).
  destruct (processRetries_spec (λ _ submitted, submitted) Hsub 0 [mkFailedTask "img" 2])
    as (_ & _ & rounds & Hrun & _ & _).
  exists rounds.
  assert (Hfuel : (roundsLeft (effectiveMaxRetries 0) [mkFailedTask "img" 2] < 5)%nat)
    by (vm_compute; lia).
  pose proof (Hrun 5%nat Hfuel) as H5. split; [exact H5 |].
  vm_compute in H5. injection H5 as <-. reflexivity.
Defined.

(** ** Stress chain *)

Section ChainFacts.
Variable env : Env.
Implicit Types (w : World).

Lemma submitStress_now (taskID : string) (f : StressFunc) w :
  let ans := pool_Submit env (length (calls w)) in
  submitStress env taskID 0 f w =
    (ans, set_stress (Submit taskID 0 f 0%Q ans (asyncStressExecutor w)).1
                     (logged [CallPoolSubmit "async-stress" taskID] w)).
Proof.
  intros ans. unfold submitStress, bind, ret, call. cbn [Z.ltb Z.compare].
  fold ans. cbn [logged asyncStressExecutor].
  pose proof (Submit_err taskID 0 f 0%Q ans (asyncStressExecutor w)) as He.
  destruct (Submit taskID 0 f 0%Q ans (asyncStressExecutor w)) as [e err].
  cbn in He. by subst.
Qed.

Lemma submitStop_now (taskID : string) (f : StopFunc) w :
  let ans := pool_Submit env (length (calls w)) in
  submitStop env taskID 0 f w =
    (ans, set_stop (Submit taskID 0 f 0%Q ans (asyncStopExecutor w)).1
                   (logged [CallPoolSubmit "async-stop" taskID] w)).
Proof.
  intros ans. unfold submitStop, bind, ret, call. cbn [Z.ltb Z.compare].
  fold ans. cbn [logged asyncStopExecutor].
  pose proof (Submit_err taskID 0 f 0%Q ans (asyncStopExecutor w)) as He.
  destruct (Submit taskID 0 f 0%Q ans (asyncStopExecutor w)) as [e err].
  cbn in He. by subst.
Qed.

Lemma Submit_results {T F} taskID delaySeconds (f : F) u ans (e : AsyncTaskExecutor T F) :
  results (Submit taskID delaySeconds f u ans e).1 = results e.
Proof. unfold Submit. by rewrite poolSubmit_results. Qed.

Lemma Submit_pool {T F} taskID delaySeconds (f : F) u (e : AsyncTaskExecutor T F) :
  default [] (pool (Submit taskID delaySeconds f u None e).1) =
  default [] (pool e) ++ [mkPoolTask taskID (actualDelay delaySeconds u) f].
Proof. unfold Submit. by rewrite poolSubmit_pool. Qed.


(** one round of a chain *)
Lemma stressRounds_cons (instanceID port : string) (n i : Z) (cfg : StressConfig)
      (cfgs : list StressConfig) (lastResp : option Shell2HttpResponse) w :
  let resp := execAnswer env instanceID port (length (calls w)) cfg in
  let w1 := logged [execCall instanceID port cfg] w in
  let w2 := if i <? n - 1
            then set_stress (Submit instanceID 0 (RoundResultFunc resp) 0%Q
                               (pool_Submit env (length (calls w1)))
                               (asyncStressExecutor w1)).1
                            (logged [CallPoolSubmit "async-stress" instanceID] w1)
            else w1 in
  stressRounds env instanceID port n i (cfg :: cfgs) lastResp w =
  stressRounds env instanceID port n (i + 1) cfgs (Some resp) w2.
Proof.
  cbn [stressRounds]. unfold bind, ExecShell2Http, call.
  destruct (i <? n - 1); [rewrite submitStress_now |]; reflexivity.
Qed.

(** the rounds of a chain, from any round on *)
Lemma stressRounds_spec (instanceID port : string) (n : Z) (lastCfg : StressConfig)
      (init : list StressConfig) : ∀ (i : Z) (lastResp : option Shell2HttpResponse) w,
  i + Z.of_nat (length init) + 1 = n →
  let L := length (calls w) in
  let r := stressRounds env instanceID port n i (init ++ [lastCfg]) lastResp w in
  r.1 = Some (execAnswer env instanceID port (L + 2 * length init) lastCfg) ∧
  calls r.2 = calls w
              ++ flat_map (λ cfg, [execCall instanceID port cfg;
                                   CallPoolSubmit "async-stress" instanceID]) init
              ++ [execCall instanceID port lastCfg] ∧
  asyncStopExecutor r.2 = asyncStopExecutor w ∧
  tm_cache r.2 = tm_cache w ∧
  results (asyncStressExecutor r.2) = results (asyncStressExecutor w) ∧
  (accepting env →
   default [] (pool (asyncStressExecutor r.2)) =
   default [] (pool (asyncStressExecutor w))
   ++ imap (λ k cfg, mkPoolTask instanceID 0%Q
                       (RoundResultFunc (execAnswer env instanceID port (L + 2 * k) cfg)))
           init).
Proof.
  induction init as [| cfg init IH]; intros i lastResp w Hn L r; subst L r;
    cbn [app]; rewrite stressRounds_cons; cbv zeta; cbn [length] in Hn.
  - destruct (Z.ltb_spec i (n - 1)); [lia |].
    cbn [stressRounds ret fst snd logged calls asyncStopExecutor asyncStressExecutor
         tm_cache length flat_map imap app].
    rewrite Nat.mul_0_r, Nat.add_0_r, app_nil_r. auto 10.
  - destruct (Z.ltb_spec i (n - 1)); [| lia].
    set (resp := execAnswer env instanceID port (length (calls w)) cfg).
    set (w2 := set_stress _ _).
    assert (Hlen : length (calls w2) = (length (calls w) + 2)%nat).
    { unfold w2. cbn [set_stress logged calls]. rewrite !length_app. cbn [length]. lia. }
    destruct (IH (i + 1) (Some resp) w2) as (H1 & H2 & H3 & H4 & H5 & H6); [lia |].
    rewrite Hlen in H1, H6. split; [| split; [| split; [| split; [| split]]]].
    + rewrite H1. f_equal. f_equal. cbn [length]. lia.
    + rewrite H2. unfold w2. cbn [set_stress logged calls flat_map].
      rewrite <- !app_assoc. reflexivity.
    + rewrite H3. reflexivity.
    + rewrite H4. reflexivity.
    + rewrite H5. unfold w2. cbn [set_stress asyncStressExecutor].
      rewrite Submit_results. reflexivity.
    + intros Hacc. rewrite (H6 Hacc). unfold w2. cbn [set_stress asyncStressExecutor].
      rewrite Hacc, Submit_pool. cbn [imap]. rewrite <- app_assoc.
      f_equal. cbn [app]. f_equal.
      * unfold resp. rewrite Nat.mul_0_r, Nat.add_0_r. reflexivity.
      * apply imap_ext. intros k c _. cbn. do 3 f_equal. lia.
Qed.


(** *** Parsing only reads the random source *)

Lemma logged_nil w : logged [] w = w.
Proof. destruct w. unfold logged. cbn. by rewrite app_nil_r. Qed.

Lemma applyJitter_logged (value jitterPct : Z) w :
  ∃ cs, (applyJitter env value jitterPct w).2 = logged cs w.
Proof.
  unfold applyJitter. destruct ((jitterPct <=? 0) || (value <=? 0)).
  - exists []. by rewrite logged_nil.
  - exists [CallRandFloat64]. reflexivity.
Qed.

Lemma applyConfigJitter_logged (cfg : StressConfig) w :
  ∃ cs, (applyConfigJitter env cfg w).2 = logged cs w.
Proof.
  unfold applyConfigJitter, bind.
  destruct (applyJitter_logged (sc_CPUWorkers cfg) (sc_Jitter cfg) w) as [cs1 H1].
  destruct (applyJitter env (sc_CPUWorkers cfg) (sc_Jitter cfg) w) as [v1 w1].
  cbn in H1. subst w1.
  destruct (applyJitter_logged (sc_CPULoad cfg) (sc_Jitter cfg) (logged cs1 w)) as [cs2 H2].
  destruct (applyJitter env (sc_CPULoad cfg) (sc_Jitter cfg) _) as [v2 w2].
  cbn in H2. subst w2. rewrite logged_logged.
  destruct (applyJitter_logged (sc_VMWorkers cfg) (sc_Jitter cfg) (logged (cs1 ++ cs2) w))
    as [cs3 H3].
  destruct (applyJitter env (sc_VMWorkers cfg) (sc_Jitter cfg) _) as [v3 w3].
  cbn in H3. subst w3. rewrite logged_logged.
  destruct (applyJitter_logged (sc_IOWorkers cfg) (sc_Jitter cfg)
              (logged ((cs1 ++ cs2) ++ cs3) w)) as [cs4 H4].
  destruct (applyJitter env (sc_IOWorkers cfg) (sc_Jitter cfg) _) as [v4 w4].
  cbn in H4. subst w4. rewrite logged_logged.
  destruct (applyJitter_logged (sc_Timeout cfg) (sc_Jitter cfg)
              (logged (((cs1 ++ cs2) ++ cs3) ++ cs4) w)) as [cs5 H5].
  destruct (applyJitter env (sc_Timeout cfg) (sc_Jitter cfg) _) as [v5 w5].
  cbn in H5. subst w5. rewrite logged_logged. cbn. eauto.
Qed.

Lemma parseConfigs_logged (configs : list (option (gmap string any))) :
  ∀ (acc : list StressConfig) w,
  Forall (λ config, ∃ cfg, parseStressConfig env config = Ok cfg) configs →
  ∃ cfgs cs, parseConfigs env configs acc w = (Ok (acc ++ cfgs), logged cs w) ∧
             length cfgs = length configs.
Proof.
  induction configs as [| config configs IH]; intros acc w Hall.
  - exists [], []. cbn. by rewrite app_nil_r, logged_nil.
  - inversion Hall as [| ? ? [cfg Hcfg] Hall']; subst.
    cbn [parseConfigs]. rewrite Hcfg. unfold bind.
    destruct (applyConfigJitter_logged cfg w) as [cs1 H1].
    destruct (applyConfigJitter env cfg w) as [cfg' w1]. cbn in H1. subst w1.
    destruct (IH (acc ++ [cfg']) (logged cs1 w) Hall') as (cfgs & cs2 & Hp & Hl).
    exists (cfg' :: cfgs), (cs1 ++ cs2). rewrite Hp, logged_logged, <- app_assoc.
    cbn. auto.
Qed.


(** *** The body of a chain *)

Lemma runStressFunc_chain_eq (instanceID port : string) (cfgs : list StressConfig) w :
  runStressFunc env (ChainFunc instanceID port cfgs) w =
  let r1 := stressRounds env instanceID port (Z.of_nat (length cfgs)) 0 cfgs None w in
  let r2 := submitStop env instanceID 0 (StopInstanceFunc instanceID) r1.2 in
  (r1.1, None, r2.2).
Proof.
  cbn [runStressFunc]. unfold bind, ret.
  destruct (stressRounds env instanceID port _ 0 cfgs None w) as [lastResp w1].
  cbn [fst snd]. destruct (submitStop env instanceID 0 _ w1) as [err w2]. reflexivity.
Qed.

Lemma runStressFunc_chain (instanceID port : string) (init : list StressConfig)
      (lastCfg : StressConfig) w :
  let L := length (calls w) in
  let r := runStressFunc env (ChainFunc instanceID port (init ++ [lastCfg])) w in
  r.1 = (Some (execAnswer env instanceID port (L + 2 * length init) lastCfg), None) ∧
  calls r.2 = calls w
              ++ flat_map (λ cfg, [execCall instanceID port cfg;
                                   CallPoolSubmit "async-stress" instanceID]) init
              ++ [execCall instanceID port lastCfg;
                  CallPoolSubmit "async-stop" instanceID] ∧
  results (asyncStressExecutor r.2) = results (asyncStressExecutor w) ∧
  results (asyncStopExecutor r.2) = results (asyncStopExecutor w) ∧
  (accepting env →
   default [] (pool (asyncStressExecutor r.2)) =
   default [] (pool (asyncStressExecutor w))
   ++ imap (λ k cfg, mkPoolTask instanceID 0%Q
                       (RoundResultFunc (execAnswer env instanceID port (L + 2 * k) cfg)))
           init ∧
   default [] (pool (asyncStopExecutor r.2)) =
   default [] (pool (asyncStopExecutor w))
   ++ [mkPoolTask instanceID 0%Q (StopInstanceFunc instanceID)]).
Proof.
  intros L r. subst r. rewrite runStressFunc_chain_eq. cbv zeta.
  destruct (stressRounds_spec instanceID port (Z.of_nat (length (init ++ [lastCfg])))
              lastCfg init 0 None w) as (H1 & H2 & H3 & H4 & H5 & H6).
  { rewrite length_app. cbn [length]. lia. }
  destruct (stressRounds env instanceID port _ 0 (init ++ [lastCfg]) None w)
    as [lastResp w1]. cbn [fst snd] in *. subst lastResp.
  rewrite submitStop_now. cbv zeta.
  cbn [fst snd set_stop logged calls asyncStressExecutor asyncStopExecutor].
  rewrite Submit_results, H2, H3, H5, <- !app_assoc. cbn [app].
  split; [reflexivity |]. split; [reflexivity |]. split; [reflexivity |].
  split; [reflexivity |]. intros Hacc. split; [exact (H6 Hacc) |].
  rewrite Hacc, Submit_pool. reflexivity.
Qed.

Lemma runStressFunc_empty_chain (instanceID port : string) w :
  let r := runStressFunc env (ChainFunc instanceID port []) w in
  results (asyncStressExecutor r.2) = results (asyncStressExecutor w) ∧
  results (asyncStopExecutor r.2) = results (asyncStopExecutor w) ∧
  (accepting env →
   default [] (pool (asyncStressExecutor r.2)) = default [] (pool (asyncStressExecutor w)) ∧
   default [] (pool (asyncStopExecutor r.2)) =
   default [] (pool (asyncStopExecutor w))
   ++ [mkPoolTask instanceID 0%Q (StopInstanceFunc instanceID)]).
Proof.
  intros r. subst r. rewrite runStressFunc_chain_eq. cbv zeta.
  cbn [stressRounds length ret fst snd]. rewrite submitStop_now. cbv zeta.
  cbn [fst snd set_stop logged calls asyncStressExecutor asyncStopExecutor].
  rewrite Submit_results. split; [reflexivity |]. split; [reflexivity |].
  intros Hacc. split; [reflexivity |]. rewrite Hacc, Submit_pool. reflexivity.
Qed.

Lemma sum_list_weight_const (l : list (PoolTask StressFunc)) (g : StressFunc → nat) (k : nat) :
  Forall (λ t, g (pt_taskFunc t) = k) l →
  sum_list_with (g ∘ pt_taskFunc) (l) = (k * length l)%nat.
Proof.
  induction 1 as [| t l Ht _ IH]; cbn; [lia |].
  cbn in IH. rewrite IH, Ht. lia.
Qed.

(** what a task function adds to the pools, counted in results owed *)
Lemma runStressFunc_owed (f : StressFunc) w :
  accepting env →
  let r := runStressFunc env f w in
  results (asyncStressExecutor r.2) = results (asyncStressExecutor w) ∧
  results (asyncStopExecutor r.2) = results (asyncStopExecutor w) ∧
  (sum_list_with (stressWeight ∘ pt_taskFunc) (default [] (pool (asyncStressExecutor r.2))) + 1 =
   sum_list_with (stressWeight ∘ pt_taskFunc) (default [] (pool (asyncStressExecutor w)))
   + stressWeight f)%nat ∧
  (length (default [] (pool (asyncStopExecutor r.2)))
   + sum_list_with (stopWeight ∘ pt_taskFunc) (default [] (pool (asyncStressExecutor r.2))) =
   length (default [] (pool (asyncStopExecutor w)))
   + sum_list_with (stopWeight ∘ pt_taskFunc) (default [] (pool (asyncStressExecutor w)))
   + stopWeight f)%nat.
Proof.
  intros Hacc r. subst r. destruct f as [instanceID port cfgs | resp].
  - destruct (decide (cfgs = [])) as [-> | Hne].
    + destruct (runStressFunc_empty_chain instanceID port w) as (H1 & H2 & H3).
      destruct (H3 Hacc) as [H4 H5]. rewrite H1, H2, H4, H5, length_app.
      cbn. repeat split; lia.
    + destruct (exists_last Hne) as (init & lastCfg & ->).
      destruct (runStressFunc_chain instanceID port init lastCfg w) as (_ & _ & H1 & H2 & H3).
      destruct (H3 Hacc) as [H4 H5]. rewrite H1, H2, H4, H5.
      rewrite !sum_list_with_app, !length_app.
      match goal with |- context [imap ?g init] => set (cl := imap g init) end.
      assert (Hcl : Forall (λ t, ∃ resp, pt_taskFunc t = RoundResultFunc resp) cl).
      { apply Forall_forall. intros t Ht.
        apply elem_of_lookup_imap in Ht as (k & c & -> & _). eauto. }
      rewrite (sum_list_weight_const cl stressWeight 1),
              (sum_list_weight_const cl stopWeight 0).
      * unfold cl. rewrite length_imap. cbn [stressWeight stopWeight length].
        rewrite length_app. cbn [length]. repeat split; lia.
      * eapply Forall_impl; [exact Hcl |]. by intros t [resp ->].
      * eapply Forall_impl; [exact Hcl |]. by intros t [resp ->].
  - cbn. repeat split; lia.
Qed.


(** *** Workers keep the count of results owed *)

Lemma sum_list_with_delete {A} (g : A → nat) (l : list A) : ∀ (i : nat) (x : A),
  l !! i = Some x → (sum_list_with g (delete i l) + g x = sum_list_with g l)%nat.
Proof.
  induction l as [| y l IH]; intros [| i] x H; try discriminate.
  - injection H as ->. cbn. lia.
  - specialize (IH i x H). change (delete (S i) (y :: l)) with (y :: delete i l).
    cbn [sum_list_with]. lia.
Qed.

Lemma stressWorker_eq (i : nat) w (p : list (PoolTask StressFunc)) (t : PoolTask StressFunc) :
  pool (asyncStressExecutor w) = Some p → p !! i = Some t →
  let w1 := logged [CallTimeNow]
              (set_stress (set_pool (asyncStressExecutor w) (delete i p)) w) in
  let r := runStressFunc env (pt_taskFunc t) w1 in
  let w3 := logged [CallTimeNow] r.2 in
  let rec := taskResult (pt_taskID t) r.1.1 r.1.2
               (unixMilli (time_Now env (length (calls w))))
               (unixMilli (time_Now env (length (calls r.2)))) in
  stressWorker env i w =
  Some (set_stress (addPending (-1) (bufferResult rec (asyncStressExecutor w3))) w3).
Proof.
  intros Hp Ht. unfold stressWorker. rewrite Hp. cbn [mbind option_bind]. rewrite Ht.
  cbn [mbind option_bind]. unfold timeNow, call.
  cbn [set_stress calls logged].
  destruct (runStressFunc env (pt_taskFunc t) _) as [[res err] w2]. reflexivity.
Qed.

Lemma stopWorker_eq (i : nat) w (p : list (PoolTask StopFunc)) (t : PoolTask StopFunc) :
  pool (asyncStopExecutor w) = Some p → p !! i = Some t →
  let w1 := logged [CallTimeNow]
              (set_stop (set_pool (asyncStopExecutor w) (delete i p)) w) in
  let r := runStopFunc env (pt_taskFunc t) w1 in
  let w3 := logged [CallTimeNow] r.2 in
  let rec := taskResult (pt_taskID t) r.1.1 r.1.2
               (unixMilli (time_Now env (length (calls w))))
               (unixMilli (time_Now env (length (calls r.2)))) in
  stopWorker env i w =
  Some (set_stop (addPending (-1) (bufferResult rec (asyncStopExecutor w3))) w3).
Proof.
  intros Hp Ht. unfold stopWorker. rewrite Hp. cbn [mbind option_bind]. rewrite Ht.
  cbn [mbind option_bind]. unfold timeNow, call.
  cbn [set_stop calls logged].
  destruct (runStopFunc env (pt_taskFunc t) _) as [[res err] w2]. reflexivity.
Qed.

Lemma stressWorker_owed (i : nat) w w' :
  accepting env → stressWorker env i w = Some w' →
  stressOwed w' = stressOwed w ∧ stopOwed w' = stopOwed w.
Proof.
  intros Hacc H.
  destruct (pool (asyncStressExecutor w)) as [p |] eqn:Hp;
    [| unfold stressWorker in H; rewrite Hp in H; discriminate].
  destruct (p !! i) as [t |] eqn:Ht;
    [| unfold stressWorker in H; rewrite Hp in H; cbn in H; rewrite Ht in H; discriminate].
  rewrite (stressWorker_eq i w p t Hp Ht) in H. cbv zeta in H. injection H as <-.
  set (w1 := logged [CallTimeNow] _) in *.
  destruct (runStressFunc_owed (pt_taskFunc t) w1 Hacc) as (H1 & H2 & H3 & H4).
  cbv zeta in H1, H2, H3, H4.
  pose proof (sum_list_with_delete (stressWeight ∘ pt_taskFunc) p i t Ht) as Hd1.
  pose proof (sum_list_with_delete (stopWeight ∘ pt_taskFunc) p i t Ht) as Hd2.
  unfold stressOwed, stopOwed.
  cbn [set_stress logged asyncStressExecutor asyncStopExecutor addPending bufferResult
       set_results results pool].
  rewrite length_app, H1, H2. cbn [length].
  unfold w1 in H3, H4 |- *.
  cbn [set_stress logged asyncStressExecutor asyncStopExecutor set_pool results pool
       default] in H3, H4 |- *.
  rewrite Hp. cbn [default compose] in *. unfold id in *. split; lia.
Qed.

Lemma runStopFunc_frame (f : StopFunc) w :
  ∃ cs, (runStopFunc env f w).2 = logged cs w.
Proof. destruct f. cbn. unfold bind, StopSandboxInstance, call, ret. eauto. Qed.

Lemma stopWorker_owed (i : nat) w w' :
  stopWorker env i w = Some w' →
  stressOwed w' = stressOwed w ∧ stopOwed w' = stopOwed w.
Proof.
  intros H.
  destruct (pool (asyncStopExecutor w)) as [p |] eqn:Hp;
    [| unfold stopWorker in H; rewrite Hp in H; discriminate].
  destruct (p !! i) as [t |] eqn:Ht;
    [| unfold stopWorker in H; rewrite Hp in H; cbn in H; rewrite Ht in H; discriminate].
  rewrite (stopWorker_eq i w p t Hp Ht) in H. cbv zeta in H. injection H as <-.
  set (w1 := logged [CallTimeNow] _) in *.
  destruct (runStopFunc_frame (pt_taskFunc t) w1) as [cs ->].
  unfold stressOwed, stopOwed, w1.
  cbn [set_stop set_stress logged asyncStressExecutor asyncStopExecutor addPending
       bufferResult set_results set_pool results pool default].
  rewrite length_app, Hp. cbn [length default]. unfold id.
  apply lookup_lt_Some in Ht as Hlt.
  rewrite length_delete by eauto. split; lia.
Qed.

Lemma runWorkers_owed (sched : list Pick) : ∀ w w',
  accepting env → runWorkers env sched w = Some w' →
  stressOwed w' = stressOwed w ∧ stopOwed w' = stopOwed w.
Proof.
  induction sched as [| pk sched IH]; intros w w' Hacc H.
  - cbn in H. by injection H as <-.
  - cbn [runWorkers] in H. destruct (worker env pk w) as [w1 |] eqn:E; [| discriminate].
    cbn in H. destruct (IH w1 w' Hacc H) as [H1 H2].
    assert (stressOwed w1 = stressOwed w ∧ stopOwed w1 = stopOwed w) as [H3 H4].
    { destruct pk; cbn [worker] in E; eauto using stressWorker_owed, stopWorker_owed. }
    split; congruence.
Qed.

Lemma quiescent_owed w :
  quiescent w →
  stressOwed w = length (results (asyncStressExecutor w)) ∧
  stopOwed w = length (results (asyncStopExecutor w)).
Proof.
  intros [H1 H2]. unfold stressOwed, stopOwed. rewrite H1, H2. cbn. lia.
Qed.


(** *** Submitting a chain *)

Lemma submitStress_accepting (taskID : string) (delaySeconds : Z) (f : StressFunc) w :
  accepting env →
  let r := submitStress env taskID delaySeconds f w in
  r.1 = None ∧
  results (asyncStressExecutor r.2) = results (asyncStressExecutor w) ∧
  asyncStopExecutor r.2 = asyncStopExecutor w ∧
  ∃ d, default [] (pool (asyncStressExecutor r.2)) =
       default [] (pool (asyncStressExecutor w)) ++ [mkPoolTask taskID d f].
Proof.
  intros Hacc r. subst r. unfold submitStress, bind.
  destruct (0 <? delaySeconds).
  - unfold randFloat64, call. rewrite Hacc. cbn [logged asyncStressExecutor].
    pose proof (Submit_err taskID delaySeconds f (rand_Float64 env (length (calls w))) None
                  (asyncStressExecutor w)) as He.
    pose proof (Submit_results taskID delaySeconds f (rand_Float64 env (length (calls w)))
                  None (asyncStressExecutor w)) as Hr.
    pose proof (Submit_pool taskID delaySeconds f (rand_Float64 env (length (calls w)))
                  (asyncStressExecutor w)) as Hq.
    destruct (Submit taskID delaySeconds f _ None (asyncStressExecutor w)) as [e err].
    cbn [fst snd set_stress asyncStressExecutor asyncStopExecutor logged] in *. eauto 10.
  - unfold ret, call. rewrite Hacc. cbn [logged asyncStressExecutor].
    pose proof (Submit_err taskID delaySeconds f 0%Q None (asyncStressExecutor w)) as He.
    pose proof (Submit_results taskID delaySeconds f 0%Q None (asyncStressExecutor w)) as Hr.
    pose proof (Submit_pool taskID delaySeconds f 0%Q (asyncStressExecutor w)) as Hq.
    destruct (Submit taskID delaySeconds f _ None (asyncStressExecutor w)) as [e err].
    cbn [fst snd set_stress asyncStressExecutor asyncStopExecutor logged] in *. eauto 10.
Qed.

Lemma RunAsyncStress_submits (instanceID port : string) (delaySeconds : Z)
      (configs : list (option (gmap string any))) w :
  accepting env → configs ≠ [] →
  Forall (λ config, ∃ cfg, parseStressConfig env config = Ok cfg) configs →
  let r := RunAsyncStress env instanceID port delaySeconds configs w in
  r.1 = None ∧
  results (asyncStressExecutor r.2) = results (asyncStressExecutor w) ∧
  asyncStopExecutor r.2 = asyncStopExecutor w ∧
  ∃ d stressConfigs,
    length stressConfigs = length configs ∧
    default [] (pool (asyncStressExecutor r.2)) =
    default [] (pool (asyncStressExecutor w))
    ++ [mkPoolTask instanceID d (ChainFunc instanceID port stressConfigs)].
Proof.
  intros Hacc Hne Hall r. subst r.
  destruct configs as [| config configs]; [done |].
  destruct (parseConfigs_logged (config :: configs) [] w Hall) as (cfgs & cs & Hp & Hl).
  assert (Heq : RunAsyncStress env instanceID port delaySeconds (config :: configs) w =
                submitStress env instanceID delaySeconds
                  (ChainFunc instanceID port cfgs) (logged cs w)).
  { unfold RunAsyncStress, bind. rewrite Hp. reflexivity. }
  rewrite Heq.
  destruct (submitStress_accepting instanceID delaySeconds
              (ChainFunc instanceID port cfgs) (logged cs w) Hacc) as (H1 & H2 & H3 & d & H4).
  split; [exact H1 |]. split; [exact H2 |]. split; [exact H3 |].
  exists d, cfgs. split; [exact Hl | exact H4].
Qed.


(** what a worker appends for a closure of the stress pool *)
Lemma stressWorker_appends (i : nat) w (p : list (PoolTask StressFunc))
      (t : PoolTask StressFunc) :
  accepting env →
  pool (asyncStressExecutor w) = Some p → p !! i = Some t →
  ∃ w' rec,
    stressWorker env i w = Some w' ∧
    results (asyncStressExecutor w') = results (asyncStressExecutor w) ++ [rec] ∧
    atr_TaskID rec = pt_taskID t ∧
    match pt_taskFunc t with
    | RoundResultFunc resp => atr_Result rec = Some resp ∧ atr_Error rec = ""
    | ChainFunc instanceID port stressConfigs =>
        ∀ init lastCfg, stressConfigs = init ++ [lastCfg] →
          atr_Result rec =
            Some (execAnswer env instanceID port
                    (length (calls w) + 1 + 2 * length init) lastCfg) ∧
          atr_Error rec = ""
    end.
Proof.
  intros Hacc Hp Ht. rewrite (stressWorker_eq i w p t Hp Ht). cbv zeta.
  set (w1 := logged [CallTimeNow] _).
  eexists _, _. split; [reflexivity |].
  destruct (runStressFunc_owed (pt_taskFunc t) w1 Hacc) as (H1 & _).
  cbv zeta in H1.
  cbn [set_stress logged asyncStressExecutor addPending bufferResult set_results results].
  rewrite H1. unfold w1 at 1.
  cbn [set_stress logged asyncStressExecutor set_pool results]. split; [reflexivity |].
  split; [reflexivity |].
  destruct (pt_taskFunc t) as [instanceID port cfgs | resp].
  - intros init lastCfg ->.
    destruct (runStressFunc_chain instanceID port init lastCfg w1) as (Hr & _).
    cbv zeta in Hr. rewrite Hr. cbn [taskResult atr_Result atr_Error fst snd default].
    unfold w1. cbn [logged calls set_stress]. rewrite length_app. cbn [length]. auto.
  - cbn. auto.
Qed.


End ChainFacts.


(** * Further properties *)

Section LedgerFacts.

Context {T F : Type}.

Lemma bufferResult_pool (r : AsyncTaskResult T) (e : AsyncTaskExecutor T F) :
  pool (bufferResult r e) = pool e.
Proof. reflexivity. Qed.

Lemma addPending_pool d (e : AsyncTaskExecutor T F) : pool (addPending d e) = pool e.
Proof. reflexivity. Qed.

Lemma GetResults_pool (e : AsyncTaskExecutor T F) : pool (GetResults e).2 = pool e.
Proof. unfold GetResults. destruct (results e); reflexivity. Qed.

Lemma step_ledger (s : System T F) ev s1 o n a r b :
  ledger s n a r b → step s ev = Some (s1, o) →
  ledger s1 (n + if is_submit ev then 1 else 0)
            (a + if is_accept ev then 1 else 0)
            (r + if is_refusal ev then 1 else 0)
            (b + if is_buffer ev then 1 else 0).
Proof.
  intros [Hs Hp] Hstep. unfold ledger.
  destruct ev as [taskID delaySeconds taskFunc u | i ans | i res err t0 t1 | | |]; cbn in Hstep.
  - inversion Hstep; subst; clear Hstep. cbn [sys_submitting sys_exec].
    rewrite length_app, addPending_pool. cbn. split; lia.
  - destruct (sys_submitting s !! i) as [t|] eqn:Hi; cbn in Hstep; [|discriminate].
    inversion Hstep; subst; clear Hstep. cbn [sys_submitting sys_exec].
    rewrite length_delete by (rewrite Hi; eauto).
    rewrite poolSubmit_pool, length_app.
    apply lookup_lt_Some in Hi.
    destruct ans as [e|]; cbn; split; lia.
  - destruct (pool (sys_exec s)) as [p|] eqn:Hp0; cbn in Hstep; [|discriminate].
    destruct (p !! i) as [t|] eqn:Hi; cbn in Hstep; [|discriminate].
    inversion Hstep; subst; clear Hstep. cbn [sys_submitting sys_exec].
    rewrite bufferResult_pool. cbn [pool set_pool default]. unfold id.
    rewrite length_delete by (rewrite Hi; eauto).
    apply lookup_lt_Some in Hi. cbn in Hp. split; cbn; lia.
  - destruct (sys_finishing s) as [|k] eqn:Hk; [discriminate|].
    inversion Hstep; subst; clear Hstep. cbn [sys_submitting sys_exec].
    rewrite addPending_pool. cbn. split; lia.
  - destruct (GetResults (sys_exec s)) as [rs e] eqn:Hg.
    inversion Hstep; subst; clear Hstep. cbn [sys_submitting sys_exec].
    replace e with (GetResults (sys_exec s)).2 by (rewrite Hg; reflexivity).
    rewrite GetResults_pool. cbn. split; lia.
  - inversion Hstep; subst; clear Hstep. cbn. split; lia.
Qed.

Lemma run_ledger (evs : list (Event T F)) : ∀ s s' os n a r b,
  ledger s n a r b → run s evs = Some (s', os) →
  ledger s' (n + count_events is_submit evs) (a + count_events is_accept evs)
            (r + count_events is_refusal evs) (b + count_events is_buffer evs).
Proof.
  induction evs as [|ev evs IH]; intros s s' os n a r b Hl Hrun.
  - cbn in Hrun. inversion Hrun; subst. rewrite !count_events_nil, !Z.add_0_r. exact Hl.
  - apply run_cons in Hrun as (s1 & o & os1 & Hstep & Hrest & ->).
    rewrite !count_events_cons, !Z.add_assoc.
    eapply IH; [|exact Hrest]. eapply step_ledger; eauto.
Qed.

Lemma initial_ledger nm size : ledger (@initial T F nm size) 0 0 0 0.
Proof. unfold ledger, initial, NewAsyncTaskExecutor. cbn. split; reflexivity. Qed.

(** X1. A submission that the pool refuses stays in the pending count for
    good: after any run from a fresh executor the counter equals the work
    still under way plus the number of refused submissions, so once
    nothing is under way it reads the number of refusals, and reads zero
    exactly when there was none. *)
Theorem refused_submit_stays_pending (nm : string) (size : Z)
        (evs : list (Event T F)) s os :
  run (initial nm size) evs = Some (s, os) →
  count_events is_submit evs < 2 ^ 63 →
  GetPendingCount (sys_exec s) = inFlight s + count_events is_refusal evs ∧
  (idle s → GetPendingCount (sys_exec s) = count_events is_refusal evs) ∧
  (idle s → (GetPendingCount (sys_exec s) = 0 ↔ count_events is_refusal evs = 0)).
Proof.
  intros Hrun Hn.
  pose proof (run_accounted evs _ _ _ 0 0 0 (initial_accounted nm size)
                ltac:(rewrite Z.add_0_l; exact Hn) Hrun) as (_ & Hpc & Hfin & _).
  pose proof (run_ledger evs _ _ _ 0 0 0 0 (initial_ledger nm size) Hrun) as [Hs Hp].
  rewrite !Z.add_0_l in *.
  assert (Hall : GetPendingCount (sys_exec s) = inFlight s + count_events is_refusal evs).
  { unfold GetPendingCount, inFlight. lia. }
  split; [exact Hall|].
  assert (Hidle : idle s → inFlight s = 0).
  { intros (H1 & H2 & H3). unfold inFlight. rewrite H1, H2, H3. reflexivity. }
  split.
  - intros Hi. rewrite Hall, (Hidle Hi). lia.
  - intros Hi. rewrite Hall, (Hidle Hi). lia.
Qed.

End LedgerFacts.

(** A run to try it on: the first of two submissions is refused, the
    second runs to its end. *)
Lemma refused_submit_stays_pending_witness :
  let evs : list (Event Z unit) :=
    [EvSubmitCount "a" 0 () 0%Q; EvSubmitPool 0 (Some "pool closed");
     EvSubmitCount "b" 0 () 0%Q; EvSubmitPool 0 None;
     EvBuffer 0 7 None 10 12; EvDecrement] in
  ∃ s os, run (initial "x" 0) evs = Some (s, os) ∧
          GetPendingCount (sys_exec s) = inFlight s + 1.
Proof.
  intros evs.
  destruct (run (initial "x" 0) evs) as [[s os] |] eqn:E; [| discriminate E].
  exists s, os. split; [reflexivity |].
  assert (Hlt : count_events is_submit evs < 2 ^ 63) by reflexivity.
  destruct (refused_submit_stays_pending "x" 0 evs s os E Hlt) as (H & _).
  rewrite H. reflexivity.
Defined.

Module F64Error.
Import F64 F64Facts.
Local Open Scope Q_scope.

Lemma unit_roundoff_pow2 : unit_roundoff == pow2 (- prec).
Proof. reflexivity. Qed.

Lemma rnd_half_even_near x :
  inject_Z (rnd_half_even x) - x <= 1 # 2 /\ x - inject_Z (rnd_half_even x) <= 1 # 2.
Proof.
  unfold rnd_half_even.
  pose proof (Qfloor_le x) as Hl. pose proof (Qlt_floor x) as Hu.
  rewrite inject_Z_plus in Hu. change (inject_Z 1) with 1 in Hu.
  destruct (Qcompare_spec (x - inject_Z (Qfloor x)) (1 # 2)) as [H | H | H].
  - destruct (Z.even (Qfloor x)).
    + split; lra.
    + rewrite inject_Z_plus. change (inject_Z 1) with 1. split; lra.
  - split; lra.
  - rewrite inject_Z_plus. change (inject_Z 1) with 1. split; lra.
Qed.

Lemma ilog2_normal x : pow2 emin <= x -> (emin <= ilog2 x)%Z.
Proof.
  intros H.
  assert (Hx : 0 < x) by (eapply Qlt_le_trans; [apply pow2_pos | exact H]).
  destruct (Z_lt_le_dec (ilog2 x) emin) as [Hlt | Hle]; [exfalso | exact Hle].
  destruct (ilog2_spec x Hx) as [_ Hup].
  apply (Qlt_irrefl x). eapply Qlt_le_trans; [exact Hup |].
  eapply Qle_trans; [| exact H]. apply pow2_le. lia.
Qed.

(** One rounding of a positive number in the normal range moves it by at
    most [unit_roundoff] of itself. *)
Lemma round_pos_rel x :
  pow2 emin <= x ->
  x * (1 - unit_roundoff) <= round_pos x /\ round_pos x <= x * (1 + unit_roundoff).
Proof.
  intros Hn.
  assert (Hx : 0 < x) by (eapply Qlt_le_trans; [apply pow2_pos | exact Hn]).
  pose proof (ilog2_normal x Hn) as He.
  destruct (ilog2_spec x Hx) as [Hlo _].
  unfold round_pos, ulp_exp. rewrite Z.max_l by exact He.
  set (s := (ilog2 x - (prec - 1))%Z).
  pose proof (pow2_pos s) as HP.
  destruct (rnd_half_even_near (x / pow2 s)) as [H1 H2].
  set (R := inject_Z (rnd_half_even (x / pow2 s))) in *.
  assert (Hy : x / pow2 s * pow2 s == x) by (field; lra).
  assert (Hhalf : (1 # 2) * pow2 s <= x * unit_roundoff).
  { assert (E : (1 # 2) * pow2 s == pow2 (ilog2 x) * unit_roundoff).
    { rewrite unit_roundoff_pow2, <- pow2_add.
      replace (ilog2 x + - prec)%Z with (-1 + s)%Z by (unfold s, prec; lia).
      rewrite pow2_add. reflexivity. }
    rewrite E. apply Qmult_le_compat_r; [exact Hlo | discriminate]. }
  assert (G1 : (R - x / pow2 s) * pow2 s <= (1 # 2) * pow2 s)
    by (apply Qmult_le_compat_r; lra).
  assert (G2 : (x / pow2 s - R) * pow2 s <= (1 # 2) * pow2 s)
    by (apply Qmult_le_compat_r; lra).
  assert (F1 : (R - x / pow2 s) * pow2 s == R * pow2 s - x) by (rewrite <- Hy at 2; ring).
  assert (F2 : (x / pow2 s - R) * pow2 s == x - R * pow2 s) by (rewrite <- Hy at 2; ring).
  rewrite F1 in G1. rewrite F2 in G2.
  split; lra.
Qed.

Lemma round_pos_eq x : 0 < x -> round x = round_pos x.
Proof.
  intros Hx. unfold round. destruct x as [[| n | n] d]; cbn [Qnum];
    [exfalso; apply (Qlt_irrefl 0), Hx | reflexivity |
     exfalso; unfold Qlt in Hx; cbn in Hx; lia].
Qed.

Lemma round_rel x :
  pow2 emin <= x ->
  x * (1 - unit_roundoff) <= round x /\ round x <= x * (1 + unit_roundoff).
Proof.
  intros Hn.
  assert (Hx : 0 < x) by (eapply Qlt_le_trans; [apply pow2_pos | exact Hn]).
  rewrite (round_pos_eq x Hx). apply round_pos_rel, Hn.
Qed.

Lemma round_opp x : round (- x) == - round x.
Proof.
  unfold round. destruct x as [[| n | n] d]; cbn [Qnum Qopp Z.opp].
  - reflexivity.
  - reflexivity.
  - symmetry. apply Qopp_involutive.
Qed.

Lemma normal_eighth x : 1 # 8 <= x -> pow2 emin <= x.
Proof.
  intros H. eapply Qle_trans; [| exact H].
  eapply Qle_trans; [apply (pow2_le emin (-3)); unfold emin; lia |].
  unfold pow2. cbn. discriminate.
Qed.

(** The delay [Submit] computes for a positive number of seconds. *)
Lemma actualDelay_window (d : Z) (u : Q) :
  (0 < d < 2 ^ 53)%Z -> unit_draw u ->
  (4 # 5) * inject_Z d * (1 - 8 * unit_roundoff) <= actualDelay d u /\
  actualDelay d u <= (6 # 5) * inject_Z d * (1 + 8 * unit_roundoff).
Proof.
  intros Hd Hu. unfold actualDelay.
  destruct (0 <? d)%Z eqn:E; [| apply Z.ltb_ge in E; lia]. clear E.
  set (D := inject_Z d).
  assert (HD : 1 <= D) by (unfold D; rewrite <- (Zle_Qle 1); lia).
  assert (Eof : of_int d == D) by (apply round_int; lia).
  (* the literal 0.2 *)
  assert (Hc : (1 # 5) * (1 - unit_roundoff) <= lit (1 # 5)
               /\ lit (1 # 5) <= (1 # 5) * (1 + unit_roundoff)).
  { apply round_rel, normal_eighth. discriminate. }
  set (c := lit (1 # 5)) in *.
  (* the jitter *)
  set (jitter := mul (of_int d) c).
  assert (Hj : D * c * (1 - unit_roundoff) <= jitter /\ jitter <= D * c * (1 + unit_roundoff)).
  { unfold jitter, mul. rewrite Eof. apply round_rel, normal_eighth.
    assert (1 * ((1 # 5) * (1 - unit_roundoff)) <= D * c).
    { apply Qmult_le_compat_nonneg; split; try lra; unfold unit_roundoff; lra. }
    unfold unit_roundoff in *. lra. }
  assert (Hc1 : D * ((1 # 5) * (1 - unit_roundoff)) <= D * c)
    by (apply Qmult_le_l; lra).
  assert (Hc2 : D * c <= D * ((1 # 5) * (1 + unit_roundoff)))
    by (apply Qmult_le_l; lra).
  set (Dc := D * c) in *.
  (* the signed share of it *)
  destruct (sign_factor u Hu) as [Hs1 Hs2].
  set (s := sub (mul u 2) 1) in *.
  assert (Hjn : 1 # 8 <= jitter) by (unfold unit_roundoff in *; lra).
  destruct (scaled_within s jitter jitter Hs1 Hs2 ltac:(lra) ltac:(lra)) as [Hp1 Hp2].
  destruct (round_rel jitter (normal_eighth _ Hjn)) as [_ Hrj].
  assert (Hdl : - (jitter * (1 + unit_roundoff)) <= mul s jitter
                /\ mul s jitter <= jitter * (1 + unit_roundoff)).
  { unfold mul. split.
    - eapply Qle_trans; [| apply round_mono, Hp1]. rewrite round_opp. lra.
    - eapply Qle_trans; [apply round_mono, Hp2 | exact Hrj]. }
  set (delta := mul s jitter) in *.
  (* the sum *)
  assert (Hsum : 1 # 8 <= D + delta) by (unfold unit_roundoff in *; lra).
  destruct (round_rel (D + delta) (normal_eighth _ Hsum)) as [Ha1 Ha2].
  assert (Ea : add (of_int d) delta == round (D + delta)).
  { unfold add. rewrite Eof. reflexivity. }
  assert (Hpos : 0 <= add (of_int d) delta).
  { rewrite Ea. unfold unit_roundoff in *. lra. }
  apply Qle_bool_iff in Hpos. rewrite Hpos. rewrite Ea.
  unfold unit_roundoff in *. split; lra.
Qed.

End F64Error.

(** X6. The delay of a submitted task.  [Submit] hands the pool a closure
    that carries the task's identifier, its function and the delay
    computed from the seconds asked for: none when they are not
    positive, and otherwise, whatever the random draw, a delay within a
    fifth of them, up to the rounding of the four binary64 operations
    (eight units of round-off). *)
Theorem Submit_delay_window {T F : Type} (taskID : string) (delaySeconds : Z)
        (taskFunc : F) (u : Q) (e : AsyncTaskExecutor T F) :
  F64.unit_draw u →
  let t := mkPoolTask taskID (actualDelay delaySeconds u) taskFunc in
  default [] (pool (Submit taskID delaySeconds taskFunc u None e).1)
  = default [] (pool e) ++ [t] ∧
  (delaySeconds <= 0 → pt_actualDelay t = 0%Q) ∧
  (0 < delaySeconds < 2 ^ 53 →
   ((4 # 5) * inject_Z delaySeconds * (1 - 8 * unit_roundoff) <= pt_actualDelay t ∧
    pt_actualDelay t <= (6 # 5) * inject_Z delaySeconds * (1 + 8 * unit_roundoff))%Q).
Proof.
  intros Hu t. split; [apply Submit_pool|]. split.
  - intros Hd. cbn. unfold actualDelay.
    destruct (0 <? delaySeconds) eqn:E; [apply Z.ltb_lt in E; lia | reflexivity].
  - intros Hd. cbn [pt_actualDelay t]. apply F64Error.actualDelay_window; assumption.
Qed.

Lemma Submit_delay_window_witness :
  (8 * (1 - 8 * unit_roundoff) <= actualDelay 10 (1 # 4)
   ∧ actualDelay 10 (1 # 4) <= 12 * (1 + 8 * unit_roundoff))%Q.
Proof.
  assert (Hu : F64.unit_draw (1 # 4)) by (split; [discriminate | reflexivity]).
  destruct (Submit_delay_window "t" 10 () (1 # 4) (@NewAsyncTaskExecutor Z unit "x" 0) Hu)
    as (_ & _ & H).
  destruct (H ltac:(lia)) as [H1 H2]. cbn [pt_actualDelay] in H1, H2.
  split.
  - eapply Qle_trans; [|exact H1]. apply Qle_bool_imp_le. vm_compute. reflexivity.
  - eapply Qle_trans; [exact H2|]. apply Qle_bool_imp_le. vm_compute. reflexivity.
Defined.

Section StressConfigFacts.

Variable env : Env.

Lemma applyJitter_keeps (value jitterPct : Z) w :
  jitterPct <= 0 ∨ value <= 0 → applyJitter env value jitterPct w = (value, w).
Proof.
  intros H. unfold applyJitter.
  destruct (jitterPct <=? 0) eqn:Hj; [reflexivity|].
  destruct (value <=? 0) eqn:Hv; [reflexivity|]. lia.
Qed.

Lemma applyJitter_draws (value jitterPct : Z) w :
  0 < jitterPct → 0 < value →
  1 <= (applyJitter env value jitterPct w).1 ∧
  (applyJitter env value jitterPct w).2 = logged [CallRandFloat64] w.
Proof.
  intros Hj Hv. unfold applyJitter.
  destruct (jitterPct <=? 0) eqn:Ej; [lia|].
  destruct (value <=? 0) eqn:Ev; [lia|]. cbn.
  split; [|reflexivity]. case_match; lia.
Qed.

(** One field through [applyJitter]: the value, and the world with the
    draw it cost. *)
Lemma applyJitter_field (value jitterPct : Z) w :
  ∃ r, applyJitter env value jitterPct w =
       (r, logged (replicate (length (filter (λ v, 0 < v) [value])
                              * (if jitterPct <=? 0 then 0 else 1)) CallRandFloat64) w) ∧
       (jitterPct <= 0 ∨ value <= 0 → r = value) ∧
       (0 < jitterPct → 0 < value → 1 <= r).
Proof.
  destruct (decide (jitterPct <= 0 ∨ value <= 0)) as [H|H].
  - exists value. rewrite applyJitter_keeps by exact H.
    split; [|split; [reflexivity | lia]].
    f_equal. destruct H as [H|H].
    + destruct (jitterPct <=? 0) eqn:E; [|lia]. rewrite Nat.mul_0_r. symmetry. apply logged_nil.
    + rewrite filter_cons_False by lia. cbn. symmetry. apply logged_nil.
  - assert (Hj : 0 < jitterPct) by lia. assert (Hv : 0 < value) by lia.
    destruct (applyJitter_draws value jitterPct w Hj Hv) as [H1 H2].
    exists (applyJitter env value jitterPct w).1.
    split; [|split; [lia | intros; exact H1]].
    destruct (applyJitter env value jitterPct w) as [r w'] eqn:E. cbn [fst snd] in *. subst w'.
    rewrite filter_cons_True by lia. cbn [filter length]. destruct (jitterPct <=? 0) eqn:Ej; [lia|]. reflexivity.
Qed.

Lemma clamp_range (v lo hi : Z) : lo <= hi → lo <= clamp v lo hi <= hi.
Proof. intros H. unfold clamp. repeat case_match; lia. Qed.

Lemma clamp_fixed (v lo hi : Z) : lo <= v <= hi → clamp v lo hi = v.
Proof. intros H. unfold clamp. repeat case_match; lia. Qed.

Lemma replicate_add_logged (a b : nat) (c : Call) w :
  logged (replicate b c) (logged (replicate a c) w) = logged (replicate (a + b) c) w.
Proof. rewrite logged_logged, replicate_add. reflexivity. Qed.

(** [applyConfigJitter], field by field. *)
Lemma applyConfigJitter_fields (cfg : StressConfig) w :
  ∃ cpuWorkers cpuLoad vmWorkers ioWorkers timeout,
    applyConfigJitter env cfg w =
      ({| sc_CPUWorkers := cpuWorkers; sc_CPULoad := clamp cpuLoad 1 100;
          sc_VMWorkers := vmWorkers; sc_VMBytes := sc_VMBytes cfg;
          sc_IOWorkers := ioWorkers; sc_Timeout := timeout; sc_Jitter := 0 |},
       logged (replicate (jitterDraws cfg) CallRandFloat64) w) ∧
    Forall2 (λ v r, (sc_Jitter cfg <= 0 ∨ v <= 0 → r = v) ∧
                    (0 < sc_Jitter cfg → 0 < v → 1 <= r))
            (jitteredFields cfg) [cpuWorkers; cpuLoad; vmWorkers; ioWorkers; timeout].
Proof.
  unfold applyConfigJitter, bind.
  destruct (applyJitter_field (sc_CPUWorkers cfg) (sc_Jitter cfg) w) as (r1 & E1 & K1 & P1).
  rewrite E1. set (w1 := logged _ w) in *.
  destruct (applyJitter_field (sc_CPULoad cfg) (sc_Jitter cfg) w1) as (r2 & E2 & K2 & P2).
  rewrite E2. set (w2 := logged _ w1) in *.
  destruct (applyJitter_field (sc_VMWorkers cfg) (sc_Jitter cfg) w2) as (r3 & E3 & K3 & P3).
  rewrite E3. set (w3 := logged _ w2) in *.
  destruct (applyJitter_field (sc_IOWorkers cfg) (sc_Jitter cfg) w3) as (r4 & E4 & K4 & P4).
  rewrite E4. set (w4 := logged _ w3) in *.
  destruct (applyJitter_field (sc_Timeout cfg) (sc_Jitter cfg) w4) as (r5 & E5 & K5 & P5).
  rewrite E5. set (w5 := logged _ w4) in *.
  exists r1, r2, r3, r4, r5. split.
  - unfold ret. f_equal. subst w5 w4 w3 w2 w1.
    rewrite !replicate_add_logged. f_equal. f_equal.
    unfold jitterDraws, jitteredFields.
    destruct (sc_Jitter cfg <=? 0); [lia|].
    rewrite !Nat.mul_1_r.
    change [sc_CPUWorkers cfg; sc_CPULoad cfg; sc_VMWorkers cfg; sc_IOWorkers cfg; sc_Timeout cfg]
      with ([sc_CPUWorkers cfg] ++ [sc_CPULoad cfg] ++ [sc_VMWorkers cfg]
            ++ [sc_IOWorkers cfg] ++ [sc_Timeout cfg]).
    rewrite !filter_app, !length_app. lia.
  - unfold jitteredFields. repeat constructor; assumption.
Qed.

(** X2. Whatever it is given, [applyConfigJitter] returns a configuration
    with the jitter percentage cleared, the memory size untouched and the
    CPU load between 1 and 100; a count or duration that was positive
    stays at least 1 and one that was not is returned as it was; it draws
    one random number for each positive field, and none when the
    percentage is not positive; and applied to its own result it changes
    nothing and draws nothing. *)
Theorem applyConfigJitter_shape (cfg : StressConfig) (w : World) :
  let c := (applyConfigJitter env cfg w).1 in
  sc_Jitter c = 0 ∧ sc_VMBytes c = sc_VMBytes cfg ∧
  1 <= sc_CPULoad c <= 100 ∧
  Forall (λ field : StressConfig → Z,
            (sc_Jitter cfg <= 0 ∨ field cfg <= 0 → field c = field cfg) ∧
            (0 < sc_Jitter cfg → 0 < field cfg → 1 <= field c)) countFields ∧
  (applyConfigJitter env cfg w).2 = logged (replicate (jitterDraws cfg) CallRandFloat64) w ∧
  (∀ w', applyConfigJitter env c w' = (c, w')).
Proof.
  destruct (applyConfigJitter_fields cfg w) as (r1 & r2 & r3 & r4 & r5 & E & HF).
  rewrite E. cbn zeta. cbn [fst snd sc_Jitter sc_VMBytes sc_CPULoad].
  unfold jitteredFields in HF.
  apply Forall2_cons in HF as [H1 HF]. apply Forall2_cons in HF as [H2 HF].
  apply Forall2_cons in HF as [H3 HF]. apply Forall2_cons in HF as [H4 HF].
  apply Forall2_cons in HF as [H5 _].
  split; [reflexivity|]. split; [reflexivity|].
  split; [apply clamp_range; lia|].
  split; [unfold countFields; repeat constructor; cbn; tauto|].
  split; [reflexivity|].
  intros w'.
  set (c := {| sc_CPUWorkers := r1; sc_CPULoad := clamp r2 1 100; sc_VMWorkers := r3;
               sc_VMBytes := sc_VMBytes cfg; sc_IOWorkers := r4; sc_Timeout := r5;
               sc_Jitter := 0 |}).
  destruct (applyConfigJitter_fields c w') as (q1 & q2 & q3 & q4 & q5 & E' & HF').
  rewrite E'. unfold jitteredFields in HF'.
  apply Forall2_cons in HF' as [G1 HF']. apply Forall2_cons in HF' as [G2 HF'].
  apply Forall2_cons in HF' as [G3 HF']. apply Forall2_cons in HF' as [G4 HF'].
  apply Forall2_cons in HF' as [G5 _].
  cbn in G1, G2, G3, G4, G5.
  rewrite (proj1 G1), (proj1 G2), (proj1 G3), (proj1 G4), (proj1 G5) by lia.
  rewrite clamp_fixed by (apply clamp_range; lia).
  unfold jitterDraws. cbn. rewrite logged_nil. reflexivity.
Qed.


(** One field through [applyJitter] inside the range where the binary64
    arithmetic is exact enough: the result stays within the percentage. *)
Lemma applyJitter_window (v j : Z) w :
  0 < v <= 2 ^ 44 → 0 < j <= 100 →
  F64.unit_draw (rand_Float64 env (length (calls w))) →
  ∃ r, applyJitter env v j w = (r, logged [CallRandFloat64] w) ∧
       v * (100 - j) / 100 <= r ∧ 100 * r <= v * (100 + j) ∧ 1 <= r.
Proof.
  intros Hv Hj Hu.
  pose proof (F64Facts.jitter_bounds v j _ Hv Hj Hu) as HB. cbn zeta in HB.
  unfold applyJitter.
  destruct (j <=? 0) eqn:Ej; [lia|]. destruct (v <=? 0) eqn:Ev; [lia|].
  cbn [orb]. unfold bind, randFloat64, call, ret.
  eexists. split; [reflexivity|].
  case_match; nia.
Qed.

(** The default configuration through [applyConfigJitter]. *)
Lemma default_jitter (w : World) :
  (∀ k, (k < 5)%nat → F64.unit_draw (rand_Float64 env (length (calls w) + k))) →
  ∃ cfg,
    applyConfigJitter env DefaultStressConfig w =
      (cfg, logged (replicate 5 CallRandFloat64) w) ∧
    1 <= sc_CPUWorkers cfg <= 2 ∧ 40 <= sc_CPULoad cfg <= 60 ∧
    sc_VMWorkers cfg = 1 ∧ sc_VMBytes cfg = "128M" ∧ sc_IOWorkers cfg = 1 ∧
    24 <= sc_Timeout cfg <= 36 ∧ sc_Jitter cfg = 0.
Proof.
  intros Hu.
  assert (Hlen : ∀ k, length (calls (logged (replicate k CallRandFloat64) w))
                      = (length (calls w) + k)%nat).
  { intros k. cbn. rewrite length_app, length_replicate. reflexivity. }
  assert (Hstep : ∀ k, logged [CallRandFloat64] (logged (replicate k CallRandFloat64) w)
                       = logged (replicate (S k) CallRandFloat64) w).
  { intros k. rewrite logged_logged.
    change [CallRandFloat64] with (replicate 1 CallRandFloat64).
    rewrite <- replicate_add. f_equal. f_equal. lia. }
  destruct (applyJitter_window 2 20 (logged (replicate 0 CallRandFloat64) w))
    as (r1 & E1 & L1 & U1 & P1); [lia | lia | rewrite Hlen; apply Hu; lia |].
  destruct (applyJitter_window 50 20 (logged (replicate 1 CallRandFloat64) w))
    as (r2 & E2 & L2 & U2 & P2); [lia | lia | rewrite Hlen; apply Hu; lia |].
  destruct (applyJitter_window 1 20 (logged (replicate 2 CallRandFloat64) w))
    as (r3 & E3 & L3 & U3 & P3); [lia | lia | rewrite Hlen; apply Hu; lia |].
  destruct (applyJitter_window 1 20 (logged (replicate 3 CallRandFloat64) w))
    as (r4 & E4 & L4 & U4 & P4); [lia | lia | rewrite Hlen; apply Hu; lia |].
  destruct (applyJitter_window 30 20 (logged (replicate 4 CallRandFloat64) w))
    as (r5 & E5 & L5 & U5 & P5); [lia | lia | rewrite Hlen; apply Hu; lia |].
  rewrite Hstep in E1, E2, E3, E4, E5.
  change (replicate 0 CallRandFloat64) with (@nil Call) in E1. rewrite logged_nil in E1.
  unfold applyConfigJitter, DefaultStressConfig.
  cbn [sc_Jitter sc_CPUWorkers sc_CPULoad sc_VMWorkers sc_IOWorkers sc_Timeout sc_VMBytes].
  unfold bind. rewrite E1, E2, E3, E4, E5. unfold ret.
  eexists. split; [reflexivity|].
  cbn [sc_Jitter sc_CPUWorkers sc_CPULoad sc_VMWorkers sc_IOWorkers sc_Timeout sc_VMBytes].
  change (2 * (100 - 20) / 100) with 1 in L1.
  change (50 * (100 - 20) / 100) with 40 in L2.
  change (30 * (100 - 20) / 100) with 24 in L5.
  rewrite clamp_fixed by lia.
  repeat split; try lia; reflexivity.
Qed.

(** X3. With no configuration, [RunAsyncStress] runs one round, with the
    default configuration jittered by a fifth: one or two CPU workers at
    40 to 60 percent, one memory worker of 128M, one IO worker, for 24 to
    36 seconds.  It reads five random numbers and submits the chain. *)
Theorem RunAsyncStress_default_round (instanceID port : string) (delaySeconds : Z)
        (w : World) :
  (∀ k, (k < 5)%nat → F64.unit_draw (rand_Float64 env (length (calls w) + k))) →
  ∃ cfg,
    RunAsyncStress env instanceID port delaySeconds [] w =
      submitStress env instanceID delaySeconds (ChainFunc instanceID port [cfg])
                   (logged (replicate 5 CallRandFloat64) w) ∧
    1 <= sc_CPUWorkers cfg <= 2 ∧ 40 <= sc_CPULoad cfg <= 60 ∧
    sc_VMWorkers cfg = 1 ∧ sc_VMBytes cfg = "128M" ∧ sc_IOWorkers cfg = 1 ∧
    24 <= sc_Timeout cfg <= 36 ∧ sc_Jitter cfg = 0.
Proof.
  intros Hu. destruct (default_jitter w Hu) as (cfg & E & R).
  exists cfg. split; [|exact R].
  unfold RunAsyncStress. unfold bind at 1. unfold bind at 1. rewrite E. reflexivity.
Qed.

(** The first loop of [RunAsyncStress] up to a configuration that does
    not parse: it stops there, having drawn random numbers only. *)
Lemma parseConfigs_stops (good : list (option (gmap string any))) :
  ∀ bad rest e (acc : list StressConfig) w,
  Forall (λ config, ∃ cfg, parseStressConfig env config = Ok cfg) good →
  parseStressConfig env bad = Err e →
  ∃ k, parseConfigs env (good ++ bad :: rest) acc w
       = (Err e, logged (replicate k CallRandFloat64) w).
Proof.
  induction good as [|config good IH]; intros bad rest e acc w Hgood Hbad.
  - exists 0%nat. cbn. rewrite Hbad, logged_nil. reflexivity.
  - apply Forall_cons in Hgood as [[cfg Hcfg] Hgood].
    cbn [app parseConfigs]. rewrite Hcfg. unfold bind at 1.
    destruct (applyConfigJitter_fields cfg w) as (r1 & r2 & r3 & r4 & r5 & E & _).
    rewrite E.
    destruct (IH bad rest e (acc ++ [{| sc_CPUWorkers := r1; sc_CPULoad := clamp r2 1 100;
                                        sc_VMWorkers := r3; sc_VMBytes := sc_VMBytes cfg;
                                        sc_IOWorkers := r4; sc_Timeout := r5;
                                        sc_Jitter := 0 |}])
                 (logged (replicate (jitterDraws cfg) CallRandFloat64) w) Hgood Hbad)
      as [k Hk].
    exists (jitterDraws cfg + k)%nat. rewrite Hk, replicate_add_logged. reflexivity.
Qed.

Lemma parseStressConfig_error (config : option (gmap string any)) e :
  parseStressConfig env config = Err e →
  ∃ m msg, config = Some m ∧
           (e = "failed to marshal config: " +:+ msg ∨ e = "failed to parse config: " +:+ msg).
Proof.
  unfold parseStressConfig. destruct config as [m|]; [|discriminate].
  destruct (json_Marshal env m) as [bytes|msg] eqn:Em.
  - destruct (json_Unmarshal env bytes DefaultStressConfig) as [cfg|msg] eqn:Eu; [discriminate|].
    intros [= <-]. eauto.
  - intros [= <-]. eauto.
Qed.

(** X4. When one of the configurations does not parse, [RunAsyncStress]
    returns the error of the first such configuration and submits
    nothing: neither executor and no pool is touched, no command is run,
    and the only outside calls are the random draws made for the
    configurations before it.  The error is a marshalling or a parsing
    error of a map that is not [nil]. *)
Theorem RunAsyncStress_parse_error (instanceID port : string) (delaySeconds : Z)
        (good : list (option (gmap string any))) (bad : option (gmap string any))
        (rest : list (option (gmap string any))) (e : string) (w : World) :
  Forall (λ config, ∃ cfg, parseStressConfig env config = Ok cfg) good →
  parseStressConfig env bad = Err e →
  let r := RunAsyncStress env instanceID port delaySeconds (good ++ bad :: rest) w in
  r.1 = Some e ∧
  (∃ k, r.2 = logged (replicate k CallRandFloat64) w) ∧
  asyncStressExecutor r.2 = asyncStressExecutor w ∧
  asyncStopExecutor r.2 = asyncStopExecutor w ∧
  (∃ m msg, bad = Some m ∧
            (e = "failed to marshal config: " +:+ msg ∨
             e = "failed to parse config: " +:+ msg)).
Proof.
  intros Hgood Hbad r.
  destruct (parseConfigs_stops good bad rest e [] w Hgood Hbad) as [k Hk].
  assert (Hr : r = (Some e, logged (replicate k CallRandFloat64) w)).
  { subst r. unfold RunAsyncStress, bind.
    destruct (good ++ bad :: rest) eqn:El.
    - destruct good; discriminate El.
    - cbv beta iota. rewrite Hk. reflexivity. }
  rewrite Hr. cbn [fst snd].
  split; [reflexivity|]. split; [eauto|]. split; [reflexivity|]. split; [reflexivity|].
  eapply parseStressConfig_error; eauto.
Qed.

Lemma parseStressConfig_timeout (config : option (gmap string any)) cfg :
  parseStressConfig env config = Ok cfg → 0 < sc_Timeout cfg.
Proof.
  unfold parseStressConfig.
  destruct config as [m|].
  - destruct (json_Marshal env m) as [bytes|msg]; [|discriminate].
    destruct (json_Unmarshal env bytes DefaultStressConfig) as [c|msg]; [|discriminate].
    intros [= <-]. destruct (sc_Timeout c <=? 0) eqn:E; cbn; lia.
  - intros [= <-]. cbn. lia.
Qed.

Lemma buildStressNGCommand_args (cfg : StressConfig) :
  buildStressNGCommand cfg = String.concat " " (stressArgs cfg).
Proof.
  unfold buildStressNGCommand, stressArgs, cpuArgs, vmArgs, ioArgs, timeoutArgs.
  destruct (0 <? sc_CPUWorkers cfg);
    destruct ((0 <? sc_CPULoad cfg) && (sc_CPULoad cfg <=? 100));
    destruct (0 <? sc_VMWorkers cfg);
    destruct (negb (String.eqb (sc_VMBytes cfg) ""));
    destruct (0 <? sc_IOWorkers cfg);
    destruct (0 <? sc_Timeout cfg); reflexivity.
Qed.

(** X5. Every round is time-limited and every CPU round has its load set.
    A configuration that [parseStressConfig] accepts has a positive
    timeout: the default 30 seconds when the caller gave no map, and 30
    when the decoded one is not positive.  [applyConfigJitter] keeps it
    at least 1 and brings the CPU load within 1 to 100, so the command
    built from the result always carries the [--timeout] flag, and the
    [--cpu-load] flag whenever it carries [--cpu]. *)
Theorem stress_round_is_time_limited (config : option (gmap string any))
        (cfg : StressConfig) (w : World) :
  parseStressConfig env config = Ok cfg →
  let c := (applyConfigJitter env cfg w).1 in
  0 < sc_Timeout cfg ∧
  (config = None → cfg = DefaultStressConfig) ∧
  1 <= sc_Timeout c ∧
  buildStressNGCommand c =
    String.concat " "
      (["stress-ng"]
       ++ (if 0 <? sc_CPUWorkers c
           then ["--cpu " +:+ pretty (sc_CPUWorkers c);
                 "--cpu-load " +:+ pretty (sc_CPULoad c)]
           else [])
       ++ vmArgs c ++ ioArgs c
       ++ ["--timeout " +:+ pretty (sc_Timeout c) +:+ "s"; "--metrics-brief"]).
Proof.
  intros Hparse c.
  pose proof (parseStressConfig_timeout config cfg Hparse) as Ht.
  destruct (applyConfigJitter_fields cfg w) as (r1 & r2 & r3 & r4 & r5 & E & HF).
  assert (Hc : 1 <= sc_Timeout c).
  { subst c. rewrite E. cbn [fst sc_Timeout].
    unfold jitteredFields in HF.
    apply Forall2_cons in HF as [_ HF]. apply Forall2_cons in HF as [_ HF].
    apply Forall2_cons in HF as [_ HF]. apply Forall2_cons in HF as [_ HF].
    apply Forall2_cons in HF as [[K P] _].
    destruct (decide (sc_Jitter cfg <= 0)) as [Hj|Hj]; [rewrite K by lia; lia|].
    apply P; lia. }
  assert (Hl : 1 <= sc_CPULoad c <= 100).
  { subst c. rewrite E. cbn [fst sc_CPULoad]. apply clamp_range. lia. }
  split; [exact Ht|]. split.
  - intros ->. unfold parseStressConfig in Hparse. cbn in Hparse. congruence.
  - split; [exact Hc|].
    rewrite buildStressNGCommand_args. unfold stressArgs, cpuArgs, timeoutArgs.
    replace (0 <? sc_Timeout c) with true by (symmetry; apply Z.ltb_lt; lia).
    replace ((0 <? sc_CPULoad c) && (sc_CPULoad c <=? 100)) with true
      by (symmetry; apply andb_true_iff; split; [apply Z.ltb_lt | apply Z.leb_le]; lia).
    destruct (0 <? sc_CPUWorkers c); reflexivity.
Qed.

End StressConfigFacts.

Lemma RunAsyncStress_default_round_witness :
  let env := sampleEnv (1 # 2) None (failedResponse "") (AcquireErr "") in
  ∃ cfg, RunAsyncStress env "i-1" "8080" 0 [] initWorld =
           submitStress env "i-1" 0 (ChainFunc "i-1" "8080" [cfg])
                        (logged (replicate 5 CallRandFloat64) initWorld) ∧
         24 <= sc_Timeout cfg <= 36.
Proof.
  intros env.
  destruct (RunAsyncStress_default_round env "i-1" "8080" 0 initWorld) as (cfg & H & R).
  - intros k _. cbn. split; [discriminate | reflexivity].
  - exists cfg. split; [exact H | tauto].
Defined.

Lemma RunAsyncStress_parse_error_witness :
  (RunAsyncStress pickyEnv "i-1" "8080" 0
     [None; Some {[ "timeout" := AStr "x" ]}; None] initWorld).1
  = Some "failed to parse config: unexpected type".
Proof.
  refine (proj1 (RunAsyncStress_parse_error pickyEnv "i-1" "8080" 0
                   [None] (Some {[ "timeout" := AStr "x" ]}) [None]
                   "failed to parse config: unexpected type" initWorld _ _)).
  - repeat constructor. eexists. reflexivity.
  - vm_compute. reflexivity.
Defined.

Lemma stress_round_is_time_limited_witness :
  let env := sampleEnv 0 None (failedResponse "") (AcquireErr "") in
  1 <= sc_Timeout (applyConfigJitter env DefaultStressConfig initWorld).1.
Proof.
  intros env.
  refine (proj1 (proj2 (proj2 (stress_round_is_time_limited env None DefaultStressConfig
                                 initWorld _)))).
  reflexivity.
Defined.

Section TokenCacheFacts.

Variable env : Env.

Lemma acquireToken_cache_step rid w :
  cache_step rid (acquireToken env rid w).1 w (acquireToken env rid w).2.
Proof.
  pose proof (acquireToken_spec env rid w) as [Hacq H]. cbn zeta in *.
  unfold cache_step.
  assert (Hex : asyncStopExecutor (acquireToken env rid w).2 = asyncStopExecutor w ∧
                asyncStressExecutor (acquireToken env rid w).2 = asyncStressExecutor w).
  { unfold acquireToken, bind, call, ret.
    destruct (client_AcquireSandboxInstanceToken env (length (calls w)) rid) as [err|[body|]];
      [split; reflexivity | | split; reflexivity].
    destruct (ab_Token body); split; reflexivity. }
  destruct Hex as [Hs1 Hs2]. split; [exact Hs1|]. split; [exact Hs2|].
  split; [lia|].
  destruct (client_AcquireSandboxInstanceToken env (length (calls w)) rid) as [err|[body|]].
  - destruct H as [-> H]. exact H.
  - destruct (ab_Token body) as [token|].
    + destruct H as [-> H]. right. eauto.
    + destruct H as [-> H]. exact H.
  - destruct H as [-> H]. exact H.
Qed.

Lemma logged_cache_step rid r cs w w' :
  Forall (λ k, is_acquire k = false) cs →
  cache_step rid r (logged cs w) w' → cache_step rid r w w'.
Proof.
  intros Hcs (H1 & H2 & H3 & H4). unfold cache_step.
  cbn [logged calls tm_cache asyncStopExecutor asyncStressExecutor] in H1, H2, H3, H4.
  rewrite acquisitions_app, (acquisitions_none cs Hcs) in H3.
  repeat split; try assumption. lia.
Qed.

Lemma hit_cache_step rid c cs w :
  tm_cache w !! rid = Some c → Forall (λ k, is_acquire k = false) cs →
  cache_step rid (Ok (tc_token c)) w (logged cs w).
Proof.
  intros Hc Hcs. unfold cache_step.
  cbn [logged calls tm_cache asyncStopExecutor asyncStressExecutor].
  rewrite acquisitions_app, (acquisitions_none cs Hcs).
  repeat split; try lia. left. eauto.
Qed.

Lemma refreshToken_entry rid w c :
  tm_cache w !! rid = Some c →
  refreshToken env rid w =
    if usable (time_Now env (length (calls w))) c
    then (Ok (tc_token c), logged [CallTimeNow] w)
    else acquireToken env rid (logged [CallTimeNow] w).
Proof.
  intros Hc. unfold refreshToken, bind. rewrite (cachedToken_entry env rid w c Hc).
  destruct (usable _ c); reflexivity.
Qed.

Lemma getToken_entry rid w c :
  tm_cache w !! rid = Some c →
  getToken env rid w =
    if usable (time_Now env (length (calls w))) c
    then (Ok (tc_token c), logged [CallTimeNow] w)
    else refreshToken env rid (logged [CallTimeNow] w).
Proof.
  intros Hc. unfold getToken, bind. rewrite (cachedToken_entry env rid w c Hc).
  destruct (usable _ c); reflexivity.
Qed.

Lemma getToken_cache_step rid w :
  cache_step rid (getToken env rid w).1 w (getToken env rid w).2.
Proof.
  destruct (tm_cache w !! rid) as [c|] eqn:Hc.
  - rewrite (getToken_entry rid w c Hc).
    destruct (usable (time_Now env (length (calls w))) c).
    + apply hit_cache_step; [exact Hc | repeat constructor].
    + rewrite (refreshToken_entry rid (logged [CallTimeNow] w) c Hc).
      destruct (usable _ c).
      * cbn [fst snd]. rewrite logged_logged.
        apply hit_cache_step; [exact Hc | repeat constructor].
      * apply (logged_cache_step rid _ [CallTimeNow]); [repeat constructor|].
        apply (logged_cache_step rid _ [CallTimeNow]); [repeat constructor|].
        apply acquireToken_cache_step.
  - rewrite (getToken_cold env rid w Hc). apply acquireToken_cache_step.
Qed.

(** X7. [getToken] for one instance never touches the cache entry of
    another and never removes an entry; a token it returns is the one the
    cache holds for the instance afterwards; when it fails the cache is
    as before; it leaves the two executors alone and asks the remote
    service at most once. *)
Theorem getToken_cache_frame (instanceID : string) (w : World) :
  let r := (getToken env instanceID w).1 in
  let w' := (getToken env instanceID w).2 in
  (∀ other, other ≠ instanceID → tm_cache w' !! other = tm_cache w !! other) ∧
  (is_Some (tm_cache w !! instanceID) → is_Some (tm_cache w' !! instanceID)) ∧
  (∀ token, r = Ok token →
     ∃ c, tm_cache w' !! instanceID = Some c ∧ tc_token c = token) ∧
  (∀ msg, r = Err msg → tm_cache w' = tm_cache w) ∧
  asyncStopExecutor w' = asyncStopExecutor w ∧
  asyncStressExecutor w' = asyncStressExecutor w ∧
  (acquisitions (calls w') <= S (acquisitions (calls w)))%nat.
Proof.
  intros r w'.
  pose proof (getToken_cache_step instanceID w) as (H1 & H2 & H3 & H4).
  fold r w' in H1, H2, H3, H4.
  assert (Hcases : tm_cache w' = tm_cache w ∨
                   ∃ c, tm_cache w' = <[instanceID := c]> (tm_cache w)).
  { destruct r as [token|msg]; [|left; exact H4].
    destruct H4 as [[H4 _] | [ex H4]]; [left; exact H4 | right; eauto]. }
  split.
  { intros other Hne. destruct Hcases as [-> | [c ->]]; [reflexivity|].
    apply lookup_insert_ne. congruence. }
  split.
  { intros Hs. destruct Hcases as [-> | [c ->]]; [exact Hs|].
    rewrite lookup_insert_eq. eauto. }
  split.
  { intros token Hr. rewrite Hr in H4.
    destruct H4 as [[-> H4] | [ex ->]]; [exact H4|].
    rewrite lookup_insert_eq. eauto. }
  split.
  { intros msg Hr. rewrite Hr in H4. exact H4. }
  auto.
Qed.

End TokenCacheFacts.

Lemma wrap64_add_l (a b : Z) : wrap64 (wrap64 a + b) = wrap64 (a + b).
Proof.
  unfold wrap64.
  replace ((a + 2 ^ 63) mod 2 ^ 64 - 2 ^ 63 + b + 2 ^ 63)
    with ((a + 2 ^ 63) mod 2 ^ 64 + b) by lia.
  rewrite Z.add_mod_idemp_l by lia. f_equal. f_equal. lia.
Qed.

Section TallyFacts.

Variable env : Env.
Hypothesis Haccepting : accepting env.

Lemma Submit_tallies {T F} k taskID delaySeconds (f : F) u (e : AsyncTaskExecutor T F) :
  tallies k e → tallies k (Submit taskID delaySeconds f u None e).1.
Proof.
  unfold tallies. intros H.
  rewrite Submit_pendingCount, Submit_pool, H, wrap64_add_l, length_app. cbn [length].
  f_equal. lia.
Qed.

Lemma set_pool_delete_tallies {T F} k (e : AsyncTaskExecutor T F) p i t :
  pool e = Some p → p !! i = Some t →
  tallies k e → tallies (k + 1) (set_pool e (delete i p)).
Proof.
  unfold tallies. intros Hp Hi H. cbn [pendingCount set_pool pool default].
  rewrite H, Hp. cbn [default]. unfold id.
  rewrite length_delete by (rewrite Hi; eauto).
  apply lookup_lt_Some in Hi. f_equal. lia.
Qed.

Lemma finish_tallies {T F} k r (e : AsyncTaskExecutor T F) :
  tallies (k + 1) e → tallies k (addPending (-1) (bufferResult r e)).
Proof.
  unfold tallies. intros H. cbn [pendingCount addPending bufferResult set_results pool].
  rewrite H, wrap64_add_l. f_equal. lia.
Qed.

Lemma GetResults_tallies {T F} k (e : AsyncTaskExecutor T F) :
  tallies k e → tallies k (GetResults e).2.
Proof.
  unfold tallies, GetResults. destruct (results e); cbn; auto.
Qed.

Lemma logged_tallied ks kr cs w : tallied ks kr w → tallied ks kr (logged cs w).
Proof. intros H. exact H. Qed.

Lemma submitStop_tallied ks kr taskID delaySeconds f w :
  tallied ks kr w → tallied ks kr (submitStop env taskID delaySeconds f w).2.
Proof.
  intros [Hs Hr]. unfold submitStop, bind, call, randFloat64, call, ret.
  destruct (0 <? delaySeconds); cbn [fst snd]; rewrite Haccepting;
    match goal with |- context [Submit ?a ?b ?c ?d ?e ?g] =>
      rewrite (surjective_pairing (Submit a b c d e g)) end;
    (split; [apply Submit_tallies; exact Hs | exact Hr]).
Qed.

Lemma submitStress_tallied ks kr taskID delaySeconds f w :
  tallied ks kr w → tallied ks kr (submitStress env taskID delaySeconds f w).2.
Proof.
  intros [Hs Hr]. unfold submitStress, bind, call, randFloat64, call, ret.
  destruct (0 <? delaySeconds); cbn [fst snd]; rewrite Haccepting;
    match goal with |- context [Submit ?a ?b ?c ?d ?e ?g] =>
      rewrite (surjective_pairing (Submit a b c d e g)) end;
    (split; [exact Hs | apply Submit_tallies; exact Hr]).
Qed.

Lemma asyncStop_tallied ks kr params delaySeconds w :
  tallied ks kr w →
  tallied ks kr (StartSandboxInstanceWithAsyncStop env params delaySeconds w).2.
Proof.
  intros H. unfold StartSandboxInstanceWithAsyncStop.
  destruct (delaySeconds <=? 0); [exact H|].
  unfold bind at 1, StartSandboxInstance, call.
  set (resp := ags_StartSandboxInstance env _ params).
  destruct (negb (cpr_Success resp)); [exact H|].
  destruct (cpr_Data resp !! "Instance") as [[| | | | |instance]|]; try exact H.
  destruct (instance !! "InstanceId") as [[| | |instanceId| |]|]; try exact H.
  destruct (String.eqb instanceId ""); [exact H|].
  unfold bind.
  pose proof (submitStop_tallied ks kr instanceId delaySeconds (StopInstanceFunc instanceId)
                (logged [CallStartSandboxInstance params] w) H) as H1.
  destruct (submitStop env instanceId delaySeconds (StopInstanceFunc instanceId) _)
    as [[e|] w1]; exact H1.
Qed.

Lemma stressRounds_tallied ks kr instanceID port n (cfgs : list StressConfig) :
  ∀ i lastResp w,
  tallied ks kr w → tallied ks kr (stressRounds env instanceID port n i cfgs lastResp w).2.
Proof.
  induction cfgs as [|cfg cfgs IH]; intros i lastResp w H; [exact H|].
  rewrite stressRounds_cons. cbn zeta. apply IH.
  destruct (i <? n - 1); [|exact H].
  rewrite Haccepting. destruct H as [Hs Hr].
  split; [exact Hs | apply Submit_tallies; exact Hr].
Qed.

Lemma runStressFunc_tallied ks kr f w :
  tallied ks kr w → tallied ks kr (runStressFunc env f w).2.
Proof.
  intros H. destruct f as [instanceID port cfgs | resp]; [|exact H].
  rewrite runStressFunc_chain_eq. cbn zeta. cbn [snd].
  apply submitStop_tallied, stressRounds_tallied, H.
Qed.

Lemma runStopFunc_tallied ks kr f w :
  tallied ks kr w → tallied ks kr (runStopFunc env f w).2.
Proof. intros H. destruct f. exact H. Qed.

Lemma stressWorker_tallied ks kr i w w' :
  tallied ks kr w → stressWorker env i w = Some w' → tallied ks kr w'.
Proof.
  intros [Hs Hr] Hw.
  destruct (pool (asyncStressExecutor w)) as [p|] eqn:Hp;
    [|unfold stressWorker in Hw; rewrite Hp in Hw; discriminate].
  destruct (p !! i) as [t|] eqn:Hi;
    [|unfold stressWorker in Hw; rewrite Hp in Hw; cbn in Hw; rewrite Hi in Hw; discriminate].
  rewrite (stressWorker_eq env i w p t Hp Hi) in Hw. cbn zeta in Hw.
  inversion Hw; subst w'; clear Hw.
  set (w1 := logged [CallTimeNow] (set_stress (set_pool (asyncStressExecutor w) (delete i p)) w)).
  assert (H1 : tallied ks (kr + 1) w1).
  { split; [exact Hs|]. apply (set_pool_delete_tallies kr _ p i t Hp Hi Hr). }
  pose proof (runStressFunc_tallied ks (kr + 1) (pt_taskFunc t) w1 H1) as [H2s H2r].
  split; [exact H2s|]. cbn [asyncStressExecutor set_stress logged].
  apply finish_tallies. exact H2r.
Qed.

Lemma stopWorker_tallied ks kr i w w' :
  tallied ks kr w → stopWorker env i w = Some w' → tallied ks kr w'.
Proof.
  intros [Hs Hr] Hw.
  destruct (pool (asyncStopExecutor w)) as [p|] eqn:Hp;
    [|unfold stopWorker in Hw; rewrite Hp in Hw; discriminate].
  destruct (p !! i) as [t|] eqn:Hi;
    [|unfold stopWorker in Hw; rewrite Hp in Hw; cbn in Hw; rewrite Hi in Hw; discriminate].
  rewrite (stopWorker_eq env i w p t Hp Hi) in Hw. cbn zeta in Hw.
  inversion Hw; subst w'; clear Hw.
  set (w1 := logged [CallTimeNow] (set_stop (set_pool (asyncStopExecutor w) (delete i p)) w)).
  assert (H1 : tallied (ks + 1) kr w1).
  { split; [|exact Hr]. apply (set_pool_delete_tallies ks _ p i t Hp Hi Hs). }
  pose proof (runStopFunc_tallied (ks + 1) kr (pt_taskFunc t) w1 H1) as [H2s H2r].
  split; [|exact H2r]. cbn [asyncStopExecutor set_stop logged].
  apply finish_tallies. exact H2s.
Qed.

Lemma RunAsyncStress_tallied ks kr instanceID port delaySeconds configs w :
  tallied ks kr w →
  tallied ks kr (RunAsyncStress env instanceID port delaySeconds configs w).2.
Proof.
  intros H. unfold RunAsyncStress. unfold bind at 1.
  set (parsing := match configs with [] => _ | _ => _ end).
  assert (Hp : ∃ cs, (parsing w).2 = logged cs w).
  { subst parsing. destruct configs as [|config configs].
    - unfold bind. destruct (applyConfigJitter_logged env DefaultStressConfig w) as [cs Hcs].
      destruct (applyConfigJitter env DefaultStressConfig w) as [cfg w1]. cbn in *. eauto.
    - generalize (config :: configs) (@nil StressConfig). clear.
      intros l. revert w. induction l as [|c l IH]; intros w acc.
      + exists []. cbn. symmetry. apply logged_nil.
      + cbn [parseConfigs]. destruct (parseStressConfig env c) as [cfg|e].
        * unfold bind. destruct (applyConfigJitter_logged env cfg w) as [cs Hcs].
          destruct (applyConfigJitter env cfg w) as [cfg' w1]. cbn [snd] in Hcs. subst w1.
          destruct (IH (logged cs w) (acc ++ [cfg'])) as [cs' Hcs'].
          exists (cs ++ cs'). rewrite Hcs', logged_logged. reflexivity.
        * exists []. cbn. symmetry. apply logged_nil. }
  destruct Hp as [cs Hcs]. destruct (parsing w) as [[stressConfigs|e] w1]; cbn [snd] in Hcs; subst w1.
  - apply submitStress_tallied, logged_tallied, H.
  - exact H.
Qed.

Lemma perform_tallied ks kr op w w' :
  tallied ks kr w → perform env op w = Some w' → tallied ks kr w'.
Proof.
  intros H Hop. destruct op; cbn in Hop; try (inversion Hop; subst; exact H).
  - inversion Hop; subst. apply asyncStop_tallied, H.
  - inversion Hop; subst. destruct H as [Hs Hr]. unfold GetAsyncStopResults.
    pose proof (GetResults_tallies ks _ Hs) as Hg.
    destruct (GetResults (asyncStopExecutor w)) as [rs e]. split; [exact Hg | exact Hr].
  - inversion Hop; subst. apply RunAsyncStress_tallied, H.
  - inversion Hop; subst. destruct H as [Hs Hr]. unfold GetAsyncStressResults.
    pose proof (GetResults_tallies kr _ Hr) as Hg.
    destruct (GetResults (asyncStressExecutor w)) as [rs e]. split; [exact Hs | exact Hg].
  - destruct pk as [i|i]; [eapply stopWorker_tallied | eapply stressWorker_tallied]; eauto.
Qed.

Lemma performAll_tallied ks kr ops : ∀ w w',
  tallied ks kr w → performAll env ops w = Some w' → tallied ks kr w'.
Proof.
  induction ops as [|op ops IH]; intros w w' H Hops.
  - cbn in Hops. inversion Hops; subst. exact H.
  - cbn in Hops. destruct (perform env op w) as [w1|] eqn:Hop; [|discriminate].
    cbn in Hops. eapply IH; [|exact Hops]. eapply perform_tallied; eauto.
Qed.

End TallyFacts.



Lemma Submit_pool_Some {T F} taskID delaySeconds (f : F) u (e : AsyncTaskExecutor T F) :
  pool (Submit taskID delaySeconds f u None e).1 =
  Some (default [] (pool e) ++ [mkPoolTask taskID (actualDelay delaySeconds u) f]).
Proof.
  unfold Submit, poolSubmit, getPool.
  destruct e as [nm [p|] size rs pc]; reflexivity.
Qed.

Lemma delete_last_added {A} (l : list A) (x : A) : delete (length l) (l ++ [x]) = l.
Proof.
  induction l as [|y l IH]; [reflexivity|]. cbn. f_equal. exact IH.
Qed.

Lemma GetAsyncStopResults_fst w :
  (GetAsyncStopResults w).1 = results (asyncStopExecutor w).
Proof.
  unfold GetAsyncStopResults.
  rewrite (surjective_pairing (GetResults (asyncStopExecutor w))). apply GetResults_fst.
Qed.

Lemma GetAsyncStopResults_again w :
  (GetAsyncStopResults (GetAsyncStopResults w).2).1 = [].
Proof.
  rewrite GetAsyncStopResults_fst. unfold GetAsyncStopResults.
  rewrite (surjective_pairing (GetResults (asyncStopExecutor w))). apply GetResults_snd.
Qed.

Section AsyncStopFacts.

Variable env : Env.

(** X9. A start with deferred stop, seen to its end.  When the start
    succeeds with an instance identifier and the pool takes the closure,
    the worker that runs it stops that very instance and leaves one
    result: it carries the identifier, the stop response, no error, and
    the milliseconds between the two clock readings around the stop
    call.  [GetAsyncStopResults] then hands it out after the results
    that were already waiting, a second call returns nothing, and the
    pool is as it was before the start. *)
Theorem async_stop_round_trip (params : gmap string any) (delaySeconds : Z)
        (instanceId : string) (w : World) :
  0 < delaySeconds →
  let L := length (calls w) in
  let started := ags_StartSandboxInstance env L params in
  cpr_Success started = true → instanceIdOf started = Some instanceId →
  pool_Submit env (L + 2) = None →
  let w1 := (StartSandboxInstanceWithAsyncStop env params delaySeconds w).2 in
  let n := length (default [] (pool (asyncStopExecutor w))) in
  ∃ w2 rec,
    stopWorker env n w1 = Some w2 ∧
    (GetAsyncStopResults w2).1 = results (asyncStopExecutor w) ++ [rec] ∧
    (GetAsyncStopResults (GetAsyncStopResults w2).2).1 = [] ∧
    atr_TaskID rec = instanceId ∧
    atr_Result rec = ags_StopSandboxInstance env (L + 4) (stopParams instanceId) ∧
    atr_Error rec = "" ∧
    atr_StartedAt rec = unixMilli (time_Now env (L + 3)) ∧
    atr_EndedAt rec = unixMilli (time_Now env (L + 5)) ∧
    atr_DurationMs rec = wrap64 (atr_EndedAt rec - atr_StartedAt rec) ∧
    calls w2 = calls w ++ [CallStartSandboxInstance params; CallRandFloat64;
                           CallPoolSubmit "async-stop" instanceId; CallTimeNow;
                           CallStopSandboxInstance (stopParams instanceId); CallTimeNow] ∧
    default [] (pool (asyncStopExecutor w2)) = default [] (pool (asyncStopExecutor w)).
Proof.
  intros Hd L started Hok Hid Hans w1 n.
  assert (Ew1 : w1 = set_stop (Submit instanceId delaySeconds (StopInstanceFunc instanceId)
                                 (rand_Float64 env (L + 1)) None (asyncStopExecutor w)).1
                       (logged [CallStartSandboxInstance params; CallRandFloat64;
                                CallPoolSubmit "async-stop" instanceId] w)).
  { subst w1. rewrite (asyncStop_cases env params delaySeconds w Hd). cbn zeta.
    fold L started. rewrite Hok, Hid. cbn [negb].
    rewrite (submitStop_spec env instanceId delaySeconds (StopInstanceFunc instanceId) _ Hd).
    cbn zeta. cbn [StartSandboxInstance call snd logged calls].
    rewrite length_app. cbn [length]. fold L.
    replace (L + 1 + 1)%nat with (L + 2)%nat by lia. rewrite Hans.
    cbn [snd]. unfold set_stop, logged. cbn. rewrite <- app_assoc. reflexivity. }
  set (t := mkPoolTask instanceId (actualDelay delaySeconds (rand_Float64 env (L + 1)))
                       (StopInstanceFunc instanceId)).
  set (p := default [] (pool (asyncStopExecutor w))).
  assert (Hp : pool (asyncStopExecutor w1) = Some (p ++ [t])).
  { rewrite Ew1. cbn [asyncStopExecutor set_stop]. apply Submit_pool_Some. }
  assert (Hi : (p ++ [t]) !! n = Some t).
  { subst n. fold p. rewrite lookup_app_r by lia. rewrite Nat.sub_diag. reflexivity. }
  assert (Hlen : length (calls w1) = (L + 3)%nat).
  { rewrite Ew1. cbn. rewrite length_app. cbn. fold L. lia. }
  pose proof (stopWorker_eq env n w1 (p ++ [t]) t Hp Hi) as Hw. cbn zeta in Hw.
  cbn [pt_taskFunc pt_taskID t runStopFunc] in Hw.
  unfold bind, StopSandboxInstance, call, ret in Hw. cbn [fst snd] in Hw.
  cbn [logged calls set_stop] in Hw. rewrite !length_app, Hlen in Hw. cbn [length] in Hw.
  replace (L + 3 + 1)%nat with (L + 4)%nat in Hw by lia.
  replace (L + 4 + 1)%nat with (L + 5)%nat in Hw by lia.
  match type of Hw with _ = Some ?W => set (w2 := W) in Hw end.
  set (rec := taskResult instanceId (ags_StopSandboxInstance env (L + 4) (stopParams instanceId))
                None (unixMilli (time_Now env (L + 3))) (unixMilli (time_Now env (L + 5))))
    in *.
  assert (Hres : results (asyncStopExecutor w2) = results (asyncStopExecutor w) ++ [rec]).
  { subst w2. cbn [asyncStopExecutor set_stop logged results addPending bufferResult
                   set_results set_pool].
    rewrite Ew1. cbn [asyncStopExecutor set_stop]. rewrite Submit_results. reflexivity. }
  exists w2, rec. split; [exact Hw|].
  split; [rewrite GetAsyncStopResults_fst; exact Hres|].
  split; [apply GetAsyncStopResults_again|].
  do 6 (split; [reflexivity|]).
  split.
  - subst w2. cbn [calls set_stop logged]. rewrite Ew1. cbn [calls set_stop logged].
    rewrite <- !app_assoc. reflexivity.
  - subst w2. cbn [asyncStopExecutor set_stop logged pool addPending bufferResult
                   set_results set_pool default].
    unfold id. subst n. fold p. apply delete_last_added.
Qed.

End AsyncStopFacts.

Lemma async_stop_round_trip_witness :
  let env := sampleEnv 0 None (startedResponse (AStr "i-1")) (AcquireErr "") in
  let w1 := (StartSandboxInstanceWithAsyncStop env ∅ 5 initWorld).2 in
  ∃ w2 rec, stopWorker env 0 w1 = Some w2 ∧
            (GetAsyncStopResults w2).1 = [rec] ∧
            atr_TaskID rec = "i-1" ∧ atr_Result rec = stoppedResponse.
Proof.
  intros env w1.
  destruct (async_stop_round_trip env ∅ 5 "i-1" initWorld)
    as (w2 & rec & H1 & H2 & _ & H3 & H4 & _); try reflexivity.
  exists w2, rec. repeat split; assumption.
Defined.

Section ControlPlaneDetail.

Context {Request Body : Type}.
Variable env : Env.
Variable sdk : Sdk Request Body.

Lemma giveUp_spec start err w :
  ControlPlane.giveUp env start err w =
  (ControlPlane.failed "" err (milliseconds (since start (time_Now env (length (calls w))))),
   logged [CallTimeNow] w).
Proof. reflexivity. Qed.

Lemma append_nonempty (prefix s : string) : prefix ≠ "" → prefix +:+ s ≠ "".
Proof. destruct prefix; [congruence | discriminate]. Qed.

Lemma decodeResponse_cases response requestID timingMs :
  let resp := ControlPlane.decodeResponse sdk response requestID timingMs in
  cpr_RequestID resp = requestID ∧ cpr_TimingMs resp = timingMs ∧
  ((cpr_Success resp = true ∧ cpr_Error resp = "" ∧
    ∃ respData, sdk_MarshalResponse sdk response = Ok respData ∧
                sdk_UnmarshalMap sdk respData = Ok (cpr_Data resp)) ∨
   (cpr_Success resp = false ∧ cpr_Error resp ≠ "" ∧ cpr_Data resp = ∅)).
Proof.
  unfold ControlPlane.decodeResponse.
  destruct (sdk_MarshalResponse sdk response) as [respData|e] eqn:Em.
  - destruct (sdk_UnmarshalMap sdk respData) as [dataMap|e] eqn:Eu; cbn.
    + repeat split. left. repeat split. eauto.
    + repeat split. right. repeat split. discriminate.
  - cbn. repeat split. right. repeat split. discriminate.
Qed.

(** [StartSandboxInstance] with its clock readings and its call laid out. *)
Lemma StartSandboxInstance_eq (params : gmap string any) (w : World) :
  let L := length (calls w) in
  let early := milliseconds (since (time_Now env L) (time_Now env (L + 1))) in
  let timingMs := milliseconds (since (time_Now env (L + 1)) (time_Now env (L + 3))) in
  let quit err := (ControlPlane.failed "" err early, logged [CallTimeNow; CallTimeNow] w) in
  ControlPlane.StartSandboxInstance env sdk params w =
  if negb (sdk_client sdk) then quit "client not initialized"
  else
    match sdk_Marshal sdk params with
    | Err e => quit ("failed to marshal params: " +:+ e)
    | Ok data =>
        match sdk_UnmarshalRequest sdk data with
        | Err e => quit ("failed to unmarshal to request: " +:+ e)
        | Ok request =>
            (match sdk_StartSandboxInstance sdk (L + 2) request with
             | SdkErr text typeName =>
                 ControlPlane.failed ""
                   (if String.eqb text "" then "unknown error: " +:+ typeName else text)
                   timingMs
             | SdkOk None | SdkOk (Some None) =>
                 ControlPlane.failed "" "empty response from API" timingMs
             | SdkOk (Some (Some response)) =>
                 ControlPlane.decodeResponse sdk (Some response)
                   (default "" (sdk_RequestId sdk response)) timingMs
             end,
             logged [CallTimeNow; CallTimeNow; CallStartSandboxInstance params; CallTimeNow] w)
        end
    end.
Proof.
  cbn zeta. unfold ControlPlane.StartSandboxInstance.
  assert (Hq : ∀ err, ControlPlane.giveUp env (time_Now env (length (calls w))) err
                        (logged [CallTimeNow] w)
                      = (ControlPlane.failed "" err
                           (milliseconds (since (time_Now env (length (calls w)))
                                            (time_Now env (length (calls w) + 1)))),
                         logged [CallTimeNow; CallTimeNow] w)).
  { intros err. rewrite giveUp_spec, logged_logged. cbn [logged calls].
    rewrite length_app. reflexivity. }
  unfold bind at 1. unfold timeNow at 1, call at 1.
  destruct (sdk_client sdk); cbn [negb]; [|apply Hq].
  destruct (sdk_Marshal sdk params) as [data|e]; [|apply Hq].
  destruct (sdk_UnmarshalRequest sdk data) as [request|e]; [|apply Hq].
  unfold bind, timeNow, call. cbn [fst snd logged calls].
  rewrite !length_app. cbn [length].
  replace (length (calls w) + 1 + 1)%nat with (length (calls w) + 2)%nat by lia.
  replace (length (calls w) + 2 + 1)%nat with (length (calls w) + 3)%nat by lia.
  assert (Hw : ∀ w0 : World, logged [CallTimeNow] (logged [CallStartSandboxInstance params]
                                (logged [CallTimeNow] (logged [CallTimeNow] w0)))
                             = logged [CallTimeNow; CallTimeNow;
                                       CallStartSandboxInstance params; CallTimeNow] w0)
    by (intros w0; rewrite !logged_logged; reflexivity).
  destruct (sdk_StartSandboxInstance sdk _ request) as [text typeName | [[response|]|]];
    unfold ret; f_equal; apply (Hw w).
Qed.

(** X10. [StartSandboxInstance] reports success exactly when it reports
    no error: a failed start always carries a message, also when the SDK
    error has an empty text, and carries no data.  The SDK is called at
    most once, and only when there is a client and the parameters go
    through the codec; the timing of a call that reached the SDK is the
    time between the clock readings just before and just after it. *)
Theorem StartSandboxInstance_reports (params : gmap string any) (w : World) :
  let resp := (ControlPlane.StartSandboxInstance env sdk params w).1 in
  let w' := (ControlPlane.StartSandboxInstance env sdk params w).2 in
  let L := length (calls w) in
  (cpr_Success resp = true ↔ cpr_Error resp = "") ∧
  (cpr_Success resp = false → cpr_Data resp = ∅) ∧
  ((ControlPlane.reachesSdk sdk params ∧
    w' = logged [CallTimeNow; CallTimeNow; CallStartSandboxInstance params; CallTimeNow] w ∧
    cpr_TimingMs resp
    = milliseconds (since (time_Now env (L + 1)) (time_Now env (L + 3)))) ∨
   (¬ ControlPlane.reachesSdk sdk params ∧
    w' = logged [CallTimeNow; CallTimeNow] w ∧
    cpr_Success resp = false ∧
    cpr_TimingMs resp
    = milliseconds (since (time_Now env L) (time_Now env (L + 1))))).
Proof.
  intros resp w' L. subst resp w'.
  rewrite StartSandboxInstance_eq. cbn zeta. fold L.
  destruct (sdk_client sdk) eqn:Hc; cbn [negb].
  2:{ cbn. split; [split; discriminate|]. split; [reflexivity|]. right.
      split; [intros [H _]; rewrite Hc in H; discriminate H|]. repeat split. }
  destruct (sdk_Marshal sdk params) as [data|e] eqn:Em.
  2:{ cbn [fst snd ControlPlane.failed cpr_Success cpr_Error cpr_Data cpr_TimingMs].
      split; [split; [discriminate | intros H; exfalso; revert H; apply append_nonempty;
                                     discriminate]|].
      split; [reflexivity|]. right.
      split; [intros (_ & d & r & H & _); rewrite Em in H; discriminate H|]. repeat split. }
  destruct (sdk_UnmarshalRequest sdk data) as [request|e] eqn:Eu.
  2:{ cbn [fst snd ControlPlane.failed cpr_Success cpr_Error cpr_Data cpr_TimingMs].
      split; [split; [discriminate | intros H; exfalso; revert H; apply append_nonempty;
                                     discriminate]|].
      split; [reflexivity|]. right.
      split; [intros (_ & d & r & H1 & H2); rewrite Em in H1; inversion H1; subst;
              rewrite Eu in H2; discriminate H2|]. repeat split. }
  assert (Hreach : ControlPlane.reachesSdk sdk params)
    by (split; [exact Hc | eauto]).
  cbn [fst snd].
  set (timingMs := milliseconds (since _ _)).
  destruct (sdk_StartSandboxInstance sdk _ request) as [text typeName | [[response|]|]].
  - cbn [ControlPlane.failed cpr_Success cpr_Error cpr_Data cpr_TimingMs].
    split.
    { split; [discriminate|]. intros H. exfalso. revert H.
      destruct (String.eqb_spec text ""); [apply append_nonempty; discriminate | assumption]. }
    split; [reflexivity|]. left. repeat split; try reflexivity; apply Hreach.
  - destruct (decodeResponse_cases (Some response) (default "" (sdk_RequestId sdk response))
                timingMs) as (_ & Ht & [(Hs & He & _) | (Hs & He & Hd)]); cbn zeta in *.
    + split; [split; intros; assumption|]. split; [rewrite Hs; discriminate|].
      left. split; [exact Hreach|]. split; [reflexivity | exact Ht].
    + split; [split; [rewrite Hs; discriminate | intros H; contradiction]|].
      split; [intros _; exact Hd|].
      left. split; [exact Hreach|]. split; [reflexivity | exact Ht].
  - cbn [ControlPlane.failed cpr_Success cpr_Error cpr_Data cpr_TimingMs].
    split; [split; discriminate|]. split; [reflexivity|].
    left. repeat split; try reflexivity; apply Hreach.
  - cbn [ControlPlane.failed cpr_Success cpr_Error cpr_Data cpr_TimingMs].
    split; [split; discriminate|]. split; [reflexivity|].
    left. repeat split; try reflexivity; apply Hreach.
Qed.

Lemma StopSandboxInstance_eq (params : gmap string any) (w : World) :
  let L := length (calls w) in
  let early := milliseconds (since (time_Now env L) (time_Now env (L + 1))) in
  let timingMs := milliseconds (since (time_Now env (L + 1)) (time_Now env (L + 3))) in
  let quit err := (Some (ControlPlane.failed "" err early),
                   logged [CallTimeNow; CallTimeNow] w) in
  ControlPlane.StopSandboxInstance env sdk params w =
  if negb (sdk_client sdk) then quit "client not initialized"
  else
    match sdk_Marshal sdk params with
    | Err e => quit ("failed to marshal params: " +:+ e)
    | Ok data =>
        match sdk_UnmarshalRequest sdk data with
        | Err e => quit ("failed to unmarshal to request: " +:+ e)
        | Ok request =>
            (match sdk_StopSandboxInstance sdk (L + 2) request with
             | SdkErr text _ => Some (ControlPlane.failed "" text timingMs)
             | SdkOk None => None
             | SdkOk (Some response) =>
                 Some (ControlPlane.decodeResponse sdk response
                         (match response with
                          | Some body => default "" (sdk_RequestId sdk body)
                          | None => ""
                          end) timingMs)
             end,
             logged [CallTimeNow; CallTimeNow; CallStopSandboxInstance params; CallTimeNow] w)
        end
    end.
Proof.
  cbn zeta. unfold ControlPlane.StopSandboxInstance.
  assert (Hq : ∀ err, (resp <~ ControlPlane.giveUp env (time_Now env (length (calls w))) err ;;
                       ret (Some resp)) (logged [CallTimeNow] w)
                      = (Some (ControlPlane.failed "" err
                                 (milliseconds (since (time_Now env (length (calls w)))
                                                  (time_Now env (length (calls w) + 1))))),
                         logged [CallTimeNow; CallTimeNow] w)).
  { intros err. unfold bind. rewrite giveUp_spec, logged_logged. cbn [logged calls].
    rewrite length_app. reflexivity. }
  unfold bind at 1. unfold timeNow at 1, call at 1.
  destruct (sdk_client sdk); cbn [negb]; [|apply Hq].
  destruct (sdk_Marshal sdk params) as [data|e]; [|apply Hq].
  destruct (sdk_UnmarshalRequest sdk data) as [request|e]; [|apply Hq].
  unfold bind, timeNow, call. cbn [fst snd logged calls].
  rewrite !length_app. cbn [length].
  replace (length (calls w) + 1 + 1)%nat with (length (calls w) + 2)%nat by lia.
  replace (length (calls w) + 2 + 1)%nat with (length (calls w) + 3)%nat by lia.
  assert (Hw : ∀ w0 : World, logged [CallTimeNow] (logged [CallStopSandboxInstance params]
                                (logged [CallTimeNow] (logged [CallTimeNow] w0)))
                             = logged [CallTimeNow; CallTimeNow;
                                       CallStopSandboxInstance params; CallTimeNow] w0)
    by (intros w0; rewrite !logged_logged; reflexivity).
  destruct (sdk_StopSandboxInstance sdk _ request) as [text typeName | [response|]];
    unfold ret; f_equal; apply (Hw w).
Qed.

(** X11. [StopSandboxInstance] past the codec.  It hands on the text of
    an SDK error as it is, so a failure may come back with an empty
    error; it panics when the SDK returns neither an error nor a
    response; and a response whose [Response] field is [nil] is not an
    error: the field is encoded and decoded like any other.  Whatever it
    returns, success comes with an empty error, and failure without
    data. *)
Theorem StopSandboxInstance_reports (params : gmap string any) (w : World)
        (data : string) (request : Request) :
  sdk_client sdk = true →
  sdk_Marshal sdk params = Ok data →
  sdk_UnmarshalRequest sdk data = Ok request →
  let r := (ControlPlane.StopSandboxInstance env sdk params w).1 in
  let L := length (calls w) in
  let timingMs := milliseconds (since (time_Now env (L + 1)) (time_Now env (L + 3))) in
  match sdk_StopSandboxInstance sdk (L + 2) request with
  | SdkErr text _ => r = Some (ControlPlane.failed "" text timingMs)
  | SdkOk None => r = None
  | SdkOk (Some None) => r = Some (ControlPlane.decodeResponse sdk None "" timingMs)
  | SdkOk (Some (Some body)) =>
      r = Some (ControlPlane.decodeResponse sdk (Some body)
                  (default "" (sdk_RequestId sdk body)) timingMs)
  end ∧
  (∀ resp, r = Some resp →
     (cpr_Success resp = true → cpr_Error resp = "") ∧
     (cpr_Success resp = false → cpr_Data resp = ∅)).
Proof.
  intros Hc Hm Hu r L timingMs. subst r.
  rewrite StopSandboxInstance_eq. cbn zeta. fold L. rewrite Hc, Hm, Hu. cbn [negb fst].
  fold timingMs.
  destruct (sdk_StopSandboxInstance sdk (L + 2) request) as [text typeName | [[body|]|]].
  - split; [reflexivity|]. intros resp [= <-]. cbn. split; [discriminate | reflexivity].
  - split; [reflexivity|]. intros resp [= <-].
    destruct (decodeResponse_cases (Some body) (default "" (sdk_RequestId sdk body)) timingMs)
      as (_ & _ & [(Hs & He & _) | (Hs & He & Hd)]); cbn zeta in *.
    + split; [intros _; exact He | rewrite Hs; discriminate].
    + split; [rewrite Hs; discriminate | intros _; exact Hd].
  - split; [reflexivity|]. intros resp [= <-].
    destruct (decodeResponse_cases None "" timingMs)
      as (_ & _ & [(Hs & He & _) | (Hs & He & Hd)]); cbn zeta in *.
    + split; [intros _; exact He | rewrite Hs; discriminate].
    + split; [rewrite Hs; discriminate | intros _; exact Hd].
  - split; [reflexivity|]. intros resp H. discriminate H.
Qed.

End ControlPlaneDetail.

(** The same silent failure through both functions: the start names the
    type of the error, the stop returns no text at all. *)
Lemma StopSandboxInstance_reports_witness :
  let env := sampleEnv 0 None (failedResponse "") (AcquireErr "") in
  cpr_Error (ControlPlane.StartSandboxInstance env silentSdk ∅ initWorld).1
  = "unknown error: *errors.errorString" ∧
  ∃ resp, (ControlPlane.StopSandboxInstance env silentSdk ∅ initWorld).1 = Some resp ∧
          cpr_Success resp = false ∧ cpr_Error resp = "".
Proof.
  intros env. split; [reflexivity|].
  destruct (StopSandboxInstance_reports env silentSdk ∅ initWorld "{}" "{}"
              eq_refl eq_refl eq_refl) as [H _].
  cbn in H. eexists. split; [exact H|]. split; reflexivity.
Defined.

Section DataPlaneFacts.

Variable env : Env.
Variable m : AGS.
Variable http : Http.

Lemma getToken_error_text rid w msg :
  (getToken env rid w).1 = Err msg → msg ≠ "".
Proof.
  assert (Ha : ∀ w0 e, (acquireToken env rid w0).1 = Err e → e ≠ "").
  { intros w0 e. pose proof (acquireToken_spec env rid w0) as [_ H]. cbn zeta in H.
    destruct (client_AcquireSandboxInstanceToken env (length (calls w0)) rid) as [err|[body|]].
    - destruct H as [-> _]. intros [= <-]. discriminate.
    - destruct (ab_Token body).
      + destruct H as [-> _]. discriminate.
      + destruct H as [-> _]. intros [= <-]. discriminate.
    - destruct H as [-> _]. intros [= <-]. discriminate. }
  destruct (tm_cache w !! rid) as [c|] eqn:Hc.
  - rewrite (getToken_entry env rid w c Hc).
    destruct (usable _ c); [discriminate|].
    rewrite (refreshToken_entry env rid (logged [CallTimeNow] w) c Hc).
    destruct (usable _ c); [discriminate|]. apply Ha.
  - rewrite (getToken_cold env rid w Hc). apply Ha.
Qed.

(** [doRequestWithTimeout] once the token is known. *)
Lemma doRequestWithTimeout_eq method instanceID port path body headers timeout w :
  let w1 := logged [CallTimeNow] w in
  let tok := getToken env instanceID w1 in
  DataPlane.doRequestWithTimeout env m http method instanceID port path body headers timeout w =
  match tok.1 with
  | Err e => (DataPlane.refused e, None, tok.2)
  | Ok token =>
      match DataPlane.buildURL m http instanceID port path with
      | Err e => (DataPlane.refused e, None, tok.2)
      | Ok fullURL =>
          match http_NewRequest http method fullURL with
          | Some e => (DataPlane.refused e, None, tok.2)
          | None =>
              let req := mkHttpRequest method fullURL
                           (if String.eqb body "" then None else Some body)
                           (DataPlane.requestHeader http token headers) timeout in
              match http_Do http (length (calls tok.2)) req with
              | HttpErr e => (DataPlane.refused e, Some req, tok.2)
              | HttpOk status header rbody =>
                  let timingMs :=
                    F64.of_int (milliseconds (since (time_Now env (length (calls w)))
                                                (time_Now env (length (calls tok.2))))) in
                  ({| rsp_Status := status;
                      rsp_Body := match rbody with Ok bytes => bytes | Err _ => "" end;
                      rsp_Headers := omap head header;
                      rsp_Error := match rbody with Ok _ => "" | Err e => e end;
                      rsp_RemoteIP := ""; rsp_TimingMs := timingMs |},
                   Some req, logged [CallTimeNow] tok.2)
              end
          end
      end
  end.
Proof.
  cbn zeta. unfold DataPlane.doRequestWithTimeout.
  unfold bind at 1. unfold timeNow at 1, call at 1. unfold bind at 1.
  destruct (getToken env instanceID (logged [CallTimeNow] w)) as [[token|e] w2]; cbn [fst snd];
    [|reflexivity].
  destruct (DataPlane.buildURL m http instanceID port path) as [fullURL|e]; [|reflexivity].
  destruct (http_NewRequest http method fullURL) as [e|]; [reflexivity|].
  unfold bind at 1.
  destruct (http_Do http (length (calls w2)) _) as [e|status header rbody]; [reflexivity|].
  unfold bind, timeNow, call, ret. destruct rbody; reflexivity.
Qed.

(** X12. A request that cannot be authorised or addressed is not sent.
    When [getToken] fails, or the address does not parse, or the request
    cannot be built, [doRequestWithTimeout] hands nothing to the HTTP
    client and returns the error with status 0, no body, no headers and
    no timing; the error of a failed [getToken] is never empty.  When a
    request is sent, it is the only one. *)
Theorem doRequest_unsent method instanceID port path body headers timeout w :
  let r := DataPlane.doRequestWithTimeout env m http method instanceID port path body
             headers timeout w in
  let tok := getToken env instanceID (logged [CallTimeNow] w) in
  let resp := r.1.1 in
  let sent := r.1.2 in
  (∀ e, tok.1 = Err e → resp = DataPlane.refused e ∧ sent = None ∧ e ≠ "" ∧ r.2 = tok.2) ∧
  (∀ token e, tok.1 = Ok token →
     DataPlane.buildURL m http instanceID port path = Err e →
     resp = DataPlane.refused e ∧ sent = None ∧ e ≠ "") ∧
  (∀ token fullURL e, tok.1 = Ok token →
     DataPlane.buildURL m http instanceID port path = Ok fullURL →
     http_NewRequest http method fullURL = Some e →
     resp = DataPlane.refused e ∧ sent = None) ∧
  (sent = None →
   rsp_Status resp = 0 ∧ rsp_Body resp = "" ∧ rsp_Headers resp = ∅ ∧
   (rsp_TimingMs resp == 0)%Q).
Proof.
  intros r tok resp sent. subst r resp sent.
  rewrite doRequestWithTimeout_eq. cbn zeta. fold tok.
  split.
  { intros e He. rewrite He. cbn. repeat split.
    eapply getToken_error_text. exact He. }
  split.
  { intros token e Ht Hb. rewrite Ht, Hb. cbn. repeat split.
    unfold DataPlane.buildURL in Hb. destruct (url_Parse http _); [|discriminate].
    injection Hb as <-. discriminate. }
  split.
  { intros token fullURL e Ht Hb Hn. rewrite Ht, Hb, Hn. cbn. repeat split. }
  destruct tok.1 as [token|e]; [|intros _; cbn; repeat split; reflexivity].
  destruct (DataPlane.buildURL m http instanceID port path) as [fullURL|e];
    [|intros _; cbn; repeat split; reflexivity].
  destruct (http_NewRequest http method fullURL) as [e|];
    [intros _; cbn; repeat split; reflexivity|].
  cbn zeta. destruct (http_Do http _ _) as [e|status header rbody]; cbn; discriminate.
Qed.

Lemma normalPath_slash (path : string) :
  String.prefix "/" (DataPlane.normalPath path) = true ∧
  DataPlane.normalPath ("/" +:+ path) = "/" +:+ path ∧
  (String.prefix "/" path = false → DataPlane.normalPath path = "/" +:+ path) ∧
  (String.prefix "/" path = true → DataPlane.normalPath path = path).
Proof.
  unfold DataPlane.normalPath. split.
  - destruct (String.prefix "/" path) eqn:E; [exact E|]. cbn. destruct path; reflexivity.
  - split; [cbn; destruct path; reflexivity|].
    split; intros ->; reflexivity.
Qed.

(** What a header holds under a key after the [Set] calls of a list of
    entries: the value of the last entry stored under that key. *)
Lemma foldl_insert_lookup (c : string → string) (l : list (string * string)) :
  ∀ (h0 : gmap string string) (k : string),
  foldl (λ h kv, <[c kv.1 := kv.2]> h) h0 l !! k =
  match last (filter (λ kv, c kv.1 = k) l) with
  | Some kv => Some kv.2
  | None => h0 !! k
  end.
Proof.
  induction l as [|x l IH]; intros h0 k; [reflexivity|].
  cbn [foldl]. rewrite IH.
  destruct (decide (c x.1 = k)) as [E|NE].
  - rewrite filter_cons_True by exact E.
    destruct (filter (λ kv, c kv.1 = k) l) as [|y l'] eqn:Hf.
    + cbn. rewrite E. apply lookup_insert_eq.
    + change (last (x :: y :: l')) with (last (y :: l')).
      destruct (last (y :: l')) eqn:Hl; [reflexivity|].
      apply last_None in Hl. discriminate Hl.
  - rewrite filter_cons_False by exact NE.
    destruct (last (filter (λ kv, c kv.1 = k) l)); [reflexivity|].
    apply lookup_insert_ne. exact NE.
Qed.

(** X13. The request that goes out.  Whenever [doRequestWithTimeout]
    hands a request to the HTTP client, [getToken] had returned a token;
    the request has the method and timeout asked for, the address
    [https://<port>-<instance>.<region>.<suffix><path>] with the path
    begun by a slash whether or not the caller wrote one, no body reader
    when the body is empty, and the token under the access-token key,
    unless the caller passed a header stored under the same key, whose
    value then replaces it.  A path written without its slash gives the
    same exchange as the path written with it. *)
Theorem doRequest_request_shape method instanceID port path body headers timeout w req :
  let r := DataPlane.doRequestWithTimeout env m http method instanceID port path body
             headers timeout w in
  r.1.2 = Some req →
  let key := http_CanonicalHeaderKey http "X-Access-Token" in
  (∃ token,
     (getToken env instanceID (logged [CallTimeNow] w)).1 = Ok token ∧
     hr_header req !! key =
       Some (match last (filter (λ kv, http_CanonicalHeaderKey http kv.1 = key) headers) with
             | Some kv => kv.2
             | None => token
             end)) ∧
  hr_method req = method ∧ hr_timeout req = timeout ∧
  hr_url req = "https://" +:+ port +:+ "-" +:+ instanceID +:+ "." +:+ m_region m
               +:+ "." +:+ m_dataPlaneDomainSuffix m +:+ DataPlane.normalPath path ∧
  String.prefix "/" (DataPlane.normalPath path) = true ∧
  hr_body req = (if String.eqb body "" then None else Some body) ∧
  (String.prefix "/" path = false →
   DataPlane.doRequestWithTimeout env m http method instanceID port ("/" +:+ path) body
     headers timeout w = r).
Proof.
  intros r Hsent key.
  assert (Hnorm : String.prefix "/" path = false →
                  DataPlane.buildURL m http instanceID port ("/" +:+ path)
                  = DataPlane.buildURL m http instanceID port path).
  { intros Hp. unfold DataPlane.buildURL.
    destruct (normalPath_slash path) as (_ & -> & H & _). rewrite (H Hp). reflexivity. }
  assert (Hsame : String.prefix "/" path = false →
                  DataPlane.doRequestWithTimeout env m http method instanceID port
                    ("/" +:+ path) body headers timeout w = r).
  { intros Hp. subst r. rewrite !doRequestWithTimeout_eq. cbn zeta.
    rewrite (Hnorm Hp). reflexivity. }
  subst r. rewrite doRequestWithTimeout_eq in Hsent. cbn zeta in Hsent.
  destruct (getToken env instanceID (logged [CallTimeNow] w)) as [[token|e] w2];
    cbn [fst snd] in Hsent; [|discriminate].
  destruct (DataPlane.buildURL m http instanceID port path) as [fullURL|e] eqn:Hb;
    [|discriminate].
  destruct (http_NewRequest http method fullURL) as [e|]; [discriminate|].
  assert (Hreq : req = mkHttpRequest method fullURL
                         (if String.eqb body "" then None else Some body)
                         (DataPlane.requestHeader http token headers) timeout).
  { destruct (http_Do http _ _) as [e|status header rbody]; cbn in Hsent; congruence. }
  clear Hsent. subst req. cbn [hr_method hr_url hr_body hr_header hr_timeout].
  split.
  { exists token. split; [reflexivity|].
    unfold DataPlane.requestHeader. rewrite foldl_insert_lookup. fold key.
    destruct (last _); [reflexivity|]. apply lookup_singleton_eq. }
  split; [reflexivity|]. split; [reflexivity|].
  split.
  { unfold DataPlane.buildURL in Hb. destruct (url_Parse http _); [discriminate|].
    injection Hb as <-. reflexivity. }
  split; [apply normalPath_slash|]. split; [reflexivity | exact Hsame].
Qed.

(** [ExecShell2Http] with its clock readings and its exchange laid out. *)
Lemma ExecShell2Http_eq instanceID port command timeout options w :
  let w1 := logged [CallTimeNow] w in
  let start := time_Now env (length (calls w)) in
  DataPlane.ExecShell2Http env m http instanceID port command timeout options w =
  match json_Marshal env (DataPlane.execBody command timeout options) with
  | Err e =>
      (DataPlane.unanswered ("failed to marshal request: " +:+ e)
         (milliseconds (since start (time_Now env (length (calls w1))))),
       None, logged [CallTimeNow] w1)
  | Ok bodyBytes =>
      let a := DataPlane.doRequestWithTimeout env m http "POST" instanceID
                 (if String.eqb port "" then "8080" else port) "/exec" bodyBytes
                 [("Content-Type", "application/json")] (DataPlane.httpTimeout timeout) w1 in
      let httpResp := a.1.1 in
      let timingMs := milliseconds (since start (time_Now env (length (calls a.2)))) in
      (if negb (String.eqb (rsp_Error httpResp) "") then
         DataPlane.unanswered (rsp_Error httpResp) timingMs
       else if negb (rsp_Status httpResp =? 200) then
         DataPlane.unanswered ("unexpected status code: " +:+ pretty (rsp_Status httpResp)
                               +:+ ", body: " +:+ rsp_Body httpResp) timingMs
       else
         let d := json_UnmarshalShell2Http http (rsp_Body httpResp)
                    (DataPlane.unanswered "" timingMs) in
         match d.2 with
         | Some e => DataPlane.set_Error ("failed to parse response: " +:+ e +:+ ", body: "
                                          +:+ rsp_Body httpResp) d.1
         | None => d.1
         end,
       a.1.2, logged [CallTimeNow] a.2)
  end.
Proof.
  cbn zeta. unfold DataPlane.ExecShell2Http.
  unfold bind at 1. unfold timeNow at 1, call at 1.
  destruct (json_Marshal env _) as [bodyBytes|e]; [|reflexivity].
  unfold bind at 1.
  destruct (DataPlane.doRequestWithTimeout env m http "POST" instanceID _ "/exec" bodyBytes
              _ _ _) as [[httpResp sent] w2].
  cbn [fst snd]. unfold bind, timeNow, call, ret. cbn [fst snd].
  destruct (negb (String.eqb (rsp_Error httpResp) "")); [reflexivity|].
  destruct (negb (rsp_Status httpResp =? 200)); [reflexivity|].
  destruct (json_UnmarshalShell2Http http _ _) as [resp [e|]]; reflexivity.
Qed.

Lemma httpTimeout_bounds (timeout : Z) :
  60 * second <= DataPlane.httpTimeout timeout ∧
  (0 <= timeout <= 2 ^ 33 →
   DataPlane.httpTimeout timeout = Z.max 60 (timeout + 30) * second).
Proof.
  unfold DataPlane.httpTimeout. cbn zeta. split.
  - destruct (_ <? _) eqn:E; [lia|]. apply Z.ltb_ge in E. exact E.
  - intros Ht. unfold second in *.
    rewrite (wrap64_id (timeout + 30)) by (unfold int64_range; lia).
    rewrite wrap64_id by (unfold int64_range; lia).
    destruct (_ <? _) eqn:E; [apply Z.ltb_lt in E | apply Z.ltb_ge in E]; lia.
Qed.

(** X14. What [ExecShell2Http] asks for.  When it sends a request, it is
    a POST to the path [/exec] of the port given, or of 8080 when none
    is, with the encoded body; the body holds the command, and the
    timeout exactly when it is positive.  The deadline of the exchange
    is never under a minute; for a timeout of up to 2^33 seconds it is
    that timeout and thirty seconds, so the exchange outlasts the
    command. *)
Theorem ExecShell2Http_request instanceID port command timeout options w req :
  let r := DataPlane.ExecShell2Http env m http instanceID port command timeout options w in
  r.1.2 = Some req →
  let reqBody := DataPlane.execBody command timeout options in
  hr_method req = "POST" ∧
  hr_url req = "https://" +:+ (if String.eqb port "" then "8080" else port) +:+ "-"
               +:+ instanceID +:+ "." +:+ m_region m +:+ "."
               +:+ m_dataPlaneDomainSuffix m +:+ "/exec" ∧
  (∃ bodyBytes, json_Marshal env reqBody = Ok bodyBytes ∧
                hr_body req = if String.eqb bodyBytes "" then None else Some bodyBytes) ∧
  reqBody !! "command" = Some (AStr command) ∧
  reqBody !! "timeout" = (if 0 <? timeout then Some (ANum (inject_Z timeout)) else None) ∧
  hr_timeout req = DataPlane.httpTimeout timeout ∧
  60 * second <= hr_timeout req ∧
  (0 <= timeout <= 2 ^ 33 → hr_timeout req = Z.max 60 (timeout + 30) * second).
Proof.
  intros r Hsent reqBody. subst r. rewrite ExecShell2Http_eq in Hsent. cbn zeta in Hsent.
  fold reqBody in Hsent.
  destruct (json_Marshal env reqBody) as [bodyBytes|e] eqn:Hm; [|discriminate].
  cbn [fst snd] in Hsent.
  destruct (doRequest_request_shape _ _ _ _ _ _ _ _ _ Hsent)
    as (_ & Hmeth & Htime & Hurl & _ & Hbody & _).
  split; [exact Hmeth|]. split; [exact Hurl|].
  split; [eauto|].
  assert (Hkeys : reqBody !! "command" = Some (AStr command) ∧
                  reqBody !! "timeout"
                  = (if 0 <? timeout then Some (ANum (inject_Z timeout)) else None)).
  { subst reqBody. unfold DataPlane.execBody.
    set (b0 := if 0 <? timeout then _ else _).
    assert (H0 : b0 !! "command" = Some (AStr command) ∧
                 b0 !! "timeout"
                 = (if 0 <? timeout then Some (ANum (inject_Z timeout)) else None)).
    { subst b0. destruct (0 <? timeout).
      - split; [rewrite lookup_insert_ne by discriminate; apply lookup_singleton_eq
               | apply lookup_insert_eq].
      - split; [apply lookup_singleton_eq | apply lookup_singleton_ne; discriminate]. }
    destruct options as [|[opts|] rest]; try exact H0.
    set (b1 := match opts !! "env" with Some ANil | None => b0 | Some _ => _ end).
    assert (H1 : b1 !! "command" = b0 !! "command" ∧ b1 !! "timeout" = b0 !! "timeout").
    { subst b1. destruct (opts !! "env") as [[]|];
        try (split; reflexivity); split; apply lookup_insert_ne; discriminate. }
    destruct H0 as [H0a H0b]. destruct H1 as [H1a H1b]. rewrite <- H0a, <- H0b, <- H1a, <- H1b.
    destruct (opts !! "workdir") as [[| | |workdir| |]|]; try (split; reflexivity).
    destruct (String.eqb workdir ""); [split; reflexivity|].
    split; apply lookup_insert_ne; discriminate. }
  split; [apply Hkeys|]. split; [apply Hkeys|].
  rewrite Htime. split; [reflexivity|]. apply httpTimeout_bounds.
Qed.

(** X15. What [ExecShell2Http] makes of the exchange.  A body that cannot
    be encoded is reported without any request.  Otherwise the error of
    the exchange, when there is one, comes back alone; so does any
    status but 200, with the status and the body in the error; and only
    a 200 reaches the decoder, whose structure is returned, with a parse
    error over it when the decoder fails.  So a response that claims
    success was decoded from the body of a 200. *)
Theorem ExecShell2Http_outcome instanceID port command timeout options w :
  let r := DataPlane.ExecShell2Http env m http instanceID port command timeout options w in
  let resp := r.1.1 in
  let w1 := logged [CallTimeNow] w in
  let start := time_Now env (length (calls w)) in
  match json_Marshal env (DataPlane.execBody command timeout options) with
  | Err e =>
      r.1.2 = None ∧ s2h_Error resp = "failed to marshal request: " +:+ e ∧
      s2h_Success resp = false
  | Ok bodyBytes =>
      let a := DataPlane.doRequestWithTimeout env m http "POST" instanceID
                 (if String.eqb port "" then "8080" else port) "/exec" bodyBytes
                 [("Content-Type", "application/json")] (DataPlane.httpTimeout timeout) w1 in
      let timingMs := milliseconds (since start (time_Now env (length (calls a.2)))) in
      r.1.2 = a.1.2 ∧
      (rsp_Error a.1.1 ≠ "" → resp = DataPlane.unanswered (rsp_Error a.1.1) timingMs) ∧
      (rsp_Error a.1.1 = "" → rsp_Status a.1.1 ≠ 200 →
       resp = DataPlane.unanswered
                ("unexpected status code: " +:+ pretty (rsp_Status a.1.1)
                 +:+ ", body: " +:+ rsp_Body a.1.1) timingMs) ∧
      (rsp_Error a.1.1 = "" → rsp_Status a.1.1 = 200 →
       let d := json_UnmarshalShell2Http http (rsp_Body a.1.1)
                  (DataPlane.unanswered "" timingMs) in
       match d.2 with
       | Some e => resp = DataPlane.set_Error
                            ("failed to parse response: " +:+ e +:+ ", body: "
                             +:+ rsp_Body a.1.1) d.1
       | None => resp = d.1
       end) ∧
      (s2h_Success resp = true →
       rsp_Error a.1.1 = "" ∧ rsp_Status a.1.1 = 200 ∧
       s2h_Success (json_UnmarshalShell2Http http (rsp_Body a.1.1)
                      (DataPlane.unanswered "" timingMs)).1 = true)
  end.
Proof.
  intros r resp w1 start. subst r resp.
  rewrite ExecShell2Http_eq. cbn zeta. fold w1 start.
  destruct (json_Marshal env _) as [bodyBytes|e]; [|cbn; repeat split].
  cbn [fst snd].
  set (a := DataPlane.doRequestWithTimeout env m http "POST" instanceID _ "/exec" bodyBytes
              _ _ w1).
  set (timingMs := milliseconds (since start (time_Now env (length (calls a.2))))).
  split; [reflexivity|].
  destruct (String.eqb_spec (rsp_Error a.1.1) "") as [He|He]; cbn [negb].
  - destruct (Z.eqb_spec (rsp_Status a.1.1) 200) as [Hs|Hs]; cbn [negb].
    + split; [intros H; contradiction|]. split; [intros _ H; contradiction|].
      split.
      * intros _ _. cbn zeta. destruct (json_UnmarshalShell2Http http _ _) as [d [e|]];
          reflexivity.
      * intros Hok. split; [exact He|]. split; [exact Hs|].
        destruct (json_UnmarshalShell2Http http _ _) as [d [e|]]; exact Hok.
    + split; [intros H; contradiction|]. split; [intros _ _; reflexivity|].
      split; [intros _ H; contradiction|]. cbn. discriminate.
  - split; [intros _; reflexivity|]. split; [intros H; contradiction|].
    split; [intros H; contradiction|]. cbn. discriminate.
Qed.

End DataPlaneFacts.

Lemma doRequest_request_shape_witness :
  let env := sampleEnv 0 None (failedResponse "")
               (AcquireOk (Some (mkAcquireBody (Some "tok") None))) in
  ∃ req, (DataPlane.Get env sampleAGS sampleHttp "i-1" "8080" "health"
            [("x-access-token", "mine")] initWorld).1.2 = Some req ∧
         hr_url req = "https://8080-i-1.ap-guangzhou.tencentags.com/health" ∧
         hr_body req = None.
Proof.
  intros env.
  destruct (DataPlane.Get env sampleAGS sampleHttp "i-1" "8080" "health"
              [("x-access-token", "mine")] initWorld) as [[resp [req|]] w'] eqn:E;
    [|vm_compute in E; discriminate E].
  exists req.
  assert (Hs : (DataPlane.doRequestWithTimeout env sampleAGS sampleHttp "GET" "i-1" "8080"
                  "health" "" [("x-access-token", "mine")] (30 * second) initWorld).1.2
               = Some req).
  { unfold DataPlane.Get, DataPlane.doRequest in E. rewrite E. reflexivity. }
  destruct (doRequest_request_shape env sampleAGS sampleHttp _ _ _ _ _ _ _ _ _ Hs)
    as (_ & _ & _ & Hurl & _ & Hbody & _).
  split; [reflexivity|]. split; [exact Hurl | exact Hbody].
Defined.

Lemma ExecShell2Http_request_witness :
  let env := sampleEnv 0 None (failedResponse "")
               (AcquireOk (Some (mkAcquireBody (Some "tok") None))) in
  ∃ req, (DataPlane.ExecShell2Http env sampleAGS sampleHttp "i-1" "" "true" 40 []
            initWorld).1.2 = Some req ∧
         hr_timeout req = 70 * second ∧
         DataPlane.httpTimeout 9223372037 = 60 * second.
Proof.
  intros env.
  destruct (DataPlane.ExecShell2Http env sampleAGS sampleHttp "i-1" "" "true" 40 []
              initWorld) as [[resp [req|]] w'] eqn:E; [|vm_compute in E; discriminate E].
  exists req. split; [reflexivity|].
  assert (Hs : (DataPlane.ExecShell2Http env sampleAGS sampleHttp "i-1" "" "true" 40 []
                  initWorld).1.2 = Some req) by (rewrite E; reflexivity).
  destruct (ExecShell2Http_request env sampleAGS sampleHttp _ _ _ _ _ _ _ Hs)
    as (_ & _ & _ & _ & _ & _ & _ & H).
  split; [rewrite H by lia; reflexivity | reflexivity].
Defined.

Section CommandServiceFacts.

Variable getenv : string → string.
Variable atoi : string → option Z.
Variable shell_Fields : string → (string → string) → result (list string).
Variable os_Stat : string → StatResult.
Variable run : list string → string → gmap string string → Z → RunResult.
Variable elapsed : Z.

Lemma timeoutFromEnv_positive variable builtin :
  0 < builtin → 0 < timeoutFromEnv getenv atoi variable builtin.
Proof.
  intros H. unfold timeoutFromEnv.
  destruct (String.eqb _ ""); [exact H|].
  destruct (atoi _) as [t|]; [|exact H].
  destruct (0 <? t) eqn:E; [apply Z.ltb_lt in E; exact E | exact H].
Qed.

(** X16. The command service runs a command only for a POST whose body
    decodes to a request with a non-empty command: any other method is
    answered 405, a body that does not decode or an empty command 400,
    and nothing is run.  A command that is run is answered 200 whether
    it succeeds or not, and runs under the request's timeout when that
    is positive and under the server's default otherwise, cut to the
    server's maximum; with the timeouts [NewServer] reads from the
    environment this is always at least one second. *)
Theorem handleExec_runs (s : Server) (method : string) (decoded : result ExecRequest) :
  let r := handleExec getenv shell_Fields os_Stat run elapsed s method decoded in
  (replyStatus r.1 = 405 ↔ method ≠ "POST") ∧
  (replyStatus r.1 = 400 ↔
   method = "POST" ∧ ∀ req, decoded = Ok req → er_Command req = "") ∧
  (replyStatus r.1 = 200 ↔
   method = "POST" ∧ ∃ req, decoded = Ok req ∧ er_Command req ≠ "") ∧
  (replyStatus r.1 ≠ 200 → r.2 = None) ∧
  (∀ req, method = "POST" → decoded = Ok req → er_Command req ≠ "" →
     let x := executeCommand getenv shell_Fields os_Stat run elapsed (er_Command req)
                (er_Env req) (er_Workdir req) (effectiveTimeout s req) in
     r = (ReplyJSON 200 x.1, x.2) ∧
     effectiveTimeout s req <= maxTimeout s ∧
     (0 < er_Timeout req <= maxTimeout s → effectiveTimeout s req = er_Timeout req) ∧
     (s = NewServer getenv atoi → 1 <= effectiveTimeout s req)).
Proof.
  intros r. subst r. unfold handleExec.
  destruct (String.eqb_spec method "POST") as [Hm|Hm]; cbn [negb].
  2:{ cbn. repeat split; try (intros; congruence); try discriminate.
      - intros [H _]. contradiction.
      - intros [H _]. contradiction. }
  destruct decoded as [req|e].
  2:{ cbn. repeat split; try (intros; congruence); try discriminate.
      intros (_ & req & H & _). discriminate H. }
  destruct (String.eqb_spec (er_Command req) "") as [Hc|Hc].
  { cbn. repeat split; try (intros; congruence); try discriminate.
    intros (_ & req' & H & Hne). injection H as <-. contradiction. }
  destruct (executeCommand getenv shell_Fields os_Stat run elapsed _ _ _ _) as [resp started]
    eqn:Ex.
  cbn [fst snd replyStatus].
  split; [split; [discriminate | intros H; contradiction]|].
  split; [split; [discriminate | intros [_ H]; specialize (H req eq_refl); contradiction]|].
  split; [split; [intros _; split; [exact Hm | eauto] | reflexivity]|].
  split; [intros H; contradiction|].
  intros req' _ [= <-] _. rewrite Ex. cbn zeta. cbn [fst snd].
  split; [reflexivity|].
  unfold effectiveTimeout.
  split; [repeat case_match; lia|].
  split; [intros H; repeat case_match; lia|].
  intros ->. cbn [defaultTimeout maxTimeout NewServer].
  pose proof (timeoutFromEnv_positive "DEFAULT_TIMEOUT" 60 ltac:(lia)).
  pose proof (timeoutFromEnv_positive "MAX_TIMEOUT" 3600 ltac:(lia)).
  repeat case_match; lia.
Qed.


End CommandServiceFacts.

Section PagingFacts.

Import Tcr.

Context {X Item Req : Type}.
Variable env : Service.
Variable request : Z → Req.
Variable called : Req → TcrCall.
Variable describe : nat → Req → result (option (Page Item)).
Variable yield : option Item → option string → T X bool.

Lemma pagesFrom_step fuel offset w :
  pagesFrom env request called describe yield (S fuel) offset w =
  match ctx_Err env (length w) with
  | Some err => yield None (Some err) (w ++ [Called CtxDone])
  | None =>
      match rateLimiter_Wait env (length w + 1) with
      | Some err => yield None (Some err) (w ++ [Called CtxDone; Called LimiterWait])
      | None =>
          let w3 := w ++ [Called CtxDone; Called LimiterWait; Called (called (request offset))] in
          match describe (length w + 2)%nat (request offset) with
          | Err err => yield None (Some err) w3
          | Ok None => (Panic, w3)
          | Ok (Some response) =>
              match yieldEach yield (pageList response) w3 with
              | (Ret true, w4) =>
                  match TotalCount response with
                  | None => (Ret true, w4)
                  | Some total =>
                      if total <=? wrap64 (offset * defaultPageSize) then (Ret true, w4)
                      else pagesFrom env request called describe yield fuel
                                     (wrap64 (offset + 1)) w4
                  end
              | (Ret false, w4) => (Ret false, w4)
              | (Panic, w4) => (Panic, w4)
              | (OutOfFuel, w4) => (OutOfFuel, w4)
              end
          end
      end
  end.
Proof.
  cbn [pagesFrom]. unfold andThen at 1. unfold ask at 1.
  destruct (ctx_Err env (length w)) as [err|]; [reflexivity|].
  unfold andThen at 1. unfold ask at 1. rewrite length_app. cbn [length].
  rewrite <- app_assoc. cbn [app].
  destruct (rateLimiter_Wait env (length w + 1)) as [err|]; [reflexivity|].
  unfold andThen at 1. unfold ask at 1. rewrite length_app. cbn [length].
  rewrite <- app_assoc. cbn [app].
  destruct (describe _ (request offset)) as [[response|]|err]; try reflexivity.
  unfold andThen at 1.
  destruct (yieldEach yield (pageList response) _) as [[[|]| |] w4]; try reflexivity.
  cbn [negb]. destruct (TotalCount response) as [total|]; [|reflexivity].
  destruct (total <=? _); reflexivity.
Qed.

End PagingFacts.

Section HealthyListing.

Import Tcr.

Context {X Item Req : Type}.
Variable env : Service.
Variable request : Z → Req.
Variable called : Req → TcrCall.
Variable describe : nat → Req → result (option (Page Item)).
Variable yield : option Item → option string → T X bool.
Variable pg : Z → list (option Item).
Variable total : Z.
Variable f : option Item → list (Event X) → list (Event X).
Variable I : list (Event X) → Prop.

Hypothesis Hctx : ∀ t, ctx_Err env t = None.
Hypothesis Hwait : ∀ t, rateLimiter_Wait env t = None.
Hypothesis Hdesc : ∀ t offset,
  describe t (request offset) = Ok (Some (mkPage (pg offset) (Some total))).
Hypothesis Htotal : total < 2 ^ 62.
Hypothesis Hyield : ∀ offset entry w,
  entry ∈ pg offset → I w → yield entry None w = (Ret true, f entry w) ∧ I (f entry w).
Hypothesis Hcalled : ∀ c1 c2 c3 w, I w → I (w ++ [Called c1; Called c2; Called c3]).

Lemma yieldEach_healthy offset (entries : list (option Item)) : ∀ w,
  entries ⊆ pg offset → I w →
  yieldEach yield entries w = (Ret true, foldl (λ w entry, f entry w) w entries)
  ∧ I (foldl (λ w entry, f entry w) w entries).
Proof.
  induction entries as [|entry rest IH]; intros w Hsub Hw; [split; [reflexivity | exact Hw]|].
  cbn [yieldEach foldl]. unfold andThen.
  destruct (Hyield offset entry w) as [-> Hw']; [apply Hsub; left | exact Hw |].
  apply IH; [|exact Hw']. intros e He. apply Hsub. right. exact He.
Qed.

Lemma pagesOf_last offset :
  1 <= offset → offset = pagesOf total →
  wrap64 (offset * defaultPageSize) = offset * 100 ∧ total <= offset * 100.
Proof.
  unfold pagesOf, defaultPageSize. intros H1 H2.
  assert (offset * 100 < 2 ^ 63).
  { assert ((total + 99) / 100 <= 2 ^ 62 / 100 + 1).
    { transitivity ((2 ^ 62 + 99) / 100); [apply Z.div_le_mono; lia|].
      vm_compute. discriminate. }
    change (2 ^ 62 / 100) with 46116860184273879 in *. lia. }
  split; [apply wrap64_id; unfold int64_range; lia|].
  pose proof (Z.div_mod (total + 99) 100 ltac:(lia)).
  pose proof (Z.mod_pos_bound (total + 99) 100 ltac:(lia)). lia.
Qed.

Lemma pagesOf_more offset :
  1 <= offset < pagesOf total →
  wrap64 (offset * defaultPageSize) = offset * 100 ∧ offset * 100 < total
  ∧ wrap64 (offset + 1) = offset + 1.
Proof.
  unfold pagesOf, defaultPageSize. intros [H1 H2].
  pose proof (Z.div_mod (total + 99) 100 ltac:(lia)).
  pose proof (Z.mod_pos_bound (total + 99) 100 ltac:(lia)).
  assert (offset * 100 < total) by lia.
  split; [apply wrap64_id; unfold int64_range; lia|].
  split; [assumption|]. apply wrap64_id. unfold int64_range. lia.
Qed.

Lemma listed_cons offset offsets (w : list (Event X)) :
  listed request called pg f (offset :: offsets) w
  = listed request called pg f offsets
      (foldl (λ w entry, f entry w)
             (w ++ [Called CtxDone; Called LimiterWait; Called (called (request offset))])
             (pg offset)).
Proof. reflexivity. Qed.

Lemma pagesFrom_healthy (k : nat) : ∀ fuel offset w,
  1 <= offset → offset + Z.of_nat k = pagesOf total → (k < fuel)%nat → I w →
  pagesFrom env request called describe yield fuel offset w
  = (Ret true, listed request called pg f (seqZ offset (Z.of_nat (S k))) w)
  ∧ I (listed request called pg f (seqZ offset (Z.of_nat (S k))) w).
Proof.
  induction k as [|k IH]; intros fuel offset w H1 Hk Hfuel Hw;
    (destruct fuel as [|fuel]; [lia|]);
    rewrite pagesFrom_step, Hctx, Hwait, Hdesc; cbn zeta; cbn [pageList TotalCount];
    set (w3 := w ++ [Called CtxDone; Called LimiterWait; Called (called (request offset))]);
    assert (Hw3 : I w3) by (apply Hcalled; exact Hw);
    destruct (yieldEach_healthy offset (pg offset) w3 ltac:(done) Hw3) as [-> Hw4].
  - destruct (pagesOf_last offset H1 ltac:(lia)) as [-> Hle].
    destruct (Z.leb_spec total (offset * 100)); [|lia].
    change (Z.of_nat 1) with 1. rewrite seqZ_cons by lia. cbn [Z.pred Z.succ].
    change (Z.pred 1) with 0. rewrite seqZ_nil by lia.
    rewrite listed_cons. fold w3. split; [reflexivity | exact Hw4].
  - destruct (pagesOf_more offset ltac:(lia)) as (-> & Hlt & ->).
    destruct (Z.leb_spec total (offset * 100)); [lia|].
    specialize (IH fuel (offset + 1) (foldl (λ w entry, f entry w) w3 (pg offset))
                   ltac:(lia) ltac:(lia) ltac:(lia) Hw4).
    rewrite (seqZ_cons offset (Z.of_nat (S (S k)))) by lia.
    replace (Z.pred (Z.of_nat (S (S k)))) with (Z.of_nat (S k)) by lia.
    replace (Z.succ offset) with (offset + 1) by lia.
    rewrite listed_cons. fold w3. exact IH.
Qed.

End HealthyListing.

Lemma foldl_appends {A B} (h : B → list A) (l : list B) : ∀ w : list A,
  foldl (λ w x, w ++ h x) w l = w ++ (x ← l; h x).
Proof.
  induction l as [|x l IH]; intros w; cbn [foldl]; [by rewrite app_nil_r|].
  rewrite IH. cbn. by rewrite app_assoc.
Qed.

Section AppendingListing.

Import Tcr.

Context {X Item Req : Type}.
Variable env : Service.
Variable request : Z → Req.
Variable called : Req → TcrCall.
Variable describe : nat → Req → result (option (Page Item)).
Variable yield : option Item → option string → T X bool.
Variable pg : Z → list (option Item).
Variable total : Z.
Variable h : option Item → list (Event X).

Hypothesis Hctx : ∀ t, ctx_Err env t = None.
Hypothesis Hwait : ∀ t, rateLimiter_Wait env t = None.
Hypothesis Hdesc : ∀ t offset,
  describe t (request offset) = Ok (Some (mkPage (pg offset) (Some total))).
Hypothesis Htotal : total < 2 ^ 62.
Hypothesis Hyield : ∀ offset entry w,
  entry ∈ pg offset → yield entry None w = (Ret true, w ++ h entry).

Lemma listed_appends (offsets : list Z) : ∀ w : list (Event X),
  listed request called pg (λ entry w, w ++ h entry) offsets w
  = w ++ (offset ← offsets;
          [Called CtxDone; Called LimiterWait; Called (called (request offset))]
          ++ (entry ← pg offset; h entry)).
Proof.
  induction offsets as [|offset offsets IH]; intros w; [by rewrite app_nil_r|].
  unfold listed in *. cbn [foldl]. rewrite IH, foldl_appends. cbn.
  by rewrite <- !app_assoc.
Qed.

Lemma pagesFrom_appends (fuel : nat) w :
  (Z.to_nat (pagesOf total) <= fuel)%nat →
  pagesFrom env request called describe yield fuel 1 w
  = (Ret true,
     w ++ (offset ← seqZ 1 (pagesOf total);
           [Called CtxDone; Called LimiterWait; Called (called (request offset))]
           ++ (entry ← pg offset; h entry))).
Proof.
  intros Hfuel.
  assert (1 <= pagesOf total) by (unfold pagesOf; lia).
  destruct (pagesFrom_healthy env request called describe yield pg total
              (λ entry w, w ++ h entry) (λ _, True) Hctx Hwait Hdesc Htotal
              ltac:(intros; split; [eauto | exact Logic.I]) ltac:(intros; exact Logic.I)
              (Z.to_nat (pagesOf total - 1)) fuel 1 w
              ltac:(lia) ltac:(lia) ltac:(lia) Logic.I) as [-> _].
  replace (Z.of_nat (S (Z.to_nat (pagesOf total - 1)))) with (pagesOf total) by lia.
  by rewrite listed_appends.
Qed.

End AppendingListing.

Section GuardedListing.

Import Tcr.

Context {X Item Req : Type}.
Variable env : Service.
Variable request : Z → Req.
Variable called : Req → TcrCall.
Variable describe : nat → Req → result (option (Page Item)).
Variable yield : option Item → option string → T X bool.
Variable I : list (Event X) → Prop.
Variable Q : Outcome bool → list (Event X) → Prop.

Hypothesis Hcalled : ∀ c w, I w → I (w ++ [Called c]).
Hypothesis Hleft : ∀ r w, I w → Q r w.
Hypothesis Hyield : ∀ entry err w,
  I w → post I Q (yield entry err w).1 (yield entry err w).2.

Lemma yieldEach_post (entries : list (option Item)) : ∀ w,
  I w → post I Q (yieldEach yield entries w).1 (yieldEach yield entries w).2.
Proof.
  induction entries as [|entry rest IH]; intros w Hw; [exact Hw|].
  cbn [yieldEach]. unfold andThen.
  pose proof (Hyield entry None w Hw) as H.
  destruct (yield entry None w) as [[[|]| |] w']; cbn [fst snd post] in *;
    [apply IH; exact H | exact H..].
Qed.

Lemma pagesFrom_post (fuel : nat) : ∀ offset w,
  I w →
  post I Q (pagesFrom env request called describe yield fuel offset w).1
           (pagesFrom env request called describe yield fuel offset w).2.
Proof.
  induction fuel as [|fuel IH]; intros offset w Hw.
  { cbn. apply Hleft. exact Hw. }
  rewrite pagesFrom_step.
  assert (H1 : I (w ++ [Called CtxDone])) by (apply Hcalled; exact Hw).
  assert (H2 : I (w ++ [Called CtxDone; Called LimiterWait])).
  { change (I (w ++ [Called CtxDone] ++ [Called LimiterWait])).
    rewrite app_assoc. apply Hcalled. exact H1. }
  assert (H3 : I (w ++ [Called CtxDone; Called LimiterWait;
                        Called (called (request offset))])).
  { change (I (w ++ [Called CtxDone; Called LimiterWait]
                 ++ [Called (called (request offset))])).
    rewrite app_assoc. apply Hcalled. exact H2. }
  destruct (ctx_Err env (length w)); [apply Hyield; exact H1|].
  destruct (rateLimiter_Wait env _); [apply Hyield; exact H2|].
  cbn zeta.
  destruct (describe _ (request offset)) as [[response|]|err];
    [| cbn; apply Hleft; exact H3 | apply Hyield; exact H3].
  pose proof (yieldEach_post (pageList response) _ H3) as H4.
  destruct (yieldEach yield (pageList response) _) as [[[|]| |] w4]; cbn [fst snd post] in *;
    try exact H4.
  destruct (TotalCount response) as [total|]; [|exact H4].
  destruct (total <=? _); [exact H4|]. apply IH. exact H4.
Qed.

End GuardedListing.

Lemma submissions_app (w1 w2 : list (Tcr.Event Tcr.Step)) :
  Tcr.submissions (w1 ++ w2) = Tcr.submissions w1 ++ Tcr.submissions w2.
Proof. apply omap_app. Qed.

Lemma errorLines_app (w1 w2 : list (Tcr.Event Tcr.Step)) :
  Tcr.errorLines (w1 ++ w2) = Tcr.errorLines w1 ++ Tcr.errorLines w2.
Proof. apply omap_app. Qed.

Lemma submissions_bind {A} (g : A → list (Tcr.Event Tcr.Step)) (l : list A) :
  Tcr.submissions (x ← l; g x) = x ← l; Tcr.submissions (g x).
Proof.
  induction l as [|x l IH]; [reflexivity|].
  rewrite !bind_cons, submissions_app, IH. reflexivity.
Qed.

Lemma errorLines_bind {A} (g : A → list (Tcr.Event Tcr.Step)) (l : list A) :
  Tcr.errorLines (x ← l; g x) = x ← l; Tcr.errorLines (g x).
Proof.
  induction l as [|x l IH]; [reflexivity|].
  rewrite !bind_cons, errorLines_app, IH. reflexivity.
Qed.

Lemma bind_nil_all {A B} (g : A → list B) (l : list A) :
  (∀ x, g x = []) → (x ← l; g x) = [].
Proof.
  intros H. induction l as [|x l IH]; [reflexivity|]. rewrite bind_cons, H, IH. reflexivity.
Qed.

Lemma bind_one {A B} (g : A → B) (l : list A) : (x ← l; [g x]) = g <$> l.
Proof.
  induction l as [|x l IH]; [reflexivity|]. rewrite bind_cons, IH. reflexivity.
Qed.

Section RegistryWalkFacts.

Import Tcr.

Variable env : Service.

(** X18. A listing that nothing disturbs.  When the context stays
    live, the limiter lets every call through and the registry reports
    the same total on every page, [Repositories] asks for the pages
    1, 2, ... up to the one that reaches the total, each with a limit of
    100, and for the first page also when the total is zero or less; it
    hands on every entry of every page in order, and then ends.  It
    asks for nothing twice and for nothing beyond. *)
Theorem Repositories_lists_every_page (registryID namespace : string)
        (pg : Z → list (option TcrRepositoryInfo)) (total : Z) (fuel : nat) :
  (∀ t, ctx_Err env t = None) →
  (∀ t, rateLimiter_Wait env t = None) →
  (∀ t req, DescribeRepositories env t req
            = Ok (Some (mkPage (pg (dr_Offset req)) (Some total)))) →
  total < 2 ^ 62 →
  (Z.to_nat (pagesOf total) <= fuel)%nat →
  Repositories env registryID namespace collect fuel [] =
  (Ret true,
   offset ← seqZ 1 (pagesOf total);
   [Called CtxDone; Called LimiterWait;
    Called (DescribeRepositoriesWithContext
              (mkDescribeRepositoriesRequest registryID namespace offset 100))]
   ++ ((λ entry, Did (entry, None)) <$> pg offset)).
Proof.
  intros Hctx Hwait Hdesc Htotal Hfuel. unfold Repositories.
  rewrite (pagesFrom_appends env _ _ _ collect pg total (λ entry, [Did (entry, None)])
             Hctx Hwait); [| intros; apply Hdesc | exact Htotal | reflexivity | exact Hfuel].
  cbn [app]. apply (f_equal (pair (Ret true))). apply list_bind_ext; [|reflexivity].
  intros offset. cbn [app]. rewrite bind_one. reflexivity.
Qed.

Lemma Run_eq (cfg_TCRRegistryID cfg_TCRNamespace cfg_Mode : string)
      (cfg_Concurrency cfg_MaxRetries : Z) (spinner_Start : option string) :
  let mode := if String.eqb cfg_Mode "" then ModePrecache else cfg_Mode in
  let info := Did (SlogInfo "开始预热任务"
                     [("mode", mode); ("registry_id", cfg_TCRRegistryID);
                      ("namespace", cfg_TCRNamespace);
                      ("concurrency", pretty cfg_Concurrency);
                      ("max_retries", pretty cfg_MaxRetries)]) in
  let refused e := Ret (Refused ("获取 TCR 实例信息失败: " +:+ e)) in
  Run env cfg_TCRRegistryID cfg_TCRNamespace cfg_Mode cfg_Concurrency cfg_MaxRetries
      spinner_Start []
  = match rateLimiter_Wait env 1 with
    | Some e => (refused e, [info; Called LimiterWait])
    | None =>
        let w := [info; Called LimiterWait;
                  Called (DescribeInstancesWithContext [cfg_TCRRegistryID])] in
        match DescribeInstances env 2 [cfg_TCRRegistryID] with
        | Err e => (refused e, w)
        | Ok None | Ok (Some []) => (Panic, w)
        | Ok (Some (first :: _)) =>
            match first ≫= RegistryName with
            | None => (Panic, w)
            | Some registryName => (Ret (Started registryName mode spinner_Start), w)
            end
        end
    end.
Proof.
  cbn zeta. unfold Run, DescribeInstance, andThen, did, ask, unit, panic. cbn [length app].
  destruct (rateLimiter_Wait env 1) as [e|]; [reflexivity|].
  cbn [length app].
  destruct (DescribeInstances env 2 [cfg_TCRRegistryID]) as [[[|first rest]|]|e];
    try reflexivity.
  destruct (first ≫= RegistryName); reflexivity.
Qed.


Section Walk.

Variable cfg_TCRRegistryID cfg_TCRNamespace : string.
Variable imageRegex : option (string → bool).
Variable registryName mode : string.

Let P := firstAttempt cfg_TCRNamespace registryName mode imageRegex.

Lemma walking_called c w : walking P w → walking P (w ++ [Called c]).
Proof.
  intros [H1 H2]. split.
  - rewrite errorLines_app, H1. reflexivity.
  - rewrite submissions_app. cbn. rewrite app_nil_r. exact H2.
Qed.

Lemma walking_stopped r w : walking P w → stopped P r w.
Proof. intros [H1 H2]. split; [exact H2 | left; exact H1]. Qed.

Lemma error_stopped msg attrs w :
  walking P w → stopped P (Ret false) (w ++ [Did (SlogError msg attrs)]).
Proof.
  intros [H1 H2]. split.
  - rewrite submissions_app. cbn. rewrite app_nil_r. exact H2.
  - right. split; [reflexivity|]. exists msg, attrs.
    split; [apply last_snoc|]. rewrite errorLines_app, H1. reflexivity.
Qed.

Lemma imageBody_post repoName image err w :
  walking P w →
  post (walking P) (stopped P)
       (imageBody cfg_TCRNamespace imageRegex registryName mode repoName image err w).1
       (imageBody cfg_TCRNamespace imageRegex registryName mode repoName image err w).2.
Proof.
  intros Hw. unfold imageBody.
  destruct err as [e|]; [cbn; apply error_stopped; exact Hw|].
  destruct (image ≫= ImageVersion) as [version|]; [|cbn; apply walking_stopped; exact Hw].
  cbn zeta.
  assert (Hsub : matches imageRegex
                   (fullImageNameOf cfg_TCRNamespace registryName repoName version) = true →
                 walking P (w ++ [Did (SubmitTask (fullImageNameOf cfg_TCRNamespace registryName
                                                     repoName version) mode 0)])).
  { intros Hm. destruct Hw as [H1 H2]. split.
    - rewrite errorLines_app, H1. reflexivity.
    - rewrite submissions_app. apply Forall_app. split; [exact H2|].
      constructor; [|constructor]. exists repoName, version. cbn zeta. split; [reflexivity|].
      exact Hm. }
  destruct imageRegex as [matchString|]; cbn [matches] in Hsub.
  - destruct (matchString _) eqn:Em; cbn; [apply Hsub; reflexivity | exact Hw].
  - cbn. apply Hsub. reflexivity.
Qed.

Lemma repoBody_post fuel repo err w :
  walking P w →
  post (walking P) (stopped P)
       (repoBody env cfg_TCRRegistryID cfg_TCRNamespace imageRegex fuel registryName mode
                 repo err w).1
       (repoBody env cfg_TCRRegistryID cfg_TCRNamespace imageRegex fuel registryName mode
                 repo err w).2.
Proof.
  intros Hw. unfold repoBody.
  destruct err as [e|]; [cbn; apply error_stopped; exact Hw|].
  destruct (repo ≫= Name) as [name|]; [|cbn; apply walking_stopped; exact Hw].
  cbn zeta. unfold RepositoryImages.
  apply pagesFrom_post; [apply walking_called | intros; by apply walking_stopped | | exact Hw].
  intros. by apply imageBody_post.
Qed.


Lemma imageBody_appends repoName version w :
  imageBody cfg_TCRNamespace imageRegex registryName mode repoName
            (Some (mkImageInfo (Some version))) None w
  = (Ret true,
     w ++ (let fullImageName :=
             fullImageNameOf cfg_TCRNamespace registryName repoName version in
           if matches imageRegex fullImageName
           then [Did (SubmitTask fullImageName mode 0)] else [])).
Proof.
  unfold imageBody, matches. cbn [mbind option_bind ImageVersion]. cbn zeta.
  destruct imageRegex as [matchString|]; [|reflexivity].
  destruct (matchString _); cbn; [reflexivity | by rewrite app_nil_r].
Qed.

Section HealthyWalk.

Variable repoNames : Z → list string.
Variable totalRepos : Z.
Variable versions : string → Z → list string.
Variable totalImages : string → Z.

Hypothesis Hctx : ∀ t, ctx_Err env t = None.
Hypothesis Hwait : ∀ t, rateLimiter_Wait env t = None.
Hypothesis Hrepos : ∀ t req,
  DescribeRepositories env t req
  = Ok (Some (mkPage ((λ name, Some (mkRepositoryInfo (Some name)))
                        <$> repoNames (dr_Offset req)) (Some totalRepos))).
Hypothesis Himages : ∀ t req,
  DescribeImages env t req
  = Ok (Some (mkPage ((λ version, Some (mkImageInfo (Some version)))
                        <$> versions (di_RepositoryName req) (di_Offset req))
                     (Some (totalImages (di_RepositoryName req))))).
Hypothesis HtotalRepos : totalRepos < 2 ^ 62.
Hypothesis HtotalImages : ∀ repoName, totalImages repoName < 2 ^ 62.

Lemma RepositoryImages_healthy repoName fuel w :
  (Z.to_nat (pagesOf (totalImages repoName)) <= fuel)%nat →
  RepositoryImages env cfg_TCRRegistryID cfg_TCRNamespace repoName
    (imageBody cfg_TCRNamespace imageRegex registryName mode repoName) fuel w
  = (Ret true,
     w ++ imagesTrace cfg_TCRRegistryID cfg_TCRNamespace registryName mode imageRegex
            versions totalImages repoName).
Proof.
  intros Hfuel. unfold RepositoryImages.
  set (h := λ entry : option TcrImageInfo,
         match entry ≫= ImageVersion with
         | Some version =>
             let fullImageName :=
               fullImageNameOf cfg_TCRNamespace registryName repoName version in
             if matches imageRegex fullImageName
             then [Did (SubmitTask fullImageName mode 0)] else []
         | None => []
         end).
  rewrite (pagesFrom_appends env _ _ _ _
             (λ offset, (λ version, Some (mkImageInfo (Some version)))
                          <$> versions repoName offset)
             (totalImages repoName) h Hctx Hwait);
    [| intros; apply Himages | apply HtotalImages | | exact Hfuel].
  - apply (f_equal (pair (Ret true))). apply (f_equal (app w)). unfold imagesTrace.
    apply list_bind_ext; [|reflexivity]. intros offset.
    rewrite list_fmap_bind. reflexivity.
  - intros offset entry w' (version & -> & _)%list_elem_of_fmap.
    apply imageBody_appends.
Qed.

Lemma imagesTrace_errorLines repoName :
  errorLines (imagesTrace cfg_TCRRegistryID cfg_TCRNamespace registryName mode imageRegex
                versions totalImages repoName) = [].
Proof.
  unfold imagesTrace. rewrite errorLines_bind. apply bind_nil_all. intros offset.
  rewrite errorLines_app, errorLines_bind. cbn [errorLines omap list_omap app].
  apply bind_nil_all. intros version. cbn zeta. destruct (matches _ _); reflexivity.
Qed.

Lemma imagesTrace_submissions repoName :
  submissions (imagesTrace cfg_TCRRegistryID cfg_TCRNamespace registryName mode imageRegex
                 versions totalImages repoName)
  = (imageOffset ← seqZ 1 (pagesOf (totalImages repoName));
     version ← versions repoName imageOffset;
     let fullImageName := fullImageNameOf cfg_TCRNamespace registryName repoName version in
     if matches imageRegex fullImageName then [(fullImageName, mode, 0)] else []).
Proof.
  unfold imagesTrace. rewrite submissions_bind. apply list_bind_ext; [|reflexivity].
  intros offset. rewrite submissions_app, submissions_bind.
  cbn [submissions omap list_omap app].
  apply list_bind_ext; [|reflexivity]. intros version.
  cbn zeta. destruct (matches _ _); reflexivity.
Qed.

(** X20. The walk through a registry that nothing disturbs.  When the
    context stays live, the limiter lets every call through, and both
    listings answer page by page with steady totals and entries that
    all carry their name or version, [processImages] ends without an
    error line and has submitted, in the order of the listings, every
    version of every repository whose full name the expression matches
    (every one when there is no expression), each once, as a first
    attempt.  The repository name is the listed name without the
    namespace in front. *)
Theorem processImages_healthy (fuel : nat) :
  (Z.to_nat (pagesOf totalRepos) <= fuel)%nat →
  (∀ repoName, (Z.to_nat (pagesOf (totalImages repoName)) <= fuel)%nat) →
  let x := processImages env cfg_TCRRegistryID cfg_TCRNamespace imageRegex fuel
             registryName mode [] in
  x.1 = Ret true ∧
  errorLines x.2 = [] ∧
  submissions x.2 = walkSubmissions cfg_TCRNamespace registryName mode imageRegex
                      repoNames totalRepos versions totalImages.
Proof.
  intros Hfuel Hfuels x. subst x. unfold processImages, Repositories.
  set (h := λ entry : option TcrRepositoryInfo,
         match entry ≫= Name with
         | Some name =>
             imagesTrace cfg_TCRRegistryID cfg_TCRNamespace registryName mode imageRegex
               versions totalImages (TrimPrefix name (cfg_TCRNamespace +:+ "/"))
         | None => []
         end).
  rewrite (pagesFrom_appends env _ _ _ _
             (λ offset, (λ name, Some (mkRepositoryInfo (Some name))) <$> repoNames offset)
             totalRepos h Hctx Hwait);
    [| intros; apply Hrepos | exact HtotalRepos | | exact Hfuel].
  2:{ intros offset entry w' (name & -> & _)%list_elem_of_fmap.
      unfold repoBody. cbn [mbind option_bind Name]. cbn zeta.
      apply RepositoryImages_healthy. apply Hfuels. }
  cbn [fst snd]. rewrite app_nil_l. split; [reflexivity|]. split.
  - rewrite errorLines_bind. apply bind_nil_all. intros offset.
    rewrite errorLines_app, errorLines_bind. cbn [errorLines omap list_omap app].
    apply bind_nil_all. intros [[[name|]]|]; cbn [h mbind option_bind Name]; [|reflexivity..].
    apply imagesTrace_errorLines.
  - unfold walkSubmissions. rewrite submissions_bind. apply list_bind_ext; [|reflexivity].
    intros offset. rewrite submissions_app, submissions_bind.
    cbn [submissions omap list_omap app].
    rewrite list_fmap_bind. apply list_bind_ext; [|reflexivity]. intros name.
    cbn [compose h mbind option_bind Name]. apply imagesTrace_submissions.
Qed.

End HealthyWalk.

End Walk.

End RegistryWalkFacts.

Lemma Repositories_lists_every_page_witness :
  let x := Tcr.Repositories (Tcr.sampleRegistry 250) "tcr-1" "ns" Tcr.collect 3 [] in
  x.1 = Tcr.Ret true ∧ length x.2 = 12%nat ∧
  x.2 !! 10%nat
  = Some (Tcr.Called (Tcr.DescribeRepositoriesWithContext
                        (Tcr.mkDescribeRepositoriesRequest "tcr-1" "ns" 3 100))).
Proof.
  intros x. subst x.
  rewrite (Repositories_lists_every_page (Tcr.sampleRegistry 250) "tcr-1" "ns"
             (λ offset, [Some (Tcr.mkRepositoryInfo (Some ("ns/repo" +:+ pretty offset)))])
             250 3); [repeat split | reflexivity | reflexivity | reflexivity | lia |].
  vm_compute. lia.
Defined.

Lemma processImages_healthy_witness :
  let x := Tcr.processImages (Tcr.sampleRegistry 150) "tcr-1" "ns"
             (Some (String.eqb "reg.tencentcloudcr.com/ns/repo2:v1")) 2 "reg" "precache" [] in
  Tcr.submissions x.2 = [("reg.tencentcloudcr.com/ns/repo2:v1", "precache", 0)].
Proof.
  intros x. subst x.
  destruct (processImages_healthy (Tcr.sampleRegistry 150) "tcr-1" "ns"
              (Some (String.eqb "reg.tencentcloudcr.com/ns/repo2:v1")) "reg" "precache"
              (λ offset, ["ns/repo" +:+ pretty offset]) 150
              (λ _ _, ["v1"; "v2"]) (λ _, 2)
              ltac:(reflexivity) ltac:(reflexivity) ltac:(reflexivity) ltac:(reflexivity)
              ltac:(lia) ltac:(intros; lia) 2)
    as (_ & _ & H); [vm_compute; lia | intros; vm_compute; lia |].
  rewrite H. vm_compute. reflexivity.
Defined.

Section WarmFacts.

Import Warm.

Variable cfg_ImageRegistryType cfg_RoleArn : string.
Variable pollInterval taskTimeout : Z.

Lemma pollPreCache_undecided req before : ∀ rest,
  Forall (λ turn, undecided turn = true) before →
  pollPreCache req (before ++ rest)
  = ((pollPreCache req rest).1,
     replicate (length before) (DescribePreCacheImageTask req) ++ (pollPreCache req rest).2).
Proof.
  induction before as [|turn before IH]; intros rest Hall.
  { cbn. by destruct (pollPreCache req rest). }
  apply Forall_cons in Hall as [Hturn Hall]. specialize (IH rest Hall).
  cbn [app length replicate pollPreCache].
  destruct turn as [err|[resp|e]]; cbn [undecided] in Hturn; [discriminate| |].
  - apply andb_true_iff in Hturn as [H1 H2].
    apply negb_true_iff in H1, H2. rewrite H1, H2, IH. reflexivity.
  - rewrite IH. reflexivity.
Qed.

(** X21. Warming through the API.  When the task cannot be created
    its error is returned and nothing is asked.  Otherwise the status
    is asked for on every tick, with the image, digest and registry
    type the create call returned.  An error of the status call never
    ends the wait, nor does a status other than [Success] and [Failed]:
    the first turn that is the end of the context, a [Success] or a
    [Failed] decides, and nothing is asked after it.  So [nil] is
    returned only after a [Success], and a status call that keeps
    failing is asked again until the context ends. *)
Theorem precacheViaAPI_decides (imageRef : string)
        (created : result CreatePreCacheImageTaskResponse)
        (turns : list (Select (result DescribePreCacheImageTaskResponse))) :
  0 < pollInterval →
  let x := precacheViaAPI pollInterval taskTimeout imageRef created turns in
  let create :=
    CreatePreCacheImageTask (mkCreatePreCacheImageTaskRequest imageRef "enterprise") in
  (∀ e, created = Err e → x = (Returns (Some ("创建预热任务失败: " +:+ e)), [create])) ∧
  (∀ createResp, created = Ok createResp →
     let asked :=
       DescribePreCacheImageTask
         (mkDescribePreCacheImageTaskRequest (cr_Image createResp)
            (Some (cr_ImageDigest createResp)) (cr_ImageRegistryType createResp)) in
     let setup := [create; WithTimeout taskTimeout; NewTicker pollInterval] in
     (Forall (λ turn, undecided turn = true) turns →
      x = (Blocks, setup ++ replicate (length turns) asked)) ∧
     (∀ before after, Forall (λ turn, undecided turn = true) before →
        (∀ err, turns = before ++ CtxDone err :: after →
           x = (Returns (Some ("等待超时: " +:+ err)),
                setup ++ replicate (length before) asked)) ∧
        (∀ resp, turns = before ++ TickerC (Ok resp) :: after → Status resp = "Success" →
           x = (Returns None, setup ++ replicate (S (length before)) asked)) ∧
        (∀ resp, turns = before ++ TickerC (Ok resp) :: after → Status resp = "Failed" →
           x = (Returns (Some ("预热失败: " +:+ Message resp)),
                setup ++ replicate (S (length before)) asked)))).
Proof.
  intros Hpoll x create. subst x. split.
  { intros e ->. reflexivity. }
  intros createResp -> asked setup. unfold precacheViaAPI, waitPreCacheComplete.
  destruct (Z.leb_spec pollInterval 0) as [|_]; [lia|].
  set (req := mkDescribePreCacheImageTaskRequest _ _ _).
  assert (Hsnoc : ∀ n, replicate n asked ++ [asked] = replicate (S n) asked).
  { intros n. rewrite <- replicate_S_end. reflexivity. }
  split.
  { intros Hall.
    pose proof (pollPreCache_undecided req turns [] Hall) as H. rewrite app_nil_r in H.
    rewrite H. cbn [pollPreCache fst snd]. rewrite app_nil_r. reflexivity. }
  intros before after Hall. split; [|split].
  - intros err ->. rewrite (pollPreCache_undecided req before _ Hall).
    cbn [pollPreCache fst snd]. rewrite app_nil_r. reflexivity.
  - intros resp -> Hs. rewrite (pollPreCache_undecided req before _ Hall).
    cbn [pollPreCache fst snd]. rewrite Hs. cbn [String.eqb Ascii.eqb Bool.eqb fst snd].
    fold asked. rewrite Hsnoc. reflexivity.
  - intros resp -> Hs. rewrite (pollPreCache_undecided req before _ Hall).
    cbn [pollPreCache fst snd]. rewrite Hs. cbn [String.eqb Ascii.eqb Bool.eqb fst snd].
    fold asked. rewrite Hsnoc. reflexivity.
Qed.

Lemma pollTool_creating toolID before : ∀ rest,
  Forall (λ turn, creating toolID turn = true) before →
  pollTool toolID (before ++ rest)
  = ((pollTool toolID rest).1,
     replicate (length before) (DescribeSandboxToolList [toolID] 1)
     ++ (pollTool toolID rest).2).
Proof.
  induction before as [|turn before IH]; intros rest Hall.
  { cbn. by destruct (pollTool toolID rest). }
  apply Forall_cons in Hall as [Hturn Hall]. specialize (IH rest Hall).
  cbn [app length replicate pollTool].
  destruct turn as [err|answer]; cbn [creating] in Hturn; [discriminate|].
  destruct (GetToolStatus toolID answer) as [[status|e]|]; try discriminate.
  apply String.eqb_eq in Hturn. subst status.
  cbn [String.eqb Ascii.eqb Bool.eqb SandboxToolStatusActive SandboxToolStatusCreating].
  rewrite IH. reflexivity.
Qed.

Lemma pollTool_never_deletes toolID turns :
  Forall (λ a, isDelete a = false) (pollTool toolID turns).2.
Proof.
  induction turns as [|[err|answer] turns IH]; cbn [pollTool]; [constructor..|].
  destruct (GetToolStatus toolID answer) as [[status|e]|];
    [| repeat constructor | repeat constructor].
  destruct (String.eqb status _); [repeat constructor|].
  destruct (String.eqb status _).
  { destruct (pollTool toolID turns). cbn [snd] in *. constructor; [reflexivity | exact IH]. }
  destruct (String.eqb status _); repeat constructor.
Qed.

(** X22. [WaitToolActive] asks for the status on every tick, at the
    interval of its options when that is positive and every two
    seconds otherwise, and goes on exactly as long as the status is
    [CREATING].  The first turn that is anything else decides: the end
    of the context and an error of the status call end the wait with
    an error, as do an empty tool set, [FAILED] and every status that
    is not known; a response, entry or status that is [nil] panics; and
    [nil] is returned for [ACTIVE] alone. *)
Theorem WaitToolActive_decides (toolID : string) (opts : option WaitToolActiveOptions)
        (turns : list (Select ToolList)) :
  let x := WaitToolActive toolID opts turns in
  let asked := DescribeSandboxToolList [toolID] 1 in
  ∃ d, 0 < d ∧
    (∀ o, opts = Some o → 0 < PollInterval o → d = PollInterval o) ∧
    ((opts = None ∨ ∃ o, opts = Some o ∧ PollInterval o <= 0) → d = 2 * second) ∧
    (Forall (λ turn, creating toolID turn = true) turns →
     x = (Blocks, NewTicker d :: replicate (length turns) asked)) ∧
    (∀ before after, Forall (λ turn, creating toolID turn = true) before →
       (∀ err, turns = before ++ CtxDone err :: after →
          x = (Returns (Some ("等待 Tool 就绪被取消: " +:+ err)),
               NewTicker d :: replicate (length before) asked)) ∧
       (∀ answer, turns = before ++ TickerC answer :: after →
          creating toolID (TickerC answer) = false →
          x = (match GetToolStatus toolID answer with
               | None => Panics
               | Some (Err e) => Returns (Some ("查询 Tool 状态失败: " +:+ e))
               | Some (Ok status) =>
                   if String.eqb status "ACTIVE" then Returns None
                   else if String.eqb status "FAILED" then Returns (Some "Tool 创建失败")
                   else Returns (Some ("Tool 状态异常: " +:+ status))
               end,
               NewTicker d :: replicate (S (length before)) asked))) ∧
    (x.1 = Returns None →
     ∃ before answer after,
       turns = before ++ TickerC answer :: after ∧
       Forall (λ turn, creating toolID turn = true) before ∧
       GetToolStatus toolID answer = Some (Ok "ACTIVE")).
Proof.
  intros x asked. subst x. unfold WaitToolActive.
  set (d := match opts with
            | Some o => if 0 <? PollInterval o then PollInterval o else 2 * second
            | None => 2 * second
            end).
  assert (Hsnoc : ∀ n, replicate n asked ++ [asked] = replicate (S n) asked).
  { intros n. rewrite <- replicate_S_end. reflexivity. }
  exists d. split.
  { subst d. destruct opts as [o|]; [|reflexivity].
    destruct (Z.ltb_spec 0 (PollInterval o)); [assumption | reflexivity]. }
  split.
  { intros o -> Ho. subst d. cbn. destruct (Z.ltb_spec 0 (PollInterval o)); [reflexivity | lia]. }
  split.
  { intros [-> | (o & -> & Ho)]; subst d; [reflexivity|].
    cbn. destruct (Z.ltb_spec 0 (PollInterval o)); [lia | reflexivity]. }
  split.
  { intros Hall.
    pose proof (pollTool_creating toolID turns [] Hall) as H. rewrite app_nil_r in H.
    rewrite H. cbn [pollTool fst snd]. rewrite app_nil_r. reflexivity. }
  split.
  { intros before after Hall. split.
    - intros err ->. rewrite (pollTool_creating toolID before _ Hall).
      cbn [pollTool fst snd]. rewrite app_nil_r. reflexivity.
    - intros answer -> Hc. rewrite (pollTool_creating toolID before _ Hall).
      cbn [pollTool creating] in *.
      destruct (GetToolStatus toolID answer) as [[status|e]|]; cbn [fst snd];
        [| fold asked; rewrite Hsnoc; reflexivity..].
      unfold SandboxToolStatusActive, SandboxToolStatusCreating, SandboxToolStatusFailed.
      rewrite Hc.
      destruct (String.eqb status "ACTIVE"); [cbn [fst snd]; fold asked; by rewrite Hsnoc|].
      destruct (String.eqb status "FAILED"); cbn [fst snd]; fold asked; by rewrite Hsnoc. }
  destruct (pollTool toolID turns) as [o tr] eqn:E. cbn [fst].
  intros ->. clear d. revert tr E.
  induction turns as [|[err|answer] turns IH]; intros tr E; cbn [pollTool] in E;
    [discriminate..|].
  destruct (GetToolStatus toolID answer) as [[status|e]|] eqn:Eg; try discriminate.
  destruct (String.eqb status SandboxToolStatusActive) eqn:Ea.
  { apply String.eqb_eq in Ea. subst status.
    exists [], answer, turns. split; [reflexivity|]. split; [constructor | exact Eg]. }
  destruct (String.eqb status SandboxToolStatusCreating) eqn:Ec.
  2:{ destruct (String.eqb status SandboxToolStatusFailed); discriminate. }
  destruct (pollTool toolID turns) as [o' tr'] eqn:E'. injection E as -> <-.
  destruct (IH tr' eq_refl) as (before & answer' & after & -> & Hall & Hact).
  exists (TickerC answer :: before), answer', after.
  split; [reflexivity|]. split; [|exact Hact].
  constructor; [|exact Hall]. cbn [creating]. rewrite Eg. exact Ec.
Qed.

Lemma WaitToolActive_never_deletes toolID opts turns :
  Forall (λ a, isDelete a = false) (WaitToolActive toolID opts turns).2.
Proof.
  unfold WaitToolActive. pose proof (pollTool_never_deletes toolID turns) as H.
  destruct (pollTool toolID turns). cbn [snd] in *. constructor; [reflexivity | exact H].
Qed.

Lemma filter_none {A} (P : A → bool) (l : list A) :
  Forall (λ a, P a = false) l → List.filter P l = [].
Proof.
  induction 1 as [|a l Ha _ IH]; [reflexivity|]. cbn. rewrite Ha. exact IH.
Qed.

(** X23. The tool of a task is removed once the wait is over, and only
    then.  [precacheViaSandboxTool] creates a tool named [precache-]
    and the identifier without its dashes, for the image given and the
    registry type of the configuration, [enterprise] when that is
    empty.  When the tool cannot be created nothing is deleted.  When
    it is created, the outcome is that of [WaitToolActive] on its
    identifier at the precacher's interval, and as soon as that wait
    returns or panics the tool is deleted: once, as the last call, and
    whatever the deletion answers the outcome stays the same.  While
    the wait goes on nothing is deleted. *)
Theorem precacheViaSandboxTool_cleans_up (uuid imageRef : string)
        (created : result (option (option string)))
        (turns : list (Select ToolList)) (deleted : option string) :
  let x := precacheViaSandboxTool cfg_ImageRegistryType cfg_RoleArn pollInterval taskTimeout
             uuid imageRef created turns deleted in
  (∃ req rest,
     x.2 = CreateSandboxTool req :: rest ∧
     ToolName req = "precache-" +:+ withoutDashes uuid ∧
     Image (Custom req) = imageRef ∧
     ImageRegistryType (Custom req)
     = (if String.eqb cfg_ImageRegistryType "" then "enterprise" else cfg_ImageRegistryType)) ∧
  ((∀ toolID, created ≠ Ok (Some (Some toolID))) →
   List.filter isDelete x.2 = [] ∧ x.1 ≠ Returns None ∧ x.1 ≠ Blocks) ∧
  (∀ toolID, created = Ok (Some (Some toolID)) →
     let w := WaitToolActive toolID (Some (mkWaitToolActiveOptions pollInterval)) turns in
     x.1 = w.1 ∧
     (w.1 = Blocks → List.filter isDelete x.2 = []) ∧
     (w.1 ≠ Blocks →
      List.filter isDelete x.2 = [DeleteSandboxTool toolID] ∧
      ∃ before line, x.2 = before ++ [DeleteSandboxTool toolID; line] ∧
                     isDelete line = false)).
Proof.
  intros x. subst x. unfold precacheViaSandboxTool. split.
  { destruct created as [[[toolID|]|]|e];
      [| cbn [snd]; do 2 eexists; repeat split..].
    destruct (WaitToolActive toolID _ turns) as [[?| |] tr]; cbn [snd];
      do 2 eexists; repeat split. }
  split.
  { intros Hno. destruct created as [[[toolID|]|]|e];
      [exfalso; by apply (Hno toolID) | cbn; repeat split; discriminate..]. }
  intros toolID ->.
  pose proof (WaitToolActive_never_deletes toolID (Some (mkWaitToolActiveOptions pollInterval))
                turns) as Hnd.
  destruct (WaitToolActive toolID _ turns) as [o tr]. cbn [fst snd] in *.
  assert (Hline : ∀ d, isDelete match d with
                                | Some e => SlogWarn "删除 SandboxTool 失败"
                                              [("tool_id", toolID); ("error", e)]
                                | None => SlogInfo "删除 SandboxTool 成功" [("tool_id", toolID)]
                                end = false) by (intros [?|]; reflexivity).
  assert (Hdone : List.filter isDelete
                    (CreateSandboxTool (sandboxToolRequest cfg_ImageRegistryType cfg_RoleArn
                                          uuid imageRef)
                     :: WithTimeout taskTimeout :: tr ++ cleanupTool toolID deleted)
                  = [DeleteSandboxTool toolID]).
  { cbn [List.filter isDelete]. rewrite List.filter_app, (filter_none _ _ Hnd).
    unfold cleanupTool. cbn [List.filter isDelete app]. rewrite Hline. reflexivity. }
  destruct o as [err| |]; cbn [fst snd].
  - split; [reflexivity|]. split; [discriminate|]. intros _. split; [exact Hdone|].
    eexists (_ :: _ :: tr), _. split; [reflexivity | apply Hline].
  - split; [reflexivity|]. split; [discriminate|]. intros _. split; [exact Hdone|].
    eexists (_ :: _ :: tr), _. split; [reflexivity | apply Hline].
  - split; [reflexivity|]. split; [|intros H; contradiction].
    intros _. cbn [List.filter isDelete]. apply filter_none. exact Hnd.
Qed.

End WarmFacts.

Lemma precacheViaAPI_decides_witness :
  let created := Ok (Warm.mkCreatePreCacheImageTaskResponse "img:1" "sha256:0" "enterprise") in
  let turns := [Warm.TickerC (Err "busy");
                Warm.TickerC (Ok (Warm.mkDescribePreCacheImageTaskResponse "Running" ""));
                Warm.TickerC (Ok (Warm.mkDescribePreCacheImageTaskResponse "Success" ""));
                Warm.CtxDone "context deadline exceeded"] in
  (Warm.precacheViaAPI (5 * second) (30 * minute) "img:1" created turns).1
  = Warm.Returns None ∧
  length (Warm.precacheViaAPI (5 * second) (30 * minute) "img:1" created turns).2 = 6%nat.
Proof.
  intros created turns.
  destruct (precacheViaAPI_decides (5 * second) (30 * minute) "img:1" created turns
              ltac:(reflexivity)) as [_ H].
  destruct (H _ eq_refl) as [_ H'].
  destruct (H' [Warm.TickerC (Err "busy");
                Warm.TickerC (Ok (Warm.mkDescribePreCacheImageTaskResponse "Running" ""))]
               [Warm.CtxDone "context deadline exceeded"]
               ltac:(repeat constructor)) as (_ & H2 & _).
  rewrite (H2 _ eq_refl eq_refl). split; reflexivity.
Defined.

Lemma filter_same (f g : string → bool) (l : list string) :
  (∀ x, x ∈ l → g x = f x) → List.filter g l = List.filter f l.
Proof.
  induction l as [|x l IH]; intros H; [reflexivity|].
  cbn. rewrite (H x) by left. rewrite IH; [reflexivity|].
  intros y Hy. apply H. by right.
Qed.

Lemma count_update (f g : string → bool) (l : list string) (id : string) :
  NoDup l → id ∈ l → (∀ x, x ≠ id → g x = f x) →
  (length (List.filter g l) + (if f id then 1 else 0)
   = length (List.filter f l) + (if g id then 1 else 0))%nat.
Proof.
  intros Hnd Hin Hsame. induction l as [|x l IH]; [by apply elem_of_nil in Hin|].
  apply NoDup_cons in Hnd as [Hx Hnd]. cbn [List.filter].
  destruct (decide (x = id)) as [->|Hne].
  - rewrite (filter_same f g l).
    2:{ intros y Hy. apply Hsame. intros ->. contradiction. }
    destruct (f id), (g id); cbn [length]; lia.
  - apply elem_of_cons in Hin as [Hin|Hin]; [congruence|].
    specialize (IH Hnd Hin). rewrite (Hsame x Hne).
    destruct (f x); cbn [length]; lia.
Qed.

Section SpinnerFacts.

Import Spinner.

Context {SpinnerModel TickMsg SpinnerCmd : Type}.
Variable spinner_Update : SpinnerModel → TickMsg → SpinnerModel * SpinnerCmd.

Lemma kept_mono n n' st : n <= n' → kept n st → kept n' st.
Proof.
  unfold kept. intros Hn (H1 & H2 & H3 & H4 & H5 & H6).
  split; [exact H1|]. split; [exact H2|]. split; [exact H3|]. lia.
Qed.

Lemma tasksWith_add (P : TaskStatus → bool) st id task completed' failed' total' :
  tasks st !! id = None → (∀ x, x ∈ taskOrder st → is_Some (tasks st !! x)) →
  tasksWith P {| tasks := <[id := task]> (tasks st); taskOrder := taskOrder st ++ [id];
                 completed := completed'; failed := failed'; totalAdded := total' |}
  = tasksWith P st ++ (if P (Status task) then [id] else []).
Proof.
  intros Hnone Hdom. unfold tasksWith. cbn [tasks taskOrder].
  rewrite List.filter_app. cbn [List.filter]. rewrite lookup_insert_eq. f_equal.
  apply filter_same. intros x Hx. rewrite lookup_insert_ne; [reflexivity|].
  intros ->. apply Hdom in Hx. rewrite Hnone in Hx. by destruct Hx.
Qed.

Lemma tasksWith_update (P : TaskStatus → bool) st id old task completed' failed' total' :
  NoDup (taskOrder st) → id ∈ taskOrder st → tasks st !! id = Some old →
  (length (tasksWith P {| tasks := <[id := task]> (tasks st); taskOrder := taskOrder st;
                          completed := completed'; failed := failed';
                          totalAdded := total' |})
   + (if P (Status old) then 1 else 0)
   = length (tasksWith P st) + (if P (Status task) then 1 else 0))%nat.
Proof.
  intros Hnd Hin Hold. unfold tasksWith. cbn [tasks taskOrder].
  pose proof (count_update
                (λ x, match tasks st !! x with Some t => P (Status t) | None => false end)
                (λ x, match <[id := task]> (tasks st) !! x with
                      | Some t => P (Status t) | None => false end)
                (taskOrder st) id Hnd Hin) as H. cbn beta in H.
  rewrite lookup_insert_eq, Hold in H. apply H.
  intros x Hx. rewrite lookup_insert_ne by congruence. reflexivity.
Qed.

Lemma Update_kept n (m : Model SpinnerModel) (msg : Msg TickMsg) :
  n + 1 < 2 ^ 63 → kept n (state m) → kept (n + 1) (state (Update spinner_Update m msg).1).
Proof.
  intros Hn Hk. assert (Hk' : kept (n + 1) (state m)) by (apply (kept_mono n); [lia | exact Hk]).
  destruct msg as [key|id name|id status message| |tick|]; cbn [Update].
  - destruct (_ || _); exact Hk'.
  - destruct (tasks (state m) !! id) as [task|] eqn:El; [exact Hk'|]. cbn [fst state].
    destruct Hk as (Hnd & Hdom & Htot & Hc & Hf & Hlen).
    assert (Hnot : id ∉ taskOrder (state m)).
    { intros Hin. apply Hdom in Hin. rewrite El in Hin. by destruct Hin. }
    unfold kept. cbn [taskOrder tasks totalAdded completed failed].
    rewrite !tasksWith_add by (try exact El; intros x Hx; by apply Hdom).
    cbn [Status succeeded hasFailed TaskStatus_eqb]. rewrite !app_nil_r, length_app.
    cbn [length]. repeat split; try lia.
    + apply NoDup_app. split; [exact Hnd|]. split; [|apply NoDup_singleton].
      intros x Hx Hx'. apply list_elem_of_singleton in Hx'. subst x. contradiction.
    + intros Hin. apply elem_of_app in Hin as [Hin|Hin].
      * destruct (decide (id0 = id)) as [->|Hne];
          [rewrite lookup_insert_eq; eauto | rewrite lookup_insert_ne by congruence].
        by apply Hdom.
      * apply list_elem_of_singleton in Hin. subst id0. rewrite lookup_insert_eq. eauto.
    + intros Hs. apply elem_of_app. destruct (decide (id0 = id)) as [->|Hne].
      * right. apply list_elem_of_singleton. reflexivity.
      * left. rewrite lookup_insert_ne in Hs by congruence. by apply Hdom.
    + rewrite wrap64_id; [lia | unfold int64_range; lia].
    + rewrite wrap64_id; [lia | unfold int64_range; lia].
  - destruct (tasks (state m) !! id) as [task|] eqn:El; [|exact Hk']. cbn [fst state].
    destruct Hk as (Hnd & Hdom & Htot & Hc & Hf & Hlen).
    assert (Hin : id ∈ taskOrder (state m)) by (apply Hdom; rewrite El; eauto).
    unfold kept. cbn [taskOrder tasks totalAdded completed failed].
    split; [exact Hnd|]. split.
    { intros x. rewrite Hdom. destruct (decide (x = id)) as [->|Hne].
      - rewrite lookup_insert_eq, El. split; eauto.
      - rewrite lookup_insert_ne by congruence. reflexivity. }
    split; [exact Htot|].
    match goal with
    | |- context [tasksWith succeeded ?st'] =>
        pose proof (tasksWith_update succeeded (state m) id task
                      {| ID := ID task; Name := Name task; Status := status;
                         Message := message |}
                      (completed st') (failed st') (totalAdded st') Hnd Hin El) as Hs;
        pose proof (tasksWith_update hasFailed (state m) id task
                      {| ID := ID task; Name := Name task; Status := status;
                         Message := message |}
                      (completed st') (failed st') (totalAdded st') Hnd Hin El) as Hfl
    end.
    cbn [completed failed totalAdded Status] in Hs, Hfl. unfold succeeded, hasFailed in *.
    match type of Hs with (length ?t + _ = _)%nat => set (a := length t) in * end.
    match type of Hfl with (length ?t + _ = _)%nat => set (b := length t) in * end.
    clearbody a b.
    assert (H0 : 0 <= completed (state m) ∧ 0 <= failed (state m)) by lia.
    destruct (Status task), status; cbn [negb andb TaskStatus_eqb] in *;
      rewrite ?wrap64_id by (unfold int64_range; lia); lia.
  - exact Hk'.
  - destruct (spinner_Update _ _). exact Hk'.
  - exact Hk'.
Qed.

Lemma updates_snoc (m : Model SpinnerModel) msgs msg :
  updates spinner_Update m (msgs ++ [msg])
  = (Update spinner_Update (updates spinner_Update m msgs) msg).1.
Proof. unfold updates. rewrite foldl_app. reflexivity. Qed.

Lemma updates_kept (s0 : SpinnerModel) (msgs : list (Msg TickMsg)) :
  Z.of_nat (length msgs) < 2 ^ 63 →
  kept (Z.of_nat (length msgs)) (state (updates spinner_Update (New s0) msgs)).
Proof.
  induction msgs as [|msg msgs IH] using rev_ind; intros Hlen.
  { cbn. unfold kept, tasksWith. cbn. repeat split; try lia; try constructor.
    - intros H. by apply elem_of_nil in H.
    - intros [t H]. rewrite lookup_empty in H. discriminate. }
  rewrite length_app in *. cbn [length] in *. rewrite updates_snoc.
  replace (Z.of_nat (length msgs + 1)) with (Z.of_nat (length msgs) + 1) by lia.
  apply Update_kept; [lia|]. apply IH. lia.
Qed.

Lemma statuses_partition (st : sharedState) :
  (∀ id, id ∈ taskOrder st → is_Some (tasks st !! id)) →
  (length (tasksWith succeeded st) + length (tasksWith hasFailed st)
   + length (tasksWith unfinished st) = length (taskOrder st))%nat.
Proof.
  unfold tasksWith. induction (taskOrder st) as [|id l IH]; intros Hdom; [reflexivity|].
  cbn [List.filter length].
  assert (IH' := IH ltac:(intros x Hx; apply Hdom; by right)).
  destruct (Hdom id ltac:(left)) as [task ->].
  destruct (Status task); cbn [succeeded hasFailed unfinished TaskStatus_eqb negb andb length];
    lia.
Qed.

Lemma omap_all {A B} (f : A → option B) (l : list A) :
  (∀ x, x ∈ l → is_Some (f x)) → length (omap f l) = length l.
Proof.
  induction l as [|x l IH]; intros H; [reflexivity|].
  cbn. destruct (H x ltac:(left)) as [y ->]. cbn. f_equal. apply IH.
  intros z Hz. apply H. by right.
Qed.

(** X24. The books of the display.  After any run of messages from a
    new model, every task added is listed once, in the order of its
    first [AddTaskMsg]; [totalAdded] is the number of tasks; the
    counters [completed] and [failed] are at least the number of tasks
    that are now [Success] and [Failed], and are never taken back: a
    task that failed and then succeeded stays counted under both.  So
    the running figure of the screen, the total less the two counters,
    is never above the number of tasks that are neither, and can be
    below it.  The screen shows fifteen lines at most, and with the
    count of the tasks it leaves out accounts for every task. *)
Theorem Update_keeps_books (s0 : SpinnerModel) (msgs : list (Msg TickMsg)) :
  Z.of_nat (length msgs) < 2 ^ 63 →
  let m := updates spinner_Update (New s0) msgs in
  let st := state m in
  NoDup (taskOrder st) ∧
  (∀ id, id ∈ taskOrder st ↔ is_Some (tasks st !! id)) ∧
  totalAdded st = Z.of_nat (length (taskOrder st)) ∧
  Z.of_nat (length (tasksWith succeeded st)) <= completed st ∧
  Z.of_nat (length (tasksWith hasFailed st)) <= failed st ∧
  (∀ scr, View m = ProgressView scr →
     shownRunning scr <= Z.of_nat (length (tasksWith unfinished st)) ∧
     (length (shownLines scr) <= 15)%nat ∧
     Z.of_nat (length (shownLines scr)) + default 0 (shownMore scr) = shownTotal scr).
Proof.
  intros Hlen m st.
  destruct (updates_kept s0 msgs Hlen) as (Hnd & Hdom & Htot & Hc & Hf & Hn).
  fold m st in Hnd, Hdom, Htot, Hc, Hf, Hn.
  split; [exact Hnd|]. split; [exact Hdom|]. split; [exact Htot|].
  split; [exact Hc|]. split; [exact Hf|].
  intros scr Hv. unfold View in Hv. fold st in Hv.
  destruct (quitting m); [discriminate|]. injection Hv as <-.
  cbn [shownRunning shownLines shownMore shownTotal].
  pose proof (statuses_partition st ltac:(intros; by apply Hdom)) as Hp.
  assert (Hlines : ∀ k, length (omap (λ id, lineOf <$> tasks st !! id) (drop k (taskOrder st)))
                        = (length (taskOrder st) - k)%nat).
  { intros k. rewrite omap_all, length_drop; [reflexivity|].
    intros x Hx. apply subseteq_drop in Hx. apply Hdom in Hx as [t ->]. cbn. eauto. }
  rewrite Hlines. split; [|split].
  - rewrite (wrap64_id (totalAdded st - completed st)) by (unfold int64_range; lia).
    rewrite wrap64_id by (unfold int64_range; lia). lia.
  - destruct (Nat.ltb_spec 15 (length (taskOrder st))); lia.
  - destruct (Nat.ltb_spec 15 (length (taskOrder st))) as [H15|H15].
    + destruct (Nat.ltb_spec 0 (length (taskOrder st) - 15)); unfold id; cbn [from_option]; lia.
    + cbn [Nat.ltb Nat.leb from_option]. unfold id. lia.
Qed.

Lemma named_unchanged (msgs : list (Msg TickMsg)) (msg : Msg TickMsg) st id :
  (is_Some (tasks st !! id) ∨ isAdd id msg = false) →
  named msgs st id → named (msgs ++ [msg]) st id.
Proof.
  unfold named. intros Hor H. destruct (tasks st !! id) as [task|].
  - destruct H as (Hid & before & name & after & -> & Hb & Hname).
    split; [exact Hid|]. exists before, name, (after ++ [msg]).
    rewrite <- app_assoc. cbn [app]. repeat split; assumption.
  - destruct Hor as [[? ?]|Hm]; [discriminate|].
    apply Forall_app. split; [exact H|]. constructor; [exact Hm | constructor].
Qed.

(** X25. A task keeps the name it was first added under.  After any run
    of messages from a new model, a task is kept under an identifier
    exactly when some [AddTaskMsg] carried it, and its name is the name
    of the first such message: adding the identifier again, as the
    precacher does for a retry with the attempt in the name, changes
    nothing, and no update changes a name. *)
Theorem AddTask_first_name_stays (s0 : SpinnerModel) (msgs : list (Msg TickMsg))
        (id : string) :
  let st := state (updates spinner_Update (New s0) msgs) in
  match tasks st !! id with
  | Some task =>
      ID task = id ∧
      ∃ before name after,
        msgs = before ++ AddTaskMsg id name :: after ∧
        Forall (λ msg, isAdd id msg = false) before ∧
        Name task = name
  | None => Forall (λ msg, isAdd id msg = false) msgs
  end.
Proof.
  cbn zeta. change (named msgs (state (updates spinner_Update (New s0) msgs)) id).
  revert id. induction msgs as [|msg msgs IH] using rev_ind; intros id.
  { unfold named. cbn. rewrite lookup_empty. constructor. }
  rewrite updates_snoc. set (m := updates spinner_Update (New s0) msgs) in *.
  destruct msg as [key|id' name'|id' status message| |tick|]; cbn [Update].
  - destruct (_ || _); cbn [fst state]; apply named_unchanged; auto.
  - destruct (tasks (state m) !! id') as [task'|] eqn:El; cbn [fst state].
    + apply named_unchanged; [|apply IH]. cbn [isAdd].
      destruct (String.eqb_spec id' id) as [->|Hne]; [left; rewrite El; eauto | right; reflexivity].
    + specialize (IH id). unfold named in *. cbn [tasks].
      destruct (decide (id = id')) as [->|Hne].
      * rewrite lookup_insert_eq. cbn [ID Name]. split; [reflexivity|].
        rewrite El in IH. exists msgs, name', []. repeat split. exact IH.
      * rewrite lookup_insert_ne by congruence.
        destruct (tasks (state m) !! id) as [task|].
        -- destruct IH as (Hid & before & name & after & -> & Hb & Hname).
           split; [exact Hid|]. exists before, name, (after ++ [AddTaskMsg id' name']).
           rewrite <- app_assoc. cbn [app]. repeat split; assumption.
        -- apply Forall_app. split; [exact IH|]. constructor; [|constructor].
           cbn [isAdd]. apply String.eqb_neq. congruence.
  - destruct (tasks (state m) !! id') as [task'|] eqn:El; cbn [fst state];
      [|apply named_unchanged; auto].
    specialize (IH id). unfold named in *. cbn [tasks].
    destruct (decide (id = id')) as [->|Hne].
    + rewrite lookup_insert_eq. cbn [ID Name]. rewrite El in IH.
      destruct IH as (Hid & before & name & after & -> & Hb & Hname).
      split; [exact Hid|]. exists before, name, (after ++ [UpdateTaskMsg id' status message]).
      rewrite <- app_assoc. cbn [app]. repeat split; assumption.
    + rewrite lookup_insert_ne by congruence.
      destruct (tasks (state m) !! id) as [task|].
      * destruct IH as (Hid & before & name & after & -> & Hb & Hname).
        split; [exact Hid|]. exists before, name, (after ++ [UpdateTaskMsg id' status message]).
        rewrite <- app_assoc. cbn [app]. repeat split; assumption.
      * apply Forall_app. split; [exact IH|]. constructor; [reflexivity | constructor].
  - cbn [fst state]. apply named_unchanged; auto.
  - destruct (spinner_Update _ _). cbn [fst state]. apply named_unchanged; auto.
  - cbn [fst state]. apply named_unchanged; auto.
Qed.

End SpinnerFacts.

(** A task that fails and succeeds on its retry: the screen shows it as
    done under its first name, and one task fewer than none as
    running. *)
Lemma Update_keeps_books_witness :
  let msgs := [Spinner.AddTask "img:1" "img:1"; Spinner.FailTask "img:1" "boom";
               Spinner.AddTask "img:1" "img:1 (重试 1)"; Spinner.FinishTask "img:1"] in
  let m := Spinner.updates Spinner.plainUpdate (Spinner.New ()) msgs in
  ∃ scr, Spinner.View m = Spinner.ProgressView scr ∧
         Spinner.shownRunning scr = -1 ∧
         Spinner.shownLines scr = [Spinner.LineSuccess "img:1"] ∧
         Spinner.shownRunning scr
         <= Z.of_nat (length (Spinner.tasksWith Spinner.unfinished (Spinner.state m))).
Proof.
  intros msgs m.
  destruct (Update_keeps_books Spinner.plainUpdate () msgs ltac:(reflexivity))
    as (_ & _ & _ & _ & _ & H).
  eexists. split; [reflexivity|]. split; [vm_compute; reflexivity|].
  split; [vm_compute; reflexivity|]. apply (H _ eq_refl).
Defined.
